(** * PalmTree-Mapping: the segmentation-and-vectorization engine

    A shallow embedding of [src/polygonize_indices.py], with the index
    calculator of [src/compute_indices.py] and the band finder of
    [src/unzip_stack.py], and the properties its specification states about
    it.

    Arrays are two-dimensional grids (lists of rows).  Raster samples are
    float32 numbers and the numbers of the configuration are Python floats
    (doubles): both are modelled by the rational they denote, or one of the
    three non-finite values.  Conversions and arithmetic round to the format
    (to nearest, ties to even, overflow to an infinity) and comparisons
    follow the IEEE rules (every comparison with NaN is false).  The two
    zeros are not told apart: no comparison does, and every division by
    zero in the modelled code is by a positive zero or gives NaN.  The
    area of a polygon, which the geometry library computes, and the
    hectares derived from it are kept as exact rationals.  The numerical
    libraries the modules call (numpy, scipy.ndimage,
    rasterio.features, geopandas) are modelled by what their documentation
    says the calls used here do. *)

From Stdlib Require Import String.
From Stdlib Require Import List ZArith QArith Qabs Qround Qpower Bool Lia Lqa.
From Stdlib Require Import Arith Permutation.
Import ListNotations.

Open Scope Z_scope.

(** ** Floating-point numbers *)

Inductive fval : Type :=
| Fin (q : Q)
| PInf
| NInf
| NaN.

(** [x <= y] on floats: false as soon as one side is NaN. *)
Definition fle (x y : fval) : bool :=
  match x, y with
  | NaN, _ => false
  | _, NaN => false
  | NInf, _ => true
  | _, PInf => true
  | Fin a, Fin b => Qle_bool a b
  | _, _ => false
  end.

(** [x >= y] on floats. *)
Definition fge (x y : fval) : bool := fle y x.

Definition is_finite (x : fval) : bool :=
  match x with Fin _ => true | _ => false end.

(** The order of the extended reals, as a relation; NaN is related to
    nothing. *)
Inductive fval_le : fval -> fval -> Prop :=
| fval_le_fin a b : (a <= b)%Q -> fval_le (Fin a) (Fin b)
| fval_le_ninf x : x <> NaN -> fval_le NInf x
| fval_le_pinf x : x <> NaN -> fval_le x PInf.

(** The strict order [x > y] on floats (false on NaN). *)
Definition fgt (x y : fval) : bool :=
  match x, y with
  | NaN, _ => false
  | _, NaN => false
  | _, _ => negb (fle x y)
  end.

(** [x == y] on floats. *)
Definition feq (x y : fval) : bool := fle x y && fle y x.

(** *** Exact arithmetic on the extended values

    An undefined result is NaN, a finite value divided by zero is an
    infinity of its sign, and NaN propagates. *)

Definition fneg (x : fval) : fval :=
  match x with
  | Fin q => Fin (- q)
  | PInf => NInf
  | NInf => PInf
  | NaN => NaN
  end.

Definition fadd (x y : fval) : fval :=
  match x, y with
  | NaN, _ => NaN
  | _, NaN => NaN
  | Fin a, Fin b => Fin (a + b)
  | PInf, NInf => NaN
  | NInf, PInf => NaN
  | PInf, _ => PInf
  | _, PInf => PInf
  | NInf, _ => NInf
  | _, NInf => NInf
  end.

Definition fsub (x y : fval) : fval := fadd x (fneg y).

(** The infinity of the sign of [a], NaN for zero. *)
Definition inf_of_sign (a : Q) : fval :=
  match (a ?= 0)%Q with
  | Eq => NaN
  | Gt => PInf
  | Lt => NInf
  end.

Definition fmul (x y : fval) : fval :=
  match x, y with
  | NaN, _ => NaN
  | _, NaN => NaN
  | Fin a, Fin b => Fin (a * b)
  | Fin a, PInf => inf_of_sign a
  | Fin a, NInf => inf_of_sign (- a)
  | PInf, Fin b => inf_of_sign b
  | NInf, Fin b => inf_of_sign (- b)
  | PInf, PInf => PInf
  | NInf, NInf => PInf
  | PInf, NInf => NInf
  | NInf, PInf => NInf
  end.

Definition fdiv (x y : fval) : fval :=
  match x, y with
  | NaN, _ => NaN
  | _, NaN => NaN
  | Fin a, Fin b => if Qeq_bool b 0 then inf_of_sign a else Fin (a / b)
  | Fin _, _ => Fin 0
  | PInf, Fin b => if Qle_bool 0 b then PInf else NInf
  | NInf, Fin b => if Qle_bool 0 b then NInf else PInf
  | _, _ => NaN
  end.

(** *** Rounding to a binary format *)

(** The integer nearest to [q]; half-way between two integers, the even
    one. *)
Definition round_half_even (q : Q) : Z :=
  let n := Qnum q in
  let d := Z.pos (Qden q) in
  let f := n / d in
  match (2 * (n mod d) ?= d) with
  | Lt => f
  | Gt => f + 1
  | Eq => if Z.even f then f else f + 1
  end.

(** The exponent [e] with [2^e <= q < 2^(e+1)], for a positive [q]. *)
Definition ilog2 (q : Q) : Z :=
  let e := Z.log2 (Qnum q) - Z.log2 (Z.pos (Qden q)) in
  if Qle_bool (2 ^ e) q then e else e - 1.

(** A binary format: [prec] significant bits, finite values below
    [2^emax]. *)
Record format : Type := { prec : Z; emax : Z }.

Definition binary32 : format := {| prec := 24; emax := 128 |}.
Definition binary64 : format := {| prec := 53; emax := 1024 |}.

(** The values of the format around [q] are the multiples of [2^e], for
    this [e]: [prec] bits from the leading one of [q], and no finer than
    the subnormal numbers. *)
Definition spacing (fmt : format) (q : Q) : Z :=
  Z.max (ilog2 (Qabs q) + 1 - prec fmt) (3 - emax fmt - prec fmt).

(** The multiple of the spacing nearest to [q], ties to even. *)
Definition nearest (fmt : format) (q : Q) : Q :=
  let e := spacing fmt q in
  Qred (inject_Z (round_half_even (q / 2 ^ e)) * 2 ^ e).

(** The value of the format nearest to [q]; a result of magnitude [2^emax]
    or more is an infinity. *)
Definition round_to (fmt : format) (q : Q) : fval :=
  if Qeq_bool q 0 then Fin 0
  else
    let r := nearest fmt q in
    if Qle_bool (2 ^ emax fmt) (Qabs r)
    then (if Qle_bool 0 q then PInf else NInf)
    else Fin r.

(** Conversion to float32 and to double. *)
Definition f32 (x : fval) : fval :=
  match x with
  | Fin q => round_to binary32 q
  | _ => x
  end.

Definition f64 (x : fval) : fval :=
  match x with
  | Fin q => round_to binary64 q
  | _ => x
  end.

(** The Python float that a decimal literal denotes. *)
Definition double (q : Q) : Q :=
  match round_to binary64 q with
  | Fin r => r
  | _ => 0
  end.

(** float32 arithmetic, as numpy does it on float32 arrays: the exact
    result, rounded. *)
Definition f32_add (x y : fval) : fval := f32 (fadd x y).
Definition f32_sub (x y : fval) : fval := f32 (fsub x y).
Definition f32_mul (x y : fval) : fval := f32 (fmul x y).
Definition f32_div (x y : fval) : fval := f32 (fdiv x y).

(** ** Grids *)

Definition cell : Type := (Z * Z)%type.
Definition grid (A : Type) : Type := list (list A).

(** numpy's [shape] of a two-dimensional array. *)
Definition shape {A} (g : grid A) : nat * nat :=
  (length g, length (hd [] g)).

Definition inb (sh : nat * nat) (p : cell) : bool :=
  (0 <=? fst p) && (fst p <? Z.of_nat (fst sh)) &&
  (0 <=? snd p) && (snd p <? Z.of_nat (snd sh)).

(** The sample at [p = (row, col)]; [d] outside the array. *)
Definition get {A} (d : A) (g : grid A) (p : cell) : A :=
  if inb (shape g) p
  then nth (Z.to_nat (snd p)) (nth (Z.to_nat (fst p)) g []) d
  else d.

(** The [h] by [w] array whose sample at [p] is [f p]. *)
Definition tabulate {A} (sh : nat * nat) (f : cell -> A) : grid A :=
  map (fun r => map (fun c => f (Z.of_nat r, Z.of_nat c)) (seq 0 (snd sh)))
      (seq 0 (fst sh)).

(** All cells of an array of the given shape, in raster (row-major) order. *)
Definition all_cells (sh : nat * nat) : list cell :=
  flat_map (fun r => map (fun c => (Z.of_nat r, Z.of_nat c)) (seq 0 (snd sh)))
           (seq 0 (fst sh)).

Definition cell_eqb (p q : cell) : bool :=
  (fst p =? fst q) && (snd p =? snd q).

(** ** Errors and results *)

Inductive PyError : Type :=
| KeyError (key : string)
| ZeroDivisionError
| OverflowError
| ValueError
| CRSError.

Inductive Result (A : Type) : Type :=
| Ok (a : A)
| Raise (e : PyError).
Arguments Ok {A} a.
Arguments Raise {A} e.

(** ** Elementwise array operations

    numpy computes these cell by cell; the result has the shape of the
    operand. *)

(** [arr >= x] and [arr <= x] for a float32 array and a Python number [x]:
    numpy converts the number to the type of the array, float32, and
    compares each sample with the converted value. *)
Definition np_ge (arr : grid fval) (x : fval) : grid bool :=
  tabulate (shape arr) (fun p => fge (get NaN arr p) (f32 x)).
Definition np_le (arr : grid fval) (x : fval) : grid bool :=
  tabulate (shape arr) (fun p => fle (get NaN arr p) (f32 x)).

Definition shape_eqb (s t : nat * nat) : bool :=
  Nat.eqb (fst s) (fst t) && Nat.eqb (snd s) (snd t).

(** numpy's broadcasting of one axis: equal lengths, or one of them 1. *)
Definition broadcast_dim (n m : nat) : option nat :=
  if Nat.eqb n m then Some n
  else if Nat.eqb n 1 then Some m
  else if Nat.eqb m 1 then Some n
  else None.

(** The sample of [g] that broadcasting puts at [p]: an axis of length 1 is
    repeated. *)
Definition bget (g : grid bool) (p : cell) : bool :=
  get false g (if Nat.eqb (fst (shape g)) 1 then 0 else fst p,
               if Nat.eqb (snd (shape g)) 1 then 0 else snd p).

(** [a & b] on boolean arrays: elementwise on equal shapes, broadcast when
    the shapes are compatible, [ValueError] otherwise. *)
Definition np_and (a b : grid bool) : Result (grid bool) :=
  if shape_eqb (shape a) (shape b)
  then Ok (tabulate (shape a) (fun p => get false a p && get false b p))
  else
    match broadcast_dim (fst (shape a)) (fst (shape b)),
          broadcast_dim (snd (shape a)) (snd (shape b)) with
    | Some h, Some w => Ok (tabulate (h, w) (fun p => bget a p && bget b p))
    | _, _ => Raise ValueError
    end.

Definition bindR {A B} (r : Result A) (k : A -> Result B) : Result B :=
  match r with
  | Ok a => k a
  | Raise e => Raise e
  end.

(** ** Mask Builder: [(arr >= val_range[0]) & (arr <= val_range[1])] *)

Definition mask_builder (arr : grid fval) (val_range : fval * fval)
  : Result (grid bool) :=
  np_and (np_ge arr (fst val_range)) (np_le arr (snd val_range)).

(** Whether the two comparisons hold of the sample of [arr] at [p]. *)
Definition in_range_at (arr : grid fval) (val_range : fval * fval) (p : cell)
  : bool :=
  fge (get NaN arr p) (f32 (fst val_range)) &&
  fle (get NaN arr p) (f32 (snd val_range)).

(** ** Morphological Cleaner *)

(** [disk(radius)]: the [L] by [L] array, [L = 2*radius + 1], that is 1 where
    [(x - radius)**2 + (y - radius)**2 <= radius**2]. *)
Definition disk (radius : Z) : grid bool :=
  let L := Z.to_nat (2 * radius + 1) in
  tabulate (L, L)
    (fun p => (snd p - radius) ^ 2 + (fst p - radius) ^ 2 <=? radius ^ 2).

(** The offsets of a structuring element, from its centre (scipy's default
    origin: the middle cell). *)
Definition offsets (structure : grid bool) : list cell :=
  let cr := Z.of_nat (fst (shape structure)) / 2 in
  let cc := Z.of_nat (snd (shape structure)) / 2 in
  map (fun p => (fst p - cr, snd p - cc))
      (filter (get false structure) (all_cells (shape structure))).

Definition shift (p d : cell) : cell := (fst p + fst d, snd p + snd d).
Definition unshift (p d : cell) : cell := (fst p - fst d, snd p - snd d).

(** scipy.ndimage.binary_erosion with the default [border_value=0]: a cell
    stays 1 when the element, centred there, fits inside the 1-valued cells;
    cells outside the array count as 0. *)
Definition binary_erosion (input structure : grid bool) : grid bool :=
  tabulate (shape input)
    (fun p => forallb (fun d => get false input (shift p d)) (offsets structure)).

(** scipy.ndimage.binary_dilation with the default [border_value=0]: a cell
    becomes 1 when the element centred at some 1-valued cell covers it. *)
Definition binary_dilation (input structure : grid bool) : grid bool :=
  tabulate (shape input)
    (fun p => existsb (fun d => get false input (unshift p d)) (offsets structure)).

Definition binary_opening (input structure : grid bool) : grid bool :=
  binary_dilation (binary_erosion input structure) structure.

Definition binary_closing (input structure : grid bool) : grid bool :=
  binary_erosion (binary_dilation input structure) structure.

Definition binary_morphology (mask : grid bool) (open_radius close_radius : Z)
  : grid bool :=
  let out := mask in
  let out := if 0 <? open_radius then binary_opening out (disk open_radius)
             else out in
  let out := if 0 <? close_radius then binary_closing out (disk close_radius)
             else out in
  out.

(** ** Region Labeler: scipy.ndimage.label *)

(** [generate_binary_structure(2, connectivity)]: the 3 by 3 element holding
    the cells at city-block distance at most [connectivity] from the centre. *)
Definition generate_binary_structure (connectivity : Z) : grid bool :=
  tabulate (3%nat, 3%nat)
    (fun p => Z.abs (fst p - 1) + Z.abs (snd p - 1) <=? connectivity).

(** Two cells are neighbours for a structuring element when their
    difference is one of its offsets. *)
Definition neighbours (structure : grid bool) (p q : cell) : bool :=
  existsb (cell_eqb (unshift q p)) (offsets structure).

Definition mem (p : cell) (l : list cell) : bool := existsb (cell_eqb p) l.

(** The 1-valued cells of a mask, in raster order. *)
Definition ones (input : grid bool) : list cell :=
  filter (get false input) (all_cells (shape input)).

(** One round of flooding: the 1-valued cells that are in [S] or next to
    a cell of [S]. *)
Definition grow (structure input : grid bool) (S : list cell) : list cell :=
  filter (fun q => existsb (fun p => cell_eqb p q || neighbours structure p q) S)
         (ones input).

(** The region of [seed]: flooding until nothing can be added, which takes
    at most as many rounds as there are 1-valued cells. *)
Definition component (structure input : grid bool) (seed : cell) : list cell :=
  Nat.iter (length (ones input)) (grow structure input) [seed].

(** The raster scan: a 1-valued cell that no earlier region holds starts the
    next region. *)
Fixpoint scan (structure input : grid bool) (todo : list cell)
  (comps : list (list cell)) : list (list cell) :=
  match todo with
  | [] => comps
  | p :: rest =>
      if get false input p && negb (existsb (mem p) comps)
      then scan structure input rest (comps ++ [component structure input p])
      else scan structure input rest comps
  end.

Definition regions (structure input : grid bool) : list (list cell) :=
  scan structure input (all_cells (shape input)) [].

(** The label of a cell: the rank (from 1) of the region holding it, 0 when
    there is none. *)
Fixpoint label_of (comps : list (list cell)) (q : cell) : nat :=
  match comps with
  | [] => 0
  | c :: rest =>
      if mem q c then 1
      else match label_of rest q with
           | O => 0
           | S k => S (S k)
           end
  end.

Definition label_with (structure input : grid bool) : grid nat * nat :=
  let comps := regions structure input in
  (tabulate (shape input) (label_of comps), length comps).

(** [ndi.label(mask)]: no structuring element is given, so scipy takes
    [generate_binary_structure(2, 1)], the cross. *)
Definition label (input : grid bool) : grid nat * nat :=
  label_with (generate_binary_structure 1) input.

(** The flood from [seed] after [k] rounds. *)
Definition flood (structure input : grid bool) (seed : cell) (k : nat)
  : list cell :=
  Nat.iter k (grow structure input) [seed].

(** The number of 1-valued cells that a list of cells holds. *)
Definition held (input : grid bool) (S : list cell) : nat :=
  length (filter (fun x => mem x S) (ones input)).

(** ** Region Size Filter *)

(** [labeled == i] *)
Definition np_eq (labeled : grid nat) (i : nat) : grid bool :=
  tabulate (shape labeled) (fun p => Nat.eqb (get 0%nat labeled p) i).

(** [region.sum()]: the number of 1-valued cells. *)
Definition np_sum (region : grid bool) : Z :=
  Z.of_nat (length (ones region)).

(** [np.zeros_like(mask, dtype=np.uint8)] *)
Definition np_zeros_like (mask : grid bool) : grid bool :=
  tabulate (shape mask) (fun _ => false).

(** [clean[region] = 1] *)
Definition assign_where (clean region : grid bool) : grid bool :=
  tabulate (shape clean)
    (fun p => if get false region p then true else get false clean p).

(** Truncation toward zero. *)
Definition truncate (x : Q) : Z := Z.quot (Qnum x) (Z.pos (Qden x)).

(** Python's [int(x)] on a float. *)
Definition py_int (x : fval) : Result Z :=
  match x with
  | Fin q => Ok (truncate q)
  | NaN => Raise ValueError
  | _ => Raise OverflowError
  end.

(** Python's [x * y] and [x / y] on floats: the exact result rounded to a
    double; a zero divisor raises. *)
Definition py_mul (x y : fval) : fval := f64 (fmul x y).

Definition py_div (x y : fval) : Result fval :=
  match y with
  | Fin b => if Qeq_bool b 0 then Raise ZeroDivisionError
             else Ok (f64 (fdiv x y))
  | _ => Ok (f64 (fdiv x y))
  end.

(** The least integer not below [x], for comparison with [py_int]. *)
Definition ceiling (x : Q) : Z := - ((- Qnum x) / Z.pos (Qden x)).

(** The affine transform of a raster, [affine.Affine(a, b, c, d, e, f)];
    the coefficients are Python floats. *)
Module Affine.
Record t : Type := make { a : Q; b : Q; c : Q; d : Q; e : Q; f : Q }.
End Affine.

(** [abs(meta["transform"].a) * abs(meta["transform"].e)] *)
Definition pixel_area_m2 (transform : Affine.t) : fval :=
  py_mul (Fin (Qabs (Affine.a transform))) (Fin (Qabs (Affine.e transform))).

(** [(min_area_ha * 10000) / pixel_area_m2] *)
Definition min_area_quotient (min_area_ha : Q) (transform : Affine.t)
  : Result fval :=
  py_div (py_mul (Fin min_area_ha) (Fin 10000)) (pixel_area_m2 transform).

(** [int((min_area_ha * 10000) / pixel_area_m2)] *)
Definition min_pixels (min_area_ha : Q) (transform : Affine.t) : Result Z :=
  bindR (min_area_quotient min_area_ha transform) py_int.

(** One turn of the loop over the labels. *)
Definition keep_region (labeled : grid nat) (min_px : Z)
  (clean : grid bool) (i : nat) : grid bool :=
  let region := np_eq labeled i in
  if min_px <=? np_sum region then assign_where clean region else clean.

(** The loop [for i in range(1, n + 1)] over the labelled regions. *)
Definition size_filter (mask : grid bool) (min_px : Z) : grid bool :=
  let '(labeled, n) := label mask in
  fold_left (keep_region labeled min_px) (seq 1 n) (np_zeros_like mask).

(** ** The geometry collaborators

    Polygons, coordinate reference systems and their operations belong to
    rasterio, shapely, pyproj and geopandas; the engine only composes
    them. *)
Class GeoLib : Type := {
  Geom : Type;
  CRS : Type;
  (** the polygon that traces, in world coordinates, the boundary of a
      connected group of cells *)
  polygon : Affine.t -> list cell -> Geom;
  (** shapely's [area] of a polygon, holes subtracted *)
  geom_area : Geom -> Q;
  (** pyproj's [CRS(crs).is_geographic] *)
  is_geographic : CRS -> bool;
  (** geopandas' [estimate_utm_crs] of a frame in the given CRS *)
  estimate_utm_crs : CRS -> list Geom -> CRS;
  (** reprojection of one geometry, from a CRS to another *)
  reproject : CRS -> CRS -> Geom -> Geom;
  (** the order in which rasterio yields the shapes of an image: the
      connected groups of cells, each once, rearranged *)
  shapes_order : list (list cell) -> list (list cell);
  shapes_order_perm : forall comps, Permutation (shapes_order comps) comps
}.

(** ** Paths *)

(** [s.endswith(suffix)] *)
Fixpoint endswith (s suffix : string) : bool :=
  String.eqb s suffix ||
  match s with
  | EmptyString => false
  | String _ s' => endswith s' suffix
  end.

(** [os.path.join(a, b)] (POSIX): [b] alone when it is absolute, no
    separator added after an empty [a] or one that ends with a
    separator. *)
Definition os_path_join (a b : string) : string :=
  if String.prefix "/" b then b
  else if String.eqb a "" || endswith a "/" then (a ++ b)%string
  else (a ++ "/" ++ b)%string.

Section Engine.
Context {G : GeoLib}.

Record Meta : Type := { transform : Affine.t; crs : option CRS }.

(** A GeoDataFrame: the geometry column, the [area_ha] column when it has
    been set, and the frame's CRS. *)
Record GeoDataFrame : Type := {
  geometry : list Geom;
  area_ha : option (list Q);
  gdf_crs : option CRS
}.

Definition gdf_empty (gdf : GeoDataFrame) : bool :=
  match geometry gdf with [] => true | _ => false end.

(** [gdf.to_crs(target)]: a new frame, the receiver is left as it is. *)
Definition to_crs (gdf : GeoDataFrame) (source target : CRS) : GeoDataFrame :=
  {| geometry := map (reproject source target) (geometry gdf);
     area_ha := area_ha gdf;
     gdf_crs := Some target |}.

(** rasterio.features.shapes with its default [connectivity=4]: one
    (polygon, value) pair for each edge-connected group of cells selected
    by the mask, in the order rasterio yields them. *)
Definition shapes (image : grid bool) (transform : Affine.t) : list (Geom * Z) :=
  map (fun comp => (polygon transform comp, 1))
      (shapes_order (regions (generate_binary_structure 1) image)).

(** ** Vectorizer *)
Definition raster_to_polygons (mask : grid bool) (meta : Meta) : GeoDataFrame :=
  let geoms := map fst (filter (fun gv => snd gv =? 1) (shapes mask (transform meta))) in
  match geoms with
  | [] => {| geometry := []; area_ha := None; gdf_crs := crs meta |}
  | _ => {| geometry := geoms; area_ha := None; gdf_crs := crs meta |}
  end.

(** ** Area Calculator *)
Definition compute_area_ha (gdf : GeoDataFrame) : Result GeoDataFrame :=
  if gdf_empty gdf
  then Ok {| geometry := geometry gdf; area_ha := Some []; gdf_crs := gdf_crs gdf |}
  else
    match gdf_crs gdf with
    | None => Raise CRSError
    | Some c =>
        let gdf_proj :=
          if is_geographic c
          then to_crs gdf c (estimate_utm_crs c (geometry gdf))
          else gdf in
        Ok {| geometry := geometry gdf;
              area_ha := Some (map (fun g => (geom_area g / inject_Z 10000)%Q)
                                   (geometry gdf_proj));
              gdf_crs := gdf_crs gdf |}
    end.

(** ** Configuration: the [processing] mapping of config.yaml

    The ends of the ranges are Python floats, possibly infinite or NaN; the
    two areas are finite Python floats. *)
Record Proc : Type := {
  ndvi_range : option (fval * fval);
  gndvi_range : option (fval * fval);
  evi2_range : option (fval * fval);
  morph_open_radius : option Z;
  morph_close_radius : option Z;
  min_area_ha : option Q;
  max_area_ha : option Q
}.

(** [mapping[key]] *)
Definition lookup {A} (key : string) (entry : option A) : Result A :=
  match entry with
  | Some v => Ok v
  | None => Raise (KeyError key)
  end.

(** Rows selected by a boolean series. *)
Fixpoint select {A} (keep : list bool) (rows : list A) : list A :=
  match keep, rows with
  | k :: keep', x :: rows' =>
      if k then x :: select keep' rows' else select keep' rows'
  | _, _ => []
  end.

(** [gdf[(gdf["area_ha"] >= lo) & (gdf["area_ha"] <= hi)].copy()] *)
Definition area_filter (gdf : GeoDataFrame) (proc : Proc) : Result GeoDataFrame :=
  bindR (lookup "area_ha" (area_ha gdf)) (fun areas =>
  bindR (lookup "min_area_ha" (min_area_ha proc)) (fun lo =>
  bindR (lookup "max_area_ha" (max_area_ha proc)) (fun hi =>
    let keep := map (fun x => Qle_bool lo x && Qle_bool x hi) areas in
    Ok {| geometry := select keep (geometry gdf);
          area_ha := Some (select keep areas);
          gdf_crs := gdf_crs gdf |}))).

(** The features of a frame: each geometry with its area. *)
Definition features (gdf : GeoDataFrame) : list (Geom * Q) :=
  match area_ha gdf with
  | Some areas => combine (geometry gdf) areas
  | None => []
  end.

(** ** The file system the engine writes to *)

(** A vector dataset written by [to_file]: the path and the driver given
    and the frame written.  The GPKG driver stores the dataset in the one
    file at the path; the ESRI Shapefile driver stores it in the .shp file
    at the path and in companion files beside it. *)
Record Dataset : Type := {
  ds_path : string;
  ds_driver : string;
  ds_frame : GeoDataFrame
}.

(** The directories made and the datasets written, in the order of the
    calls. *)
Record FS : Type := {
  dirs : list string;
  datasets : list Dataset
}.

(** Computations that may raise and that write datasets; what was written
    before an error stays written. *)
Definition M (A : Type) : Type := FS -> Result A * FS.

Definition ret {A} (x : A) : M A := fun s => (Ok x, s).
Definition bind {A B} (m : M A) (k : A -> M B) : M B :=
  fun s => match m s with
           | (Ok x, s') => k x s'
           | (Raise e, s') => (Raise e, s')
           end.
Definition lift {A} (r : Result A) : M A := fun s => (r, s).

Definition makedirs (path : string) : M unit :=
  fun s => (Ok tt, {| dirs := if existsb (String.eqb path) (dirs s)
                              then dirs s else dirs s ++ [path];
                      datasets := datasets s |}).

(** [gdf.to_file(path, driver=driver)] *)
Definition to_file (gdf : GeoDataFrame) (path driver : string) : M unit :=
  fun s => (Ok tt, {| dirs := dirs s;
                      datasets := datasets s ++
                        [{| ds_path := path; ds_driver := driver;
                            ds_frame := gdf |}] |}).

End Engine.

Notation "x <- m ;; k" := (bind m (fun x => k))
  (at level 61, m at next level, right associativity).

Section Pipeline.
Context {G : GeoLib}.

(** ** Layer Processor *)

(** Labelling and the pixel-count filter, as both pipelines run them. *)
Definition region_size_filter (mask : grid bool) (meta : Meta) (proc : Proc)
  : Result (grid bool) :=
  bindR (lookup "min_area_ha" (min_area_ha proc)) (fun lo =>
  bindR (min_pixels lo (transform meta)) (fun min_px =>
    Ok (size_filter mask min_px))).

(** Vectorizer, Area Calculator and the final area-range filter. *)
Definition vectorize_and_filter (clean : grid bool) (meta : Meta) (proc : Proc)
  : Result GeoDataFrame :=
  bindR (compute_area_ha (raster_to_polygons clean meta)) (fun gdf =>
    area_filter gdf proc).

(** [morph_open_radius] and [morph_close_radius] are read, then the cleaner
    runs. *)
Definition clean_mask (mask : grid bool) (proc : Proc) : Result (grid bool) :=
  bindR (lookup "morph_open_radius" (morph_open_radius proc)) (fun ro =>
  bindR (lookup "morph_close_radius" (morph_close_radius proc)) (fun rc =>
    Ok (binary_morphology mask ro rc))).

Definition out_file (stem fmt : string) : string :=
  if String.eqb fmt "GPKG" then (stem ++ ".gpkg")%string
  else (stem ++ ".shp")%string.

Definition out_driver (fmt : string) : string :=
  if String.eqb fmt "GPKG" then "GPKG"%string else "ESRI Shapefile"%string.

Definition process_index_to_vectors (name : string) (arr : grid fval)
  (meta : Meta) (val_range : fval * fval) (proc : Proc)
  (out_dir fmt : string) : M (option (string * GeoDataFrame)) :=
  mask <- lift (mask_builder arr val_range) ;;
  mask <- lift (clean_mask mask proc) ;;
  clean <- lift (region_size_filter mask meta proc) ;;
  gdf <- lift (vectorize_and_filter clean meta proc) ;;
  if gdf_empty gdf then ret None
  else
    _ <- makedirs out_dir ;;
    let out_path := os_path_join out_dir (out_file (name ++ "_polygons") fmt) in
    _ <- to_file gdf out_path (out_driver fmt) ;;
    ret (Some (out_path, gdf)).

(** ** Multi-Layer Combiner *)

(** What [run] reads from config.yaml: the output directory, the vector
    format (upper-cased) and the [processing] mapping. *)
Record Config : Type := {
  output_dir : string;
  vector_format : string;
  processing : Proc
}.

(** [results[name] = res[0]] when the layer produced a result. *)
Definition record_result (results : list (string * string)) (name : string)
  (res : option (string * GeoDataFrame)) : list (string * string) :=
  match res with
  | Some (path, _) => results ++ [(name, path)]
  | None => results
  end.

(** The combined mask: the six comparisons joined by [&], from left to
    right. *)
Definition combined_mask (ndvi gndvi evi2 : grid fval) (proc : Proc)
  : Result (grid bool) :=
  bindR (lookup "ndvi_range" (ndvi_range proc)) (fun r1 =>
  bindR (np_and (np_ge ndvi (fst r1)) (np_le ndvi (snd r1))) (fun m =>
  bindR (lookup "gndvi_range" (gndvi_range proc)) (fun r2 =>
  bindR (np_and m (np_ge gndvi (fst r2))) (fun m =>
  bindR (np_and m (np_le gndvi (snd r2))) (fun m =>
  bindR (lookup "evi2_range" (evi2_range proc)) (fun r3 =>
  bindR (np_and m (np_ge evi2 (fst r3))) (fun m =>
  np_and m (np_le evi2 (snd r3))))))))).

(** [run], from the three rasters that [read_raster] returned.  The
    metadata of the first raster serves all layers; that of the other two
    is dropped. *)
Definition run (cfg : Config) (ndvi_raster gndvi_raster evi2_raster : grid fval * Meta)
  : M (list (string * string)) :=
  let proc := processing cfg in
  let outdir := os_path_join (output_dir cfg) "polygons" in
  let fmt := vector_format cfg in
  let '(ndvi, meta) := ndvi_raster in
  let '(gndvi, _) := gndvi_raster in
  let '(evi2, _) := evi2_raster in
  let results := [] in
  r <- lift (lookup "ndvi_range" (ndvi_range proc)) ;;
  ndvi_res <- process_index_to_vectors "NDVI" ndvi meta r proc outdir fmt ;;
  let results := record_result results "NDVI" ndvi_res in
  r <- lift (lookup "gndvi_range" (gndvi_range proc)) ;;
  gndvi_res <- process_index_to_vectors "GNDVI" gndvi meta r proc outdir fmt ;;
  let results := record_result results "GNDVI" gndvi_res in
  r <- lift (lookup "evi2_range" (evi2_range proc)) ;;
  evi2_res <- process_index_to_vectors "EVI2" evi2 meta r proc outdir fmt ;;
  let results := record_result results "EVI2" evi2_res in
  combined <- lift (combined_mask ndvi gndvi evi2 proc) ;;
  combined <- lift (clean_mask combined proc) ;;
  final_mask <- lift (region_size_filter combined meta proc) ;;
  palm_gdf <- lift (vectorize_and_filter final_mask meta proc) ;;
  if gdf_empty palm_gdf then ret results
  else
    _ <- makedirs outdir ;;
    let palm_path := os_path_join outdir (out_file "Palm_Combined" fmt) in
    _ <- to_file palm_gdf palm_path (out_driver fmt) ;;
    ret (results ++ [("Palm_Combined"%string, palm_path)]).

(** The final Feature Set of the combined pipeline, before it is written. *)
Definition combined_features (ndvi gndvi evi2 : grid fval) (meta : Meta)
  (proc : Proc) : Result GeoDataFrame :=
  bindR (combined_mask ndvi gndvi evi2 proc) (fun combined =>
  bindR (clean_mask combined proc) (fun combined =>
  bindR (region_size_filter combined meta proc) (fun final_mask =>
    vectorize_and_filter final_mask meta proc))).

(** The final Feature Set of one layer, before it is written. *)
Definition layer_features (arr : grid fval) (meta : Meta)
  (val_range : fval * fval) (proc : Proc) : Result GeoDataFrame :=
  bindR (mask_builder arr val_range) (fun mask =>
  bindR (clean_mask mask proc) (fun mask =>
  bindR (region_size_filter mask meta proc) (fun clean =>
    vectorize_and_filter clean meta proc))).

End Pipeline.

(** ** Connectivity, as a relation *)

(** Cells that share an edge. *)
Definition edge_adjacent (p q : cell) : Prop :=
  Z.abs (fst p - fst q) + Z.abs (snd p - snd q) = 1.

(** Cells that share an edge or a corner. *)
Definition corner_adjacent (p q : cell) : Prop :=
  Z.max (Z.abs (fst p - fst q)) (Z.abs (snd p - snd q)) = 1.

(** [q] can be reached from [p] through 1-valued cells, each step between
    adjacent cells. *)
Inductive connected (adj : cell -> cell -> Prop) (input : grid bool)
  : cell -> cell -> Prop :=
| connected_refl p : get false input p = true -> connected adj input p p
| connected_step p q q' :
    connected adj input p q -> get false input q' = true -> adj q q' ->
    connected adj input p q'.

(** The regions found so far are sound: each is the set of cells connected
    to a 1-valued seed that no earlier region holds. *)
Definition good_regions (adj : cell -> cell -> Prop) (input : grid bool)
  (comps : list (list cell)) : Prop :=
  forall i, (i < length comps)%nat ->
    exists s, get false input s = true /\
              (forall q, In q (nth i comps []) <-> connected adj input s q) /\
              (forall j, (j < i)%nat -> ~ In s (nth j comps [])).

(** A grid is a subset of another, cell by cell. *)
Definition grid_le (m m' : grid bool) : Prop :=
  forall p, get false m p = true -> get false m' p = true.

(** The area of one cell, [|a| * |e|], exactly. *)
Definition cell_area (t : Affine.t) : Q :=
  (Qabs (Affine.a t) * Qabs (Affine.e t))%Q.

(** A concrete geometry library for examples: a polygon is the list of
    cells it covers with the transform that places them, its area the
    number of cells times the cell area; a CRS is geographic ([true]) or
    projected ([false]), and reprojecting from degrees to metres scales
    the cell size by 100000; shapes come in the order of the regions. *)
Definition scale_transform (k : Q) (t : Affine.t) : Affine.t :=
  Affine.make (k * Affine.a t) (Affine.b t) (Affine.c t)
              (Affine.d t) (k * Affine.e t) (Affine.f t).

#[export] Instance CellGeo : GeoLib := {|
  Geom := Affine.t * list cell;
  CRS := bool;
  polygon := fun t cs => (t, cs);
  geom_area := fun g =>
    (inject_Z (Z.of_nat (length (snd g))) * cell_area (fst g))%Q;
  is_geographic := fun c => c;
  estimate_utm_crs := fun _ _ => false;
  reproject := fun source target g =>
    if source && negb target
    then (scale_transform (inject_Z 100000) (fst g), snd g)
    else g;
  shapes_order := fun comps => comps;
  shapes_order_perm := fun comps => Permutation_refl comps
|}.

(** ** Example data

    The numbers of the examples are floats: multiples of powers of two,
    or decimals rounded with [double] and [f32]. *)

Definition full3 : grid bool :=
  [[true; true; true]; [true; true; true]; [true; true; true]].

Definition centre3 : grid bool :=
  [[false; false; false]; [false; true; false]; [false; false; false]].

Definition zeros3 : grid bool :=
  [[false; false; false]; [false; false; false]; [false; false; false]].

(** A 5 by 5 mask whose 1-valued cells, the middle 3 by 3 block, are one
    cell away from every edge. *)
Definition block5 : grid bool :=
  [[false; false; false; false; false];
   [false; true; true; true; false];
   [false; true; true; true; false];
   [false; true; true; true; false];
   [false; false; false; false; false]].

(** Two 1-valued pixels that touch at a corner only. *)
Definition diagonal_mask : grid bool := [[true; false]; [false; true]].

(** A north-up raster with 100 m pixels, one hectare each, and one with
    10 m pixels. *)
Definition transform100 : Affine.t := Affine.make 100 0 0 0 (-100) 0.
Definition transform10 : Affine.t := Affine.make 10 0 0 0 (-10) 0.

Definition meta100 : @Meta CellGeo :=
  {| transform := transform100; crs := Some false |}.

(** One row of five 1-valued pixels: a single region of 5 ha. *)
Definition row5 : grid bool := [[true; true; true; true; true]].

Definition proc_of (min_area max_area : Q) : Proc :=
  {| ndvi_range := Some (Fin (1#2), Fin 1);
     gndvi_range := Some (Fin (1#2), Fin 1);
     evi2_range := Some (Fin (1#2), Fin 1);
     morph_open_radius := Some 0;
     morph_close_radius := Some 0;
     min_area_ha := Some min_area;
     max_area_ha := Some max_area |}.

(** What the Layer Processor does with its final Feature Set: nothing when
    it is empty, else the directory is made and the set written. *)
Definition write_result {G : GeoLib} (name : string) (gdf : GeoDataFrame)
  (out_dir fmt : string) : M (option (string * GeoDataFrame)) :=
  if gdf_empty gdf then ret None
  else
    _ <- makedirs out_dir ;;
    let out_path := os_path_join out_dir (out_file (name ++ "_polygons") fmt) in
    _ <- to_file gdf out_path (out_driver fmt) ;;
    ret (Some (out_path, gdf)).

(** The area-range test of the final filter. *)
Definition in_area_range {G : GeoLib} (lo hi : Q) (ga : Geom * Q) : bool :=
  Qle_bool lo (snd ga) && Qle_bool (snd ga) hi.

(** Every feature of the frame has its area within the configured range. *)
Definition within_area_range {G : GeoLib} (proc : Proc) (gdf : GeoDataFrame)
  : Prop :=
  exists lo hi,
    min_area_ha proc = Some lo /\ max_area_ha proc = Some hi /\
    forall ga, In ga (features gdf) -> (lo <= snd ga)%Q /\ (snd ga <= hi)%Q.

(** A computation only adds datasets, and every frame it writes satisfies
    [P]. *)
Definition appends_only {G : GeoLib} {A} (P : GeoDataFrame -> Prop) (m : M A)
  : Prop :=
  forall fs, exists written,
    datasets (snd (m fs)) = datasets fs ++ written /\
    Forall (fun d => P (ds_frame d)) written.

Definition cfg_of (min_area max_area : Q) : Config :=
  {| output_dir := "out"; vector_format := "GPKG";
     processing := proc_of min_area max_area |}.

(** The five-pixel row as a polygon with its area, 5 ha. *)
Definition row5_polygon : @Geom CellGeo :=
  (transform100, [(0, 0); (0, 1); (0, 2); (0, 3); (0, 4)]).

Definition gdf_row5 : @GeoDataFrame CellGeo :=
  {| geometry := [row5_polygon];
     area_ha := Some [(geom_area row5_polygon / inject_Z 10000)%Q];
     gdf_crs := Some false |}.

(** A layer whose five samples are all 0.75. *)
Definition layer_row5 : grid fval :=
  [[Fin (3#4); Fin (3#4); Fin (3#4); Fin (3#4); Fin (3#4)]].

(** Three 2 by 2 layers for the combined mask. *)
Definition layer_a : grid fval :=
  [[Fin (3#4); Fin (1#4)]; [Fin (7#8); Fin (3#4)]].
Definition layer_b : grid fval :=
  [[Fin (3#4); Fin (3#4)]; [Fin (1#8); Fin (3#4)]].
Definition layer_c : grid fval :=
  [[Fin (3#4); Fin (3#4)]; [Fin (7#8); NaN]].

(** A configuration without the GNDVI range. *)
Definition proc_without_gndvi : Proc :=
  {| ndvi_range := Some (Fin (1#2), Fin 1);
     gndvi_range := None;
     evi2_range := Some (Fin (1#2), Fin 1);
     morph_open_radius := Some 0;
     morph_close_radius := Some 0;
     min_area_ha := Some 5%Q;
     max_area_ha := Some 10%Q |}.

Definition cfg_without_gndvi : Config :=
  {| output_dir := "out"; vector_format := "GPKG";
     processing := proc_without_gndvi |}.

(** Metadata of a raster in degrees, misaligned with [meta100]. *)
Definition meta_deg : @Meta CellGeo :=
  {| transform := Affine.make (1#1024) 0 5 0 (-1#1024) 7; crs := Some true |}.



Definition fs_empty : @FS CellGeo := {| dirs := []; datasets := [] |}.

(** The float32 nearest to 0.6, a sample a raster can hold, and two Python
    floats just above the double 0.6; all three become the same float32. *)
Definition sample_06 : fval := f32 (Fin (6#10)).
Definition above_06 : fval := Fin (double (60000003#100000000)).
Definition just_above_06 : fval := Fin (double (60000001#100000000)).

(** The number of cells of the region that the labeler gives to [p]:
    [(labeled == labeled[p]).sum()]. *)
Definition region_size (mask : grid bool) (p : cell) : Z :=
  np_sum (np_eq (fst (label mask)) (get 0%nat (fst (label mask)) p)).

(** The mask a layer is vectorized from: thresholded, cleaned and passed
    through the pixel-count filter. *)
Definition layer_mask {G : GeoLib} (arr : grid fval) (meta : Meta)
  (val_range : fval * fval) (proc : Proc) : Result (grid bool) :=
  bindR (mask_builder arr val_range) (fun mask =>
  bindR (clean_mask mask proc) (fun mask =>
    region_size_filter mask meta proc)).

(** The mask the combined result is vectorized from. *)
Definition combined_final_mask {G : GeoLib} (ndvi gndvi evi2 : grid fval)
  (meta : Meta) (proc : Proc) : Result (grid bool) :=
  bindR (combined_mask ndvi gndvi evi2 proc) (fun combined =>
  bindR (clean_mask combined proc) (fun combined =>
    region_size_filter combined meta proc)).

(** The 1-valued cells of the mask are at least [margin] cells away from
    every edge of the array. *)
Definition inside (margin : Z) (mask : grid bool) : Prop :=
  forall p, get false mask p = true ->
    margin <= fst p < Z.of_nat (fst (shape mask)) - margin /\
    margin <= snd p < Z.of_nat (snd (shape mask)) - margin.

(** A final Feature Set: the features of the vectorized mask, with their
    areas, that the final filter keeps. *)
Definition final_set_of {G : GeoLib} (clean : grid bool) (meta : Meta)
  (proc : Proc) (out : GeoDataFrame) : Prop :=
  exists lo hi gdf,
    min_area_ha proc = Some lo /\ max_area_ha proc = Some hi /\
    compute_area_ha (raster_to_polygons clean meta) = Ok gdf /\
    features out = filter (in_area_range lo hi) (features gdf).


(** The four entries the result mapping of [run] can hold, in the order
    they are set. *)
Definition expected_results (cfg : Config) : list (string * string) :=
  let outdir := os_path_join (output_dir cfg) "polygons" in
  let fmt := vector_format cfg in
  [("NDVI", os_path_join outdir (out_file "NDVI_polygons" fmt));
   ("GNDVI", os_path_join outdir (out_file "GNDVI_polygons" fmt));
   ("EVI2", os_path_join outdir (out_file "EVI2_polygons" fmt));
   ("Palm_Combined", os_path_join outdir (out_file "Palm_Combined" fmt))]%string.

(** ** Vegetation indices: compute_indices.py

    The bands are read as float32 arrays and the arithmetic is numpy's on
    float32: each operation rounds its exact result to float32, and a
    Python number is converted to float32 before it is used. *)

(** [np.clip(x, lo, hi)] on one sample: NaN stays NaN. *)
Definition fclip (lo hi : Q) (x : fval) : fval :=
  match x with
  | NaN => NaN
  | PInf => Fin hi
  | NInf => Fin lo
  | Fin q => if Qle_bool q lo then Fin lo
             else if Qle_bool hi q then Fin hi else Fin q
  end.

(** Elementwise operations on arrays of one shape, and with a scalar. *)
Definition np_zip (f : fval -> fval -> fval) (a b : grid fval) : grid fval :=
  tabulate (shape a) (fun p => f (get NaN a p) (get NaN b p)).

Definition np_map (f : fval -> fval) (a : grid fval) : grid fval :=
  tabulate (shape a) (fun p => f (get NaN a p)).

Definition np_clip (a : grid fval) (lo hi : Q) : grid fval :=
  np_map (fclip lo hi) a.

(** A Python float used with a float32 array. *)
Definition scalar32 (q : Q) : fval := f32 (f64 (Fin q)).

(** The three index arrays that [calculate_indices] saves, from the bands
    B02, B03, B04, B08 of the input raster (all of one shape). *)
Definition ndvi_of (red nir : grid fval) : grid fval :=
  np_clip (np_zip f32_div (np_zip f32_sub nir red) (np_zip f32_add nir red))
          (-1) 1.

Definition gndvi_of (green nir : grid fval) : grid fval :=
  np_clip (np_zip f32_div (np_zip f32_sub nir green) (np_zip f32_add nir green))
          (-1) 1.

Definition evi2_of (red nir : grid fval) : grid fval :=
  np_clip
    (np_zip f32_div
       (np_map (f32_mul (scalar32 (25#10))) (np_zip f32_sub nir red))
       (np_map (fun x => f32_add x (scalar32 1))
               (np_zip f32_add nir (np_map (f32_mul (scalar32 (24#10))) red))))
    (-1) 1.

Definition calculate_indices (blue green red nir : grid fval)
  : grid fval * grid fval * grid fval :=
  (ndvi_of red nir, gndvi_of green nir, evi2_of red nir).

(** Floats that are not positive, and floats that are not negative. *)
Definition nonpositive (x : fval) : Prop :=
  match x with
  | Fin q => (q <= 0)%Q
  | NInf => True
  | _ => False
  end.

Definition nonnegative (x : fval) : Prop :=
  match x with
  | Fin q => (0 <= q)%Q
  | PInf => True
  | _ => False
  end.

(** A sample that an index raster can hold: NaN or a value in [-1, 1]. *)
Definition index_sample (x : fval) : Prop :=
  x = NaN \/ exists q, x = Fin q /\ (-1 <= q)%Q /\ (q <= 1)%Q.

(** Two bands of three pixels: bare ground, a no-data pixel (both 0) and
    vegetation. *)
Definition band_red : grid fval := [[Fin 1000; Fin 0; Fin 500]].
Definition band_nir : grid fval := [[Fin 1000; Fin 0; Fin 3500]].

(** ** Band files: unzip_stack.py

    A string is a list of characters with codes below 256.  Python's
    [upper] and [lower] change the letters a-z and A-Z of an ASCII string
    and nothing else; on other characters they are not modelled, and the
    properties that depend on the names found in a folder are stated for
    ASCII names. *)

Definition is_ascii (c : Ascii.ascii) : bool :=
  (Ascii.nat_of_ascii c <? 128)%nat.

Fixpoint ascii_string (s : string) : bool :=
  match s with
  | EmptyString => true
  | String c s' => is_ascii c && ascii_string s'
  end.

Definition is_lower (c : Ascii.ascii) : bool :=
  (97 <=? Ascii.nat_of_ascii c)%nat && (Ascii.nat_of_ascii c <=? 122)%nat.

Definition is_upper (c : Ascii.ascii) : bool :=
  (65 <=? Ascii.nat_of_ascii c)%nat && (Ascii.nat_of_ascii c <=? 90)%nat.

Definition upper_char (c : Ascii.ascii) : Ascii.ascii :=
  if is_lower c then Ascii.ascii_of_nat (Ascii.nat_of_ascii c - 32) else c.

Definition lower_char (c : Ascii.ascii) : Ascii.ascii :=
  if is_upper c then Ascii.ascii_of_nat (Ascii.nat_of_ascii c + 32) else c.

(** [s.upper()] and [s.lower()], on an ASCII string. *)
Fixpoint str_upper (s : string) : string :=
  match s with
  | EmptyString => EmptyString
  | String c s' => String (upper_char c) (str_upper s')
  end.

Fixpoint str_lower (s : string) : string :=
  match s with
  | EmptyString => EmptyString
  | String c s' => String (lower_char c) (str_lower s')
  end.

(** [b in s] *)
Fixpoint contains (s b : string) : bool :=
  String.prefix b s ||
  match s with
  | EmptyString => false
  | String _ s' => contains s' b
  end.

(** A dictionary from band ids to the path found for them, [None] for a
    band not found yet; the entries are kept in insertion order. *)
Definition band_dict : Type := list (string * option string).

(** [d[k] = v]: the entry of [k] is replaced where it stands, a new key
    goes last. *)
Fixpoint dict_set (d : band_dict) (k : string) (v : option string) : band_dict :=
  match d with
  | [] => [(k, v)]
  | (k', v') :: rest =>
      if String.eqb k' k then (k', v) :: rest
      else (k', v') :: dict_set rest k v
  end.

(** [d[k]]; every band id is a key of the dictionary of [find_bands], so
    the case of a missing key does not arise there. *)
Fixpoint dict_get (d : band_dict) (k : string) : option string :=
  match d with
  | [] => None
  | (k', v') :: rest => if String.eqb k' k then v' else dict_get rest k
  end.

(** [{b: None for b in bands}] *)
Definition dict_init (bands : list string) : band_dict :=
  fold_left (fun d b => dict_set d b None) bands [].

(** The test of the innermost loop for band [b] and file [f] under
    [root], together with the extension test that guards it. *)
Definition band_file (b root f : string) : bool :=
  endswith (str_lower f) ".jp2" &&
  (contains (str_upper f) b &&
   (contains (str_upper root) "R10M" || contains (str_upper f) "10M")).

(** The body of [for b in bands]. *)
Definition visit_band (root f : string) (found : band_dict) (b : string)
  : band_dict :=
  if contains (str_upper f) b &&
     (contains (str_upper root) "R10M" || contains (str_upper f) "10M")
  then match dict_get found b with
       | None => dict_set found b (Some (os_path_join root f))
       | Some _ => found
       end
  else found.

(** The body of [for f in files]. *)
Definition visit_file (bands : list string) (root : string)
  (found : band_dict) (f : string) : band_dict :=
  if negb (endswith (str_lower f) ".jp2") then found
  else fold_left (visit_band root f) bands found.

(** The body of [for root, _, files in os.walk(folder)]. *)
Definition visit_dir (bands : list string) (found : band_dict)
  (entry : string * list string) : band_dict :=
  fold_left (visit_file bands (fst entry)) (snd entry) found.

Inductive FindResult : Type :=
| Found (paths : list (option string))
| FileNotFoundError (folder : string) (missing : list string).

(** [find_bands(folder, bands)], from what [os.walk(folder)] yields: the
    directories in the order visited, each with its file names. *)
Definition find_bands (folder : string) (walk : list (string * list string))
  (bands : list string) : FindResult :=
  let found := fold_left (visit_dir bands) walk (dict_init bands) in
  let missing := map fst (filter (fun kv => match snd kv with
                                            | None => true
                                            | Some _ => false
                                            end) found) in
  match missing with
  | [] => Found (map (dict_get found) bands)
  | _ => FileNotFoundError folder missing
  end.

(** The files of a walk in the order visited, each with its directory. *)
Definition walk_files (walk : list (string * list string))
  : list (string * string) :=
  flat_map (fun entry => map (fun f => (fst entry, f)) (snd entry)) walk.

(** The first file of the walk that serves for band [b]. *)
Definition first_band_file (walk : list (string * list string)) (b : string)
  : option string :=
  option_map (fun rf => os_path_join (fst rf) (snd rf))
             (find (fun rf => band_file b (fst rf) (snd rf)) (walk_files walk)).

(** An unzipped product with the four 10 m bands and a 20 m copy of B02. *)
Definition product_walk : list (string * list string) :=
  [("tmp/S2A.SAFE", ["MTD_MSIL2A.xml"]);
   ("tmp/S2A.SAFE/IMG_DATA/R20m", ["T43_B02_20m.jp2"]);
   ("tmp/S2A.SAFE/IMG_DATA/R10m",
    ["T43_B02_10m.jp2"; "T43_B03_10m.jp2"; "T43_B04_10m.jp2";
     "T43_B08_10m.jp2"; "T43_TCI_10m.jp2"])]%string.

(** The directories and the files of the walk have ASCII names. *)
Definition ascii_walk (walk : list (string * list string)) : bool :=
  forallb (fun rf => ascii_string (fst rf) && ascii_string (snd rf))
          (walk_files walk).

(** A band has no serving file in the walk. *)
Definition band_missing (walk : list (string * list string)) (b : string)
  : bool :=
  match first_band_file walk b with
  | None => true
  | Some _ => false
  end.

(** The string holds a lower-case letter. *)
Fixpoint has_lower (s : string) : bool :=
  match s with
  | EmptyString => false
  | String c s' => is_lower c || has_lower s'
  end.

(** * Properties *)

(** ** Grids: access, construction, enumeration *)

Lemma cell_eqb_eq (p q : cell) : cell_eqb p q = true <-> p = q.
Proof.
  destruct p as [r c], q as [r' c']; unfold cell_eqb; simpl.
  rewrite andb_true_iff, !Z.eqb_eq. split.
  - intros [-> ->]; reflexivity.
  - intros [= -> ->]; split; reflexivity.
Qed.

Lemma cell_eqb_refl (p : cell) : cell_eqb p p = true.
Proof. apply cell_eqb_eq; reflexivity. Qed.

Lemma inb_spec (sh : nat * nat) (p : cell) :
  inb sh p = true <->
  0 <= fst p < Z.of_nat (fst sh) /\ 0 <= snd p < Z.of_nat (snd sh).
Proof.
  unfold inb. rewrite !andb_true_iff, !Z.leb_le, !Z.ltb_lt. lia.
Qed.

Lemma nth_map_seq {A} (f : nat -> A) (d : A) (n i : nat) :
  (i < n)%nat -> nth i (map f (seq 0 n)) d = f i.
Proof.
  intros H. rewrite (nth_indep _ d (f 0%nat)) by (rewrite length_map, length_seq; exact H).
  rewrite map_nth, seq_nth by exact H. reflexivity.
Qed.

Lemma shape_tabulate {A} (sh : nat * nat) (f : cell -> A) :
  shape (tabulate sh f) = (fst sh, if Nat.eqb (fst sh) 0 then 0%nat else snd sh).
Proof.
  unfold shape, tabulate. rewrite length_map, length_seq. f_equal.
  destruct (fst sh) as [|h]; simpl; [reflexivity|].
  rewrite length_map, length_seq. reflexivity.
Qed.

Lemma inb_shape_tabulate {A} (sh : nat * nat) (f : cell -> A) (p : cell) :
  inb (shape (tabulate sh f)) p = inb sh p.
Proof.
  rewrite shape_tabulate. apply eq_true_iff_eq. rewrite !inb_spec. simpl.
  destruct (Nat.eqb_spec (fst sh) 0) as [E|E]; [rewrite E; simpl|]; lia.
Qed.

Lemma shape_tabulate_shape {A B} (g : grid A) (f : cell -> B) :
  shape (tabulate (shape g) f) = shape g.
Proof.
  rewrite shape_tabulate. unfold shape; simpl.
  destruct g; reflexivity.
Qed.

Lemma get_tabulate {A} (d : A) (sh : nat * nat) (f : cell -> A) (p : cell) :
  get d (tabulate sh f) p = if inb sh p then f p else d.
Proof.
  unfold get. rewrite inb_shape_tabulate.
  destruct (inb sh p) eqn:E; [|reflexivity].
  apply inb_spec in E. destruct p as [r c]; simpl in *.
  unfold tabulate.
  rewrite (nth_map_seq _ [] (fst sh) (Z.to_nat r)) by lia.
  rewrite (nth_map_seq _ d (snd sh) (Z.to_nat c)) by lia.
  rewrite !Z2Nat.id by lia. reflexivity.
Qed.

Lemma tabulate_ext {A} (sh : nat * nat) (f g : cell -> A) :
  (forall p, inb sh p = true -> f p = g p) -> tabulate sh f = tabulate sh g.
Proof.
  intros H. unfold tabulate.
  apply map_ext_in; intros r Hr. apply map_ext_in; intros c Hc.
  apply in_seq in Hr, Hc. apply H, inb_spec; simpl; lia.
Qed.

Lemma in_all_cells (sh : nat * nat) (p : cell) :
  In p (all_cells sh) <-> inb sh p = true.
Proof.
  unfold all_cells. rewrite in_flat_map, inb_spec. split.
  - intros (r & Hr & Hp). apply in_map_iff in Hp as (c & <- & Hc).
    apply in_seq in Hr, Hc. simpl. lia.
  - intros [Hr Hc]. exists (Z.to_nat (fst p)). split.
    + apply in_seq. lia.
    + apply in_map_iff. exists (Z.to_nat (snd p)). split.
      * rewrite !Z2Nat.id by lia. destruct p; reflexivity.
      * apply in_seq. lia.
Qed.

Lemma get_true_inb (g : grid bool) (p : cell) :
  get false g p = true -> inb (shape g) p = true.
Proof. unfold get. destruct (inb (shape g) p); [reflexivity|discriminate]. Qed.

Lemma in_ones (input : grid bool) (p : cell) :
  In p (ones input) <-> get false input p = true.
Proof.
  unfold ones. rewrite filter_In, in_all_cells. split.
  - intros [_ H]; exact H.
  - intros H; split; [apply get_true_inb|]; exact H.
Qed.

Lemma mem_In (p : cell) (l : list cell) : mem p l = true <-> In p l.
Proof.
  unfold mem. rewrite existsb_exists. split.
  - intros (x & Hx & E). apply cell_eqb_eq in E. subst; exact Hx.
  - intros H. exists p. split; [exact H|apply cell_eqb_refl].
Qed.

(** ** Float comparisons *)

Lemma fle_spec (x y : fval) : fle x y = true <-> fval_le x y.
Proof.
  split.
  - destruct x, y; simpl; intros H; try discriminate;
      try (constructor; discriminate).
    constructor. apply Qle_bool_iff; exact H.
  - intros H; inversion H; subst; simpl.
    + apply Qle_bool_iff; assumption.
    + destruct y; simpl; congruence.
    + destruct x; simpl; congruence.
Qed.

Lemma fle_trans (x y z : fval) :
  fle x y = true -> fle y z = true -> fle x z = true.
Proof.
  destruct x, y, z; simpl; intros H1 H2; try discriminate; try reflexivity.
  apply Qle_bool_iff. apply Qle_bool_iff in H1, H2.
  eapply Qle_trans; eassumption.
Qed.

Lemma fgt_not_fle (x y : fval) : fgt x y = true -> fle x y = false.
Proof.
  unfold fgt. destruct x, y; simpl; try discriminate; try reflexivity.
  intros H; apply negb_true_iff in H; exact H.
Qed.

(** ** Float rounding *)

(** *** Powers of two *)

Lemma pow2_pos (e : Z) : (0 < 2 ^ e)%Q.
Proof. apply Qpower_0_lt. reflexivity. Qed.

Lemma pow2_add (a b : Z) : (2 ^ (a + b) == 2 ^ a * 2 ^ b)%Q.
Proof. apply Qpower_plus. discriminate. Qed.

Lemma pow2_le (a b : Z) : a <= b -> (2 ^ a <= 2 ^ b)%Q.
Proof. intros H. apply Qpower_le_compat_l; [exact H|discriminate]. Qed.

Lemma pow2_lt_inv (a b : Z) : (2 ^ a < 2 ^ b)%Q -> a < b.
Proof. intros H. apply (Qpower_lt_compat_l_inv 2); [exact H|reflexivity]. Qed.

Lemma pow2_Z (n : Z) : 0 <= n -> (inject_Z (2 ^ n) == 2 ^ n)%Q.
Proof. intros H. apply (Zpower_Qpower 2 n H). Qed.

(** *** Rounding to an integer *)

Lemma round_half_even_spec (x : Q) :
  (round_half_even x = Qfloor x /\
   (x - inject_Z (Qfloor x) <= 1#2)%Q /\
   ((x - inject_Z (Qfloor x) == 1#2)%Q -> Z.even (Qfloor x) = true)) \/
  (round_half_even x = Qfloor x + 1 /\
   (1#2 <= x - inject_Z (Qfloor x))%Q /\
   ((x - inject_Z (Qfloor x) == 1#2)%Q -> Z.even (Qfloor x) = false)).
Proof.
  destruct x as [n d]. unfold round_half_even, Qfloor. cbn [Qnum Qden].
  set (f := n / Z.pos d).
  assert (Hm : n mod Z.pos d = n - Z.pos d * f) by (unfold f; apply Z.mod_eq; lia).
  assert (Hle : forall k : Z, ((n # d) - inject_Z f <= 1#2)%Q <-> 2 * (n - Z.pos d * f) <= Z.pos d).
  { intros _. unfold Qle, Qminus, Qplus, Qopp, inject_Z. cbn [Qnum Qden].
    rewrite Pos.mul_1_r. lia. }
  assert (Hge : ((1#2) <= (n # d) - inject_Z f)%Q <-> Z.pos d <= 2 * (n - Z.pos d * f)).
  { unfold Qle, Qminus, Qplus, Qopp, inject_Z. cbn [Qnum Qden].
    rewrite Pos.mul_1_r. lia. }
  assert (Heq : ((n # d) - inject_Z f == 1#2)%Q <-> 2 * (n - Z.pos d * f) = Z.pos d).
  { unfold Qeq, Qminus, Qplus, Qopp, inject_Z. cbn [Qnum Qden].
    rewrite Pos.mul_1_r. lia. }
  rewrite Hm.
  destruct (Z.compare_spec (2 * (n - Z.pos d * f)) (Z.pos d)) as [E|E|E].
  - destruct (Z.even f) eqn:Ev.
    + left. split; [reflexivity|]. split; [apply (Hle 0); lia|]. intros _. reflexivity.
    + right. split; [reflexivity|]. split; [apply Hge; lia|]. intros _. reflexivity.
  - left. split; [reflexivity|]. split; [apply (Hle 0); lia|].
    intros H. apply Heq in H. lia.
  - right. split; [reflexivity|]. split; [apply Hge; lia|].
    intros H. apply Heq in H. lia.
Qed.

Lemma round_half_even_mono (x y : Q) :
  (x <= y)%Q -> round_half_even x <= round_half_even y.
Proof.
  intros H. pose proof (Qfloor_resp_le x y H) as Hf.
  pose proof (Qfloor_le x) as Hx1. pose proof (Qlt_floor x) as Hx2.
  pose proof (Qfloor_le y) as Hy1. pose proof (Qlt_floor y) as Hy2.
  destruct (round_half_even_spec x) as [(-> & X1 & X2)|(-> & X1 & X2)];
  destruct (round_half_even_spec y) as [(-> & Y1 & Y2)|(-> & Y1 & Y2)];
  try lia.
  destruct (Z.eq_dec (Qfloor x) (Qfloor y)) as [E|E]; [|lia].
  exfalso. rewrite <- E in Y1, Y2.
  assert (Ex : (x - inject_Z (Qfloor x) == 1#2)%Q) by lra.
  assert (Ey : (y - inject_Z (Qfloor x) == 1#2)%Q) by lra.
  rewrite (X2 Ex) in Y2. specialize (Y2 Ey). discriminate.
Qed.

Lemma round_half_even_Z (n : Z) : round_half_even (inject_Z n) = n.
Proof.
  unfold round_half_even, inject_Z. cbn [Qnum Qden].
  rewrite Z.div_1_r, Z.mod_1_r. reflexivity.
Qed.

(** *** The exponent of a positive rational *)

Lemma pow2_succ (e : Z) : (2 ^ (e + 1) == 2 * 2 ^ e)%Q.
Proof. rewrite pow2_add. change (2 ^ 1)%Q with 2%Q. ring. Qed.

Lemma ilog2_spec (q : Q) :
  (0 < q)%Q -> (2 ^ ilog2 q <= q)%Q /\ (q < 2 ^ (ilog2 q + 1))%Q.
Proof.
  intros Hq. destruct q as [n d].
  assert (Hn : 0 < n) by (unfold Qlt in Hq; simpl in Hq; lia).
  unfold ilog2. cbn [Qnum Qden].
  set (a := Z.log2 n). set (b := Z.log2 (Z.pos d)).
  destruct (Z.log2_spec n Hn) as [A1 A2]. fold a in A1, A2.
  destruct (Z.log2_spec (Z.pos d) ltac:(lia)) as [B1 B2]. fold b in B1, B2.
  assert (Ha : 0 <= a) by apply Z.log2_nonneg.
  assert (Hb : 0 <= b) by apply Z.log2_nonneg.
  rewrite Z.pow_succ_r in A2, B2 by assumption.
  set (x := n # d) in *.
  set (qn := inject_Z n). set (qd := inject_Z (Z.pos d)).
  assert (Ex : (x * qd == qn)%Q).
  { unfold x, qn, qd. rewrite (Qmake_Qdiv n d). field.
    unfold Qeq; simpl; lia. }
  assert (Hd : (0 < qd)%Q) by (unfold qd, Qlt; simpl; lia).
  set (A := (2 ^ a)%Q). set (B := (2 ^ b)%Q). set (P := (2 ^ (a - b))%Q).
  assert (HA : (A <= qn)%Q /\ (qn < 2 * A)%Q).
  { unfold A, qn. rewrite <- (pow2_Z a Ha). split.
    - rewrite <- Zle_Qle. exact A1.
    - change 2%Q with (inject_Z 2). rewrite <- inject_Z_mult, <- Zlt_Qlt. exact A2. }
  assert (HB : (B <= qd)%Q /\ (qd < 2 * B)%Q).
  { unfold B, qd. rewrite <- (pow2_Z b Hb). split.
    - rewrite <- Zle_Qle. exact B1.
    - change 2%Q with (inject_Z 2). rewrite <- inject_Z_mult, <- Zlt_Qlt. exact B2. }
  assert (HP : (P * B == A)%Q).
  { unfold P, A, B. rewrite <- pow2_add. replace (a - b + b) with a by lia.
    reflexivity. }
  assert (HP0 : (0 < P)%Q) by apply pow2_pos.
  assert (HB0 : (0 < B)%Q) by apply pow2_pos.
  assert (Up : (x < 2 * P)%Q).
  { apply (Qmult_lt_r _ _ qd Hd). rewrite Ex.
    apply Qlt_le_trans with (2 * A)%Q; [apply HA|].
    rewrite <- HP. rewrite <- !Qmult_assoc.
    apply Qmult_le_l; [reflexivity|].
    apply Qmult_le_l; [exact HP0|]. apply HB. }
  assert (Low : (P < 2 * x)%Q).
  { apply (Qmult_lt_r _ _ qd Hd). rewrite <- Qmult_assoc, Ex.
    apply Qlt_le_trans with (P * (2 * B))%Q.
    - apply Qmult_lt_l; [exact HP0|]. apply HB.
    - rewrite (Qmult_comm 2 B), Qmult_assoc, HP, (Qmult_comm A 2).
      apply Qmult_le_l; [reflexivity|]. apply HA. }
  fold P.
  destruct (Qle_bool P x) eqn:E.
  - apply Qle_bool_iff in E. split; [exact E|].
    rewrite pow2_succ. fold P. exact Up.
  - assert (N : ~ (P <= x)%Q) by (intros H; apply Qle_bool_iff in H; congruence).
    replace (a - b - 1 + 1) with (a - b) by lia. fold P.
    split; [|lra].
    assert (Eh : (2 * 2 ^ (a - b - 1) == P)%Q).
    { rewrite <- pow2_succ. replace (a - b - 1 + 1) with (a - b) by lia. reflexivity. }
    lra.
Qed.

Lemma ilog2_mono (x y : Q) : (0 < x)%Q -> (x <= y)%Q -> ilog2 x <= ilog2 y.
Proof.
  intros Hx Hxy.
  destruct (ilog2_spec x Hx) as [X1 _].
  destruct (ilog2_spec y ltac:(lra)) as [_ Y2].
  assert (H : (2 ^ ilog2 x < 2 ^ (ilog2 y + 1))%Q) by lra.
  apply pow2_lt_inv in H. lia.
Qed.

(** *** Rounding to a format *)

(** A value scaled, rounded to an integer and scaled back stays on its side
    of a power of two that the spacing divides. *)
Lemma scaled_round_le (q : Q) (e b : Z) :
  e <= b -> (q <= 2 ^ b)%Q ->
  (inject_Z (round_half_even (q / 2 ^ e)) * 2 ^ e <= 2 ^ b)%Q.
Proof.
  intros He Hq. pose proof (pow2_pos e) as Hp.
  assert (Eb : (2 ^ b == inject_Z (2 ^ (b - e)) * 2 ^ e)%Q).
  { rewrite pow2_Z by lia. rewrite <- pow2_add. replace (b - e + e) with b by lia.
    reflexivity. }
  rewrite Eb. apply Qmult_le_r; [exact Hp|].
  rewrite <- Zle_Qle. rewrite <- (round_half_even_Z (2 ^ (b - e))).
  apply round_half_even_mono. apply Qle_shift_div_r; [exact Hp|].
  rewrite <- Eb. exact Hq.
Qed.

Lemma scaled_round_ge (q : Q) (e b : Z) :
  e <= b -> (2 ^ b <= q)%Q ->
  (2 ^ b <= inject_Z (round_half_even (q / 2 ^ e)) * 2 ^ e)%Q.
Proof.
  intros He Hq. pose proof (pow2_pos e) as Hp.
  assert (Eb : (2 ^ b == inject_Z (2 ^ (b - e)) * 2 ^ e)%Q).
  { rewrite pow2_Z by lia. rewrite <- pow2_add. replace (b - e + e) with b by lia.
    reflexivity. }
  rewrite Eb at 1. apply Qmult_le_r; [exact Hp|].
  rewrite <- Zle_Qle. rewrite <- (round_half_even_Z (2 ^ (b - e))) at 1.
  apply round_half_even_mono. apply Qle_shift_div_l; [exact Hp|].
  rewrite <- Eb. exact Hq.
Qed.

Lemma scaled_round_le_neg (q : Q) (e b : Z) :
  e <= b -> (q <= - 2 ^ b)%Q ->
  (inject_Z (round_half_even (q / 2 ^ e)) * 2 ^ e <= - 2 ^ b)%Q.
Proof.
  intros He Hq. pose proof (pow2_pos e) as Hp.
  assert (Eb : (- 2 ^ b == inject_Z (- 2 ^ (b - e)) * 2 ^ e)%Q).
  { rewrite inject_Z_opp, pow2_Z by lia.
    setoid_replace (- 2 ^ (b - e) * 2 ^ e)%Q with (- (2 ^ (b - e) * 2 ^ e))%Q by ring.
    rewrite <- pow2_add. replace (b - e + e) with b by lia. reflexivity. }
  rewrite Eb. apply Qmult_le_r; [exact Hp|].
  rewrite <- Zle_Qle. rewrite <- (round_half_even_Z (- 2 ^ (b - e))).
  apply round_half_even_mono. apply Qle_shift_div_r; [exact Hp|].
  rewrite <- Eb. exact Hq.
Qed.

Lemma scaled_round_ge_neg (q : Q) (e b : Z) :
  e <= b -> (- 2 ^ b <= q)%Q ->
  (- 2 ^ b <= inject_Z (round_half_even (q / 2 ^ e)) * 2 ^ e)%Q.
Proof.
  intros He Hq. pose proof (pow2_pos e) as Hp.
  assert (Eb : (- 2 ^ b == inject_Z (- 2 ^ (b - e)) * 2 ^ e)%Q).
  { rewrite inject_Z_opp, pow2_Z by lia.
    setoid_replace (- 2 ^ (b - e) * 2 ^ e)%Q with (- (2 ^ (b - e) * 2 ^ e))%Q by ring.
    rewrite <- pow2_add. replace (b - e + e) with b by lia. reflexivity. }
  rewrite Eb at 1. apply Qmult_le_r; [exact Hp|].
  rewrite <- Zle_Qle. rewrite <- (round_half_even_Z (- 2 ^ (b - e))) at 1.
  apply round_half_even_mono. apply Qle_shift_div_l; [exact Hp|].
  rewrite <- Eb. exact Hq.
Qed.

Lemma scaled_round_sign (q : Q) (e : Z) :
  ((0 <= q)%Q -> (0 <= inject_Z (round_half_even (q / 2 ^ e)) * 2 ^ e)%Q) /\
  ((q <= 0)%Q -> (inject_Z (round_half_even (q / 2 ^ e)) * 2 ^ e <= 0)%Q).
Proof.
  pose proof (pow2_pos e) as Hp. split; intros Hq.
  - apply Qmult_le_0_compat; [|lra].
    rewrite <- (Zle_Qle 0). rewrite <- (round_half_even_Z 0) at 1.
    apply round_half_even_mono. apply Qle_shift_div_l; [exact Hp|].
    change (inject_Z 0) with 0%Q. lra.
  - apply Qle_trans with (0 * 2 ^ e)%Q; [|rewrite Qmult_0_l; apply Qle_refl].
    apply Qmult_le_r; [exact Hp|].
    rewrite <- (Zle_Qle _ 0). rewrite <- (round_half_even_Z 0).
    apply round_half_even_mono. apply Qle_shift_div_r; [exact Hp|].
    change (inject_Z 0) with 0%Q. lra.
Qed.

Section Format.
Variable fmt : format.
Hypothesis prec_pos : 1 <= prec fmt.

Lemma nearest_eq (q : Q) :
  (nearest fmt q ==
   inject_Z (round_half_even (q / 2 ^ spacing fmt q)) * 2 ^ spacing fmt q)%Q.
Proof. unfold nearest. apply Qred_correct. Qed.

Lemma nearest_sign (q : Q) :
  ((0 <= q)%Q -> (0 <= nearest fmt q)%Q) /\
  ((q <= 0)%Q -> (nearest fmt q <= 0)%Q).
Proof. rewrite nearest_eq. apply scaled_round_sign. Qed.

Lemma spacing_le_exponent (q : Q) :
  3 - emax fmt - prec fmt < spacing fmt q ->
  spacing fmt q = ilog2 (Qabs q) + 1 - prec fmt /\ spacing fmt q <= ilog2 (Qabs q).
Proof. unfold spacing. lia. Qed.

Lemma nearest_mono_pos (x y : Q) :
  (0 < x)%Q -> (x <= y)%Q -> (nearest fmt x <= nearest fmt y)%Q.
Proof.
  intros Hx Hxy. assert (Hy : (0 < y)%Q) by lra.
  rewrite !nearest_eq.
  assert (Ax : (Qabs x == x)%Q) by (apply Qabs_pos; lra).
  assert (Ay : (Qabs y == y)%Q) by (apply Qabs_pos; lra).
  assert (Lx : ilog2 (Qabs x) <= ilog2 (Qabs y)).
  { apply ilog2_mono; lra. }
  destruct (ilog2_spec (Qabs x)) as [X1 X2]; [lra|].
  destruct (ilog2_spec (Qabs y)) as [Y1 Y2]; [lra|].
  assert (He : spacing fmt x <= spacing fmt y) by (unfold spacing; lia).
  destruct (Z.eq_dec (spacing fmt x) (spacing fmt y)) as [E|E].
  - rewrite E. apply Qmult_le_r; [apply pow2_pos|].
    rewrite <- Zle_Qle. apply round_half_even_mono.
    apply Qmult_le_r; [apply Qinv_lt_0_compat, pow2_pos|exact Hxy].
  - destruct (spacing_le_exponent y) as [Ey Ly]; [unfold spacing in *; lia|].
    assert (Ll : ilog2 (Qabs x) < ilog2 (Qabs y)) by (unfold spacing in *; lia).
    apply Qle_trans with (2 ^ ilog2 (Qabs y))%Q.
    + apply scaled_round_le; [lia|].
      apply Qle_trans with (2 ^ (ilog2 (Qabs x) + 1))%Q; [lra|].
      apply pow2_le. lia.
    + apply scaled_round_ge; [exact Ly|lra].
Qed.

Lemma nearest_mono_neg (x y : Q) :
  (y < 0)%Q -> (x <= y)%Q -> (nearest fmt x <= nearest fmt y)%Q.
Proof.
  intros Hy Hxy. assert (Hx : (x < 0)%Q) by lra.
  rewrite !nearest_eq.
  assert (Ax : (Qabs x == - x)%Q) by (apply Qabs_neg; lra).
  assert (Ay : (Qabs y == - y)%Q) by (apply Qabs_neg; lra).
  assert (Lx : ilog2 (Qabs y) <= ilog2 (Qabs x)).
  { apply ilog2_mono; lra. }
  destruct (ilog2_spec (Qabs x)) as [X1 X2]; [lra|].
  destruct (ilog2_spec (Qabs y)) as [Y1 Y2]; [lra|].
  assert (He : spacing fmt y <= spacing fmt x) by (unfold spacing; lia).
  destruct (Z.eq_dec (spacing fmt x) (spacing fmt y)) as [E|E].
  - rewrite E. apply Qmult_le_r; [apply pow2_pos|].
    rewrite <- Zle_Qle. apply round_half_even_mono.
    apply Qmult_le_r; [apply Qinv_lt_0_compat, pow2_pos|exact Hxy].
  - destruct (spacing_le_exponent x) as [Ex Lx']; [unfold spacing in *; lia|].
    assert (Ll : ilog2 (Qabs y) < ilog2 (Qabs x)) by (unfold spacing in *; lia).
    apply Qle_trans with (- 2 ^ ilog2 (Qabs x))%Q.
    + apply scaled_round_le_neg; [exact Lx'|lra].
    + apply scaled_round_ge_neg; [lia|].
      assert (H : (2 ^ (ilog2 (Qabs y) + 1) <= 2 ^ ilog2 (Qabs x))%Q)
        by (apply pow2_le; lia).
      lra.
Qed.

Lemma nearest_mono (x y : Q) :
  (x <= y)%Q -> (nearest fmt x <= nearest fmt y)%Q.
Proof.
  intros Hxy.
  destruct (Qlt_le_dec 0 x) as [Hx|Hx]; [apply nearest_mono_pos; assumption|].
  destruct (Qlt_le_dec y 0) as [Hy|Hy]; [apply nearest_mono_neg; assumption|].
  apply Qle_trans with 0%Q.
  - apply nearest_sign; exact Hx.
  - apply nearest_sign; exact Hy.
Qed.

(** Rounding never gives NaN. *)
Lemma round_to_not_nan (q : Q) : round_to fmt q <> NaN.
Proof.
  unfold round_to. destruct (Qeq_bool q 0); [discriminate|].
  destruct (Qle_bool _ _); [destruct (Qle_bool 0 q)|]; discriminate.
Qed.

(** Rounding in terms of the nearest value: zero never overflows. *)
Lemma round_to_nearest (q : Q) :
  round_to fmt q =
  if Qle_bool (2 ^ emax fmt) (Qabs (nearest fmt q))
  then (if Qle_bool 0 q then PInf else NInf)
  else Fin (if Qeq_bool q 0 then 0 else nearest fmt q).
Proof.
  unfold round_to. destruct (Qeq_bool q 0) eqn:E; [|reflexivity].
  apply Qeq_bool_iff in E.
  destruct (Qle_bool (2 ^ emax fmt) (Qabs (nearest fmt q))) eqn:O; [|reflexivity].
  apply Qle_bool_iff in O. pose proof (pow2_pos (emax fmt)) as Hp.
  destruct (nearest_sign q) as [S1 S2].
  assert (Z : (nearest fmt q == 0)%Q)
    by (apply Qle_antisym; [apply S2|apply S1]; lra).
  rewrite Z in O. change (Qabs 0) with 0%Q in O. lra.
Qed.

(** Rounding is monotone. *)
Lemma round_to_mono (x y : Q) :
  (x <= y)%Q -> fle (round_to fmt x) (round_to fmt y) = true.
Proof.
  intros Hxy. pose proof (nearest_mono x y Hxy) as Hn.
  pose proof (pow2_pos (emax fmt)) as Hp.
  destruct (nearest_sign x) as [Sx1 Sx2]. destruct (nearest_sign y) as [Sy1 Sy2].
  assert (Ov : forall q, Qle_bool (2 ^ emax fmt) (Qabs (nearest fmt q)) = true <->
                         (2 ^ emax fmt <= Qabs (nearest fmt q))%Q)
    by (intros q; apply Qle_bool_iff).
  assert (Ab : forall r : Q, ((0 <= r)%Q -> (Qabs r == r)%Q) /\
                             ((r <= 0)%Q -> (Qabs r == - r)%Q)).
  { intros r. split; [apply Qabs_pos|apply Qabs_neg]. }
  rewrite (round_to_nearest x), (round_to_nearest y).
  destruct (Qle_bool (2 ^ emax fmt) (Qabs (nearest fmt x))) eqn:Ox;
  destruct (Qle_bool (2 ^ emax fmt) (Qabs (nearest fmt y))) eqn:Oy.
  - destruct (Qle_bool 0 x) eqn:Px; destruct (Qle_bool 0 y) eqn:Py; try reflexivity.
    apply Qle_bool_iff in Px.
    assert (N : ~ (0 <= y)%Q) by (intros H; apply Qle_bool_iff in H; congruence).
    lra.
  - destruct (Qle_bool 0 x) eqn:Px; [|reflexivity].
    apply Qle_bool_iff in Px. apply Ov in Ox.
    assert (N : ~ (2 ^ emax fmt <= Qabs (nearest fmt y))%Q)
      by (intros H; apply Ov in H; congruence).
    pose proof (proj1 (Ab _) (Sx1 Px)) as A1.
    pose proof (proj1 (Ab _) (Sy1 ltac:(lra))) as A2. lra.
  - destruct (Qle_bool 0 y) eqn:Py; [reflexivity|].
    assert (Ny : ~ (0 <= y)%Q) by (intros H; apply Qle_bool_iff in H; congruence).
    apply Ov in Oy.
    assert (N : ~ (2 ^ emax fmt <= Qabs (nearest fmt x))%Q)
      by (intros H; apply Ov in H; congruence).
    pose proof (proj2 (Ab _) (Sy2 ltac:(lra))) as A1.
    pose proof (proj2 (Ab _) (Sx2 ltac:(lra))) as A2. lra.
  - simpl. apply Qle_bool_iff.
    destruct (Qeq_bool x 0) eqn:Ex; destruct (Qeq_bool y 0) eqn:Ey.
    + lra.
    + apply Qeq_bool_iff in Ex. apply Sy1. lra.
    + apply Qeq_bool_iff in Ey. apply Sx2. lra.
    + exact Hn.
Qed.

End Format.

Lemma f32_not_nan (x : fval) : x <> NaN -> f32 x <> NaN.
Proof.
  destruct x; simpl; try congruence. intros _. apply round_to_not_nan.
Qed.

(** Conversion to float32 keeps the order. *)
Lemma f32_mono (x y : fval) : fle x y = true -> fle (f32 x) (f32 y) = true.
Proof.
  destruct x as [a| | |], y as [b| | |]; simpl; try discriminate;
    try reflexivity.
  - intros H. apply round_to_mono; [simpl; lia|]. apply Qle_bool_iff; exact H.
  - intros _. pose proof (round_to_not_nan binary32 a).
    destruct (round_to binary32 a); simpl; congruence.
  - intros _. pose proof (round_to_not_nan binary32 b).
    destruct (round_to binary32 b); simpl; congruence.
Qed.

Lemma fgt_fle (x y : fval) : fgt x y = true -> fle y x = true.
Proof.
  destruct x as [a| | |], y as [b| | |]; simpl; try discriminate;
    try reflexivity.
  intros H. apply negb_true_iff in H. apply Qle_bool_iff.
  assert (N : ~ (a <= b)%Q) by (intros L; apply Qle_bool_iff in L; congruence).
  lra.
Qed.

(** ** Mask Builder *)

Lemma shape_eqb_refl (s : nat * nat) : shape_eqb s s = true.
Proof. unfold shape_eqb. rewrite !Nat.eqb_refl. reflexivity. Qed.

Lemma np_and_same_shape (a b : grid bool) :
  shape b = shape a ->
  np_and a b = Ok (tabulate (shape a) (fun p => get false a p && get false b p)).
Proof. intros E. unfold np_and. rewrite E, shape_eqb_refl. reflexivity. Qed.

Lemma shape_np_ge (arr : grid fval) (x : fval) : shape (np_ge arr x) = shape arr.
Proof. apply shape_tabulate_shape. Qed.

Lemma shape_np_le (arr : grid fval) (x : fval) : shape (np_le arr x) = shape arr.
Proof. apply shape_tabulate_shape. Qed.

Lemma get_false_tabulate (sh : nat * nat) (f : cell -> bool) (p : cell) :
  get false (tabulate sh f) p = inb sh p && f p.
Proof. rewrite get_tabulate. destruct (inb sh p); reflexivity. Qed.

Lemma mask_builder_ok (arr : grid fval) (val_range : fval * fval) :
  mask_builder arr val_range =
  Ok (tabulate (shape arr) (in_range_at arr val_range)).
Proof.
  unfold mask_builder.
  rewrite np_and_same_shape by (rewrite shape_np_ge, shape_np_le; reflexivity).
  rewrite shape_np_ge. f_equal. apply tabulate_ext; intros p Hp.
  unfold np_ge, np_le, in_range_at. rewrite !get_tabulate, Hp. reflexivity.
Qed.

(** The mask of an inverted range has no 1-valued cell. *)
Lemma inverted_range_cell (lo hi v : fval) :
  fgt lo hi = true -> fge v lo && fle v hi = false.
Proof.
  intros H. apply fgt_not_fle in H.
  destruct (fge v lo) eqn:E1; [|reflexivity].
  destruct (fle v hi) eqn:E2; [|reflexivity].
  unfold fge in E1. rewrite (fle_trans _ _ _ E1 E2) in H. discriminate.
Qed.

(** The cells of the mask, in terms of the order on floats. *)
Lemma mask_builder_cells (arr : grid fval) (lo hi : fval) (p : cell) :
  get false (tabulate (shape arr) (in_range_at arr (lo, hi))) p = true <->
  inb (shape arr) p = true /\
  fval_le (f32 lo) (get NaN arr p) /\ fval_le (get NaN arr p) (f32 hi).
Proof.
  rewrite get_false_tabulate, andb_true_iff. unfold in_range_at.
  cbn [fst snd]. rewrite andb_true_iff. unfold fge. rewrite !fle_spec.
  reflexivity.
Qed.

(** C4 (as the code has it): for every raster layer and range [lo, hi] the
    Mask Builder returns a mask of the layer's shape whose cell is 1
    exactly when lo32 <= value <= hi32, both ends included, where lo32 and
    hi32 are the ends of the range converted to float32, the type of the
    samples; for a range whose ends are float32 values that is
    lo <= value <= hi, and for every range a float32 sample with
    lo <= value <= hi gives 1.  A NaN sample gives 0 whatever the range,
    and an infinite sample gives 0 for every range whose converted ends
    are finite. *)
Theorem mask_builder_inclusive_range (arr : grid fval) (lo hi : fval) :
  exists mask,
    mask_builder arr (lo, hi) = Ok mask /\
    shape mask = shape arr /\
    (forall p, get false mask p = true <->
               inb (shape arr) p = true /\
               fval_le (f32 lo) (get NaN arr p) /\
               fval_le (get NaN arr p) (f32 hi)) /\
    (f32 lo = lo -> f32 hi = hi ->
     forall p, get false mask p = true <->
               inb (shape arr) p = true /\
               fval_le lo (get NaN arr p) /\ fval_le (get NaN arr p) hi) /\
    (forall p, inb (shape arr) p = true ->
               feq (f32 (get NaN arr p)) (get NaN arr p) = true ->
               fval_le lo (get NaN arr p) -> fval_le (get NaN arr p) hi ->
               get false mask p = true) /\
    (forall p, get NaN arr p = NaN -> get false mask p = false) /\
    (is_finite (f32 lo) = true -> is_finite (f32 hi) = true ->
     forall p, is_finite (get NaN arr p) = false -> get false mask p = false).
Proof.
  eexists. split; [apply mask_builder_ok|].
  split; [apply shape_tabulate_shape|].
  split; [apply mask_builder_cells|].
  split; [|split; [|split]].
  - intros Elo Ehi p. rewrite mask_builder_cells, Elo, Ehi. reflexivity.
  - intros p Hin Hv Hlo Hhi. apply mask_builder_cells.
    split; [exact Hin|]. unfold feq in Hv. apply andb_true_iff in Hv as [V1 V2].
    apply fle_spec in Hlo, Hhi. apply f32_mono in Hlo, Hhi.
    split; apply fle_spec; eapply fle_trans; eassumption.
  - intros p E. rewrite get_false_tabulate. unfold in_range_at. rewrite E.
    cbn [fst snd]. unfold fge. destruct (f32 lo), (f32 hi); simpl;
      rewrite ?andb_false_r; reflexivity.
  - intros Hlo Hhi p E. rewrite get_false_tabulate. unfold in_range_at.
    cbn [fst snd]. unfold fge.
    destruct (f32 lo), (f32 hi); try discriminate.
    destruct (get NaN arr p); try discriminate; simpl;
      rewrite ?andb_false_r; reflexivity.
Qed.

(** A layer with the two ends of the range 0.5 to 1, the float32 values next
    below and next above them, and the three non-finite values: exactly the
    two ends are kept. *)
Lemma mask_builder_inclusive_range_witness :
  exists mask,
    mask_builder [[Fin (1#2); Fin 1; Fin (16777215#33554432);
                   Fin (8388609#8388608)];
                  [PInf; NInf; NaN; Fin (3#4)]] (Fin (1#2), Fin 1) = Ok mask /\
    mask = [[true; true; false; false]; [false; false; false; true]] /\
    get false mask (1, 0) = false.
Proof.
  destruct (mask_builder_inclusive_range
              [[Fin (1#2); Fin 1; Fin (16777215#33554432);
                Fin (8388609#8388608)];
               [PInf; NInf; NaN; Fin (3#4)]] (Fin (1#2)) (Fin 1))
    as (mask & E & _ & _ & _ & _ & _ & Hinf).
  exists mask. split; [exact E|]. split.
  - vm_compute in E. injection E as <-. reflexivity.
  - apply Hinf; reflexivity.
Defined.

(** The range from the Python float 0.60000003 to 1 on a raster holding the
    float32 nearest to 0.6: the sample is below the lower end of the range,
    which as a float32 is that same value, and the cell is 1. *)
Lemma mask_builder_rounds_range :
  mask_builder [[sample_06]] (above_06, Fin 1) = Ok [[true]] /\
  fle above_06 sample_06 = false /\
  f32 above_06 = sample_06.
Proof. vm_compute. repeat split; reflexivity. Qed.

(** ** Multi-Layer Combiner: the combined mask *)

Lemma tabulate_reshape {A B} (sh : nat * nat) (f : cell -> A) (g : cell -> B) :
  tabulate (shape (tabulate sh f)) g = tabulate sh g.
Proof.
  rewrite shape_tabulate. destruct sh as [h w]; simpl.
  destruct h; reflexivity.
Qed.

Lemma np_and_tabulate (sh : nat * nat) (f : cell -> bool) (b : grid bool) :
  shape b = shape (tabulate sh f) ->
  np_and (tabulate sh f) b = Ok (tabulate sh (fun p => f p && get false b p)).
Proof.
  intros E. rewrite np_and_same_shape by exact E. f_equal.
  rewrite tabulate_reshape. apply tabulate_ext; intros p Hp.
  rewrite get_false_tabulate, Hp. reflexivity.
Qed.

Lemma shape_tabulate_eq {A B} (g : grid A) (sh : nat * nat) (f : cell -> B) :
  sh = shape g -> shape (tabulate sh f) = shape g.
Proof. intros ->. apply shape_tabulate_shape. Qed.

Lemma combined_mask_tabulate (ndvi gndvi evi2 : grid fval) (proc : Proc)
  (r1 r2 r3 : fval * fval) :
  shape gndvi = shape ndvi -> shape evi2 = shape ndvi ->
  ndvi_range proc = Some r1 -> gndvi_range proc = Some r2 ->
  evi2_range proc = Some r3 ->
  combined_mask ndvi gndvi evi2 proc =
  Ok (tabulate (shape ndvi)
        (fun p => in_range_at ndvi r1 p && in_range_at gndvi r2 p &&
                  in_range_at evi2 r3 p)).
Proof.
  intros E2 E3 H1 H2 H3.
  set (S := shape ndvi) in *.
  assert (Hsh : forall g, shape (tabulate S g : grid bool) = S)
    by (intros g; apply shape_tabulate_eq; reflexivity).
  unfold combined_mask. rewrite H1, H2, H3. simpl.
  unfold np_ge at 1. fold S.
  rewrite np_and_tabulate by (rewrite Hsh; apply shape_np_le). simpl.
  rewrite np_and_tabulate by (rewrite Hsh, shape_np_ge; exact E2). simpl.
  rewrite np_and_tabulate by (rewrite Hsh, shape_np_le; exact E2). simpl.
  rewrite np_and_tabulate by (rewrite Hsh, shape_np_ge; exact E3). simpl.
  rewrite np_and_tabulate by (rewrite Hsh, shape_np_le; exact E3).
  f_equal. apply tabulate_ext; intros p Hp.
  unfold np_ge, np_le, in_range_at. rewrite E2, E3. fold S.
  rewrite !get_false_tabulate, Hp. simpl.
  rewrite <- !andb_assoc. reflexivity.
Qed.

(** C5: for layers that share a shape, the combined mask built before
    morphology is the elementwise AND of the three masks the Mask Builder
    gives for the layers: a cell is 1 only where all three ranges hold. *)
Theorem combined_mask_is_and (ndvi gndvi evi2 : grid fval) (proc : Proc)
  (r1 r2 r3 : fval * fval) :
  shape gndvi = shape ndvi -> shape evi2 = shape ndvi ->
  ndvi_range proc = Some r1 -> gndvi_range proc = Some r2 ->
  evi2_range proc = Some r3 ->
  exists A B C combined,
    mask_builder ndvi r1 = Ok A /\ mask_builder gndvi r2 = Ok B /\
    mask_builder evi2 r3 = Ok C /\
    combined_mask ndvi gndvi evi2 proc = Ok combined /\
    bindR (np_and A B) (fun ab => np_and ab C) = Ok combined /\
    shape combined = shape ndvi /\
    forall p, get false combined p =
              get false A p && get false B p && get false C p.
Proof.
  intros E2 E3 H1 H2 H3.
  exists (tabulate (shape ndvi) (in_range_at ndvi r1)),
         (tabulate (shape ndvi) (in_range_at gndvi r2)),
         (tabulate (shape ndvi) (in_range_at evi2 r3)),
         (tabulate (shape ndvi)
            (fun p => in_range_at ndvi r1 p && in_range_at gndvi r2 p &&
                      in_range_at evi2 r3 p)).
  assert (Hsh : forall g, shape (tabulate (shape ndvi) g : grid bool) = shape ndvi)
    by (intros g; apply shape_tabulate_shape).
  split; [rewrite mask_builder_ok; reflexivity|].
  split; [rewrite mask_builder_ok, E2; reflexivity|].
  split; [rewrite mask_builder_ok, E3; reflexivity|].
  split; [apply combined_mask_tabulate; assumption|].
  split; [|split].
  - rewrite np_and_tabulate by (rewrite !Hsh; reflexivity). simpl.
    rewrite np_and_tabulate by (rewrite !Hsh; reflexivity).
    f_equal. apply tabulate_ext; intros p Hp.
    rewrite !get_false_tabulate, Hp. reflexivity.
  - apply Hsh.
  - intros p. rewrite !get_false_tabulate.
    destruct (inb (shape ndvi) p); simpl; reflexivity.
Qed.

(** ** Morphological Cleaner *)

Section Morphology.
Variable structure : grid bool.

Lemma shape_erosion (X : grid bool) :
  shape (binary_erosion X structure) = shape X.
Proof. apply shape_tabulate_shape. Qed.

Lemma shape_dilation (X : grid bool) :
  shape (binary_dilation X structure) = shape X.
Proof. apply shape_tabulate_shape. Qed.

Lemma shape_opening (X : grid bool) :
  shape (binary_opening X structure) = shape X.
Proof. unfold binary_opening. rewrite shape_dilation. apply shape_erosion. Qed.

Lemma shape_closing (X : grid bool) :
  shape (binary_closing X structure) = shape X.
Proof. unfold binary_closing. rewrite shape_erosion. apply shape_dilation. Qed.

Lemma erosion_spec (X : grid bool) (p : cell) :
  get false (binary_erosion X structure) p = true <->
  inb (shape X) p = true /\
  forall d, In d (offsets structure) -> get false X (shift p d) = true.
Proof.
  unfold binary_erosion. rewrite get_false_tabulate, andb_true_iff, forallb_forall.
  reflexivity.
Qed.

Lemma dilation_spec (X : grid bool) (p : cell) :
  get false (binary_dilation X structure) p = true <->
  inb (shape X) p = true /\
  exists d, In d (offsets structure) /\ get false X (unshift p d) = true.
Proof.
  unfold binary_dilation. rewrite get_false_tabulate, andb_true_iff, existsb_exists.
  reflexivity.
Qed.

Lemma shift_unshift (p d : cell) : shift (unshift p d) d = p.
Proof. destruct p, d; unfold shift, unshift; simpl; f_equal; lia. Qed.

Lemma unshift_shift (p d : cell) : unshift (shift p d) d = p.
Proof. destruct p, d; unfold shift, unshift; simpl; f_equal; lia. Qed.

Lemma erosion_mono (X Y : grid bool) :
  shape X = shape Y -> grid_le X Y ->
  grid_le (binary_erosion X structure) (binary_erosion Y structure).
Proof.
  intros E H p. rewrite !erosion_spec, E. intros [Hp Hd]. split; [exact Hp|].
  intros d Hin. apply H, Hd, Hin.
Qed.

Lemma dilation_mono (X Y : grid bool) :
  shape X = shape Y -> grid_le X Y ->
  grid_le (binary_dilation X structure) (binary_dilation Y structure).
Proof.
  intros E H p. rewrite !dilation_spec, E. intros (Hp & d & Hin & Hd).
  split; [exact Hp|]. exists d. split; [exact Hin|]. apply H, Hd.
Qed.

Lemma closing_mono (X Y : grid bool) :
  shape X = shape Y -> grid_le X Y ->
  grid_le (binary_closing X structure) (binary_closing Y structure).
Proof.
  intros E H. apply erosion_mono.
  - rewrite !shape_dilation. exact E.
  - apply dilation_mono; assumption.
Qed.

(** Opening only removes cells. *)
Lemma opening_le (X : grid bool) : grid_le (binary_opening X structure) X.
Proof.
  intros p. unfold binary_opening. rewrite dilation_spec.
  intros (_ & d & Hin & Hd). apply erosion_spec in Hd as [_ Hd].
  specialize (Hd d Hin). rewrite shift_unshift in Hd. exact Hd.
Qed.

(** What an opening keeps, a second opening keeps. *)
Lemma opening_le_twice (X : grid bool) :
  grid_le (binary_opening X structure)
          (binary_opening (binary_opening X structure) structure).
Proof.
  intros p Hp. pose proof Hp as Hp0.
  unfold binary_opening in Hp. apply dilation_spec in Hp as (Hin & d & Hd & He).
  rewrite shape_erosion in Hin.
  unfold binary_opening at 1. apply dilation_spec.
  rewrite shape_erosion, shape_opening. split; [exact Hin|].
  exists d. split; [exact Hd|].
  apply erosion_spec. rewrite shape_opening.
  pose proof He as He0. apply erosion_spec in He as [Hq Hall].
  split; [exact Hq|]. intros e Hine.
  unfold binary_opening. apply dilation_spec. rewrite shape_erosion. split.
  - apply get_true_inb, Hall, Hine.
  - exists e. split; [exact Hine|]. rewrite unshift_shift. exact He0.
Qed.

Lemma grid_eq_tabulate (sh : nat * nat) (f g : cell -> bool) (Y Z : grid bool) :
  Y = tabulate sh f -> Z = tabulate sh g ->
  (forall p, get false Y p = true <-> get false Z p = true) ->
  Y = Z.
Proof.
  intros -> -> H. apply tabulate_ext; intros p Hp.
  specialize (H p). rewrite !get_false_tabulate, Hp in H. simpl in H.
  apply eq_true_iff_eq. exact H.
Qed.

Lemma opening_idempotent (X : grid bool) :
  binary_opening (binary_opening X structure) structure =
  binary_opening X structure.
Proof.
  assert (H : forall p,
             get false (binary_opening (binary_opening X structure) structure) p = true <->
             get false (binary_opening X structure) p = true).
  { intros p. split.
    - apply opening_le.
    - apply opening_le_twice. }
  eapply grid_eq_tabulate with (sh := shape X); [| |exact H].
  - unfold binary_opening at 1. unfold binary_dilation.
    rewrite shape_erosion, shape_opening. reflexivity.
  - unfold binary_opening, binary_dilation. rewrite shape_erosion. reflexivity.
Qed.

Lemma closing_idempotent (X : grid bool) :
  binary_closing (binary_closing X structure) structure =
  binary_closing X structure.
Proof.
  assert (H : forall p,
             get false (binary_closing (binary_closing X structure) structure) p = true <->
             get false (binary_closing X structure) p = true).
  { intros p. split.
    - intros Hp. pose proof (get_true_inb _ _ Hp) as Hin.
      rewrite !shape_closing in Hin.
      unfold binary_closing at 1 in Hp. apply erosion_spec in Hp as [_ Hp].
      unfold binary_closing. apply erosion_spec. rewrite shape_dilation.
      split; [exact Hin|]. intros d Hd.
      specialize (Hp d Hd). apply dilation_spec in Hp as (_ & e & He & Hp).
      unfold binary_closing in Hp. apply erosion_spec in Hp as [_ Hp].
      specialize (Hp e He). rewrite shift_unshift in Hp. exact Hp.
    - intros Hp. pose proof (get_true_inb _ _ Hp) as Hin.
      rewrite shape_closing in Hin.
      pose proof Hp as Hp0.
      unfold binary_closing in Hp. apply erosion_spec in Hp as [_ Hp].
      unfold binary_closing at 1. apply erosion_spec.
      rewrite shape_dilation, shape_closing. split; [exact Hin|].
      intros d Hd. apply dilation_spec. rewrite shape_closing. split.
      + pose proof (get_true_inb _ _ (Hp d Hd)) as Hq.
        rewrite shape_dilation in Hq. exact Hq.
      + exists d. split; [exact Hd|]. rewrite unshift_shift. exact Hp0. }
  eapply grid_eq_tabulate with (sh := shape X); [| |exact H].
  - unfold binary_closing at 1. unfold binary_erosion.
    rewrite shape_dilation, shape_closing. reflexivity.
  - unfold binary_closing, binary_erosion. rewrite shape_dilation. reflexivity.
Qed.

End Morphology.

Lemma shape_disk (radius : Z) :
  0 <= radius ->
  shape (disk radius) = (Z.to_nat (2 * radius + 1), Z.to_nat (2 * radius + 1)).
Proof.
  intros Hr. unfold disk. rewrite shape_tabulate. cbn [fst snd].
  destruct (Nat.eqb_spec (Z.to_nat (2 * radius + 1)) 0); [lia|reflexivity].
Qed.

Lemma disk_offsets_spec (radius : Z) (d : cell) :
  0 <= radius ->
  In d (offsets (disk radius)) <->
  fst d * fst d + snd d * snd d <= radius * radius.
Proof.
  intros Hr. unfold offsets. rewrite (shape_disk radius Hr). cbn [fst snd].
  rewrite Z2Nat.id by lia.
  replace ((2 * radius + 1) / 2) with radius
    by (apply Z.div_unique with 1; lia).
  rewrite in_map_iff. split.
  - intros (p & <- & Hp). apply filter_In in Hp as [_ Hp].
    unfold disk in Hp. rewrite get_false_tabulate in Hp.
    apply andb_true_iff in Hp as [_ Hp]. apply Z.leb_le in Hp.
    cbn [fst snd]. rewrite !Z.pow_2_r in Hp. lia.
  - intros H. exists (fst d + radius, snd d + radius). cbn [fst snd]. split.
    + destruct d; cbn [fst snd]; f_equal; lia.
    + assert (Hb : - radius <= fst d <= radius /\ - radius <= snd d <= radius)
        by nia.
      apply filter_In. split.
      * apply in_all_cells, inb_spec. cbn [fst snd]. lia.
      * unfold disk. rewrite get_false_tabulate. apply andb_true_iff. split.
        -- apply inb_spec. cbn [fst snd]. lia.
        -- cbn [fst snd]. apply Z.leb_le. rewrite !Z.pow_2_r.
           replace (snd d + radius - radius) with (snd d) by lia.
           replace (fst d + radius - radius) with (fst d) by lia. lia.
Qed.

Lemma opening_mono (structure X Y : grid bool) :
  shape X = shape Y -> grid_le X Y ->
  grid_le (binary_opening X structure) (binary_opening Y structure).
Proof.
  intros E H. apply dilation_mono.
  - rewrite !shape_erosion. exact E.
  - apply erosion_mono; assumption.
Qed.

(** A closing only adds cells to a mask whose 1-valued cells are at least
    [radius] cells away from every edge: there the border of zeros that
    the erosion sees is out of reach. *)
Lemma closing_extensive_inside (X : grid bool) (radius : Z) :
  0 < radius -> inside radius X ->
  grid_le X (binary_closing X (disk radius)).
Proof.
  intros Hr Hin p Hp. destruct (Hin p Hp) as [H1 H2].
  unfold binary_closing. apply erosion_spec. rewrite shape_dilation.
  split; [apply get_true_inb; exact Hp|].
  intros d Hd. apply dilation_spec. split.
  - apply disk_offsets_spec in Hd; [|lia].
    apply inb_spec. unfold shift. cbn [fst snd].
    assert (Hb : - radius <= fst d <= radius /\ - radius <= snd d <= radius)
      by nia.
    lia.
  - exists d. split; [exact Hd|]. rewrite unshift_shift. exact Hp.
Qed.

(** Opening then closing, twice, on a mask whose 1-valued cells keep that
    distance from the edges. *)
Lemma opening_closing_idempotent_inside (X : grid bool) (ro rc : Z) :
  0 < rc -> inside rc X ->
  binary_closing
    (binary_opening (binary_closing (binary_opening X (disk ro)) (disk rc))
                    (disk ro)) (disk rc) =
  binary_closing (binary_opening X (disk ro)) (disk rc).
Proof.
  intros Hc Hin.
  set (O := binary_opening X (disk ro)).
  set (Y := binary_closing O (disk rc)).
  assert (HO : shape O = shape X) by apply shape_opening.
  assert (HY : shape Y = shape X)
    by (unfold Y; rewrite shape_closing; exact HO).
  assert (Hle : grid_le (binary_closing (binary_opening Y (disk ro)) (disk rc)) Y).
  { assert (H : grid_le (binary_closing (binary_opening Y (disk ro)) (disk rc))
                        (binary_closing Y (disk rc)))
      by (apply closing_mono; [apply shape_opening|apply opening_le]).
    unfold Y at 2 in H. rewrite closing_idempotent in H. exact H. }
  assert (Hge : grid_le Y (binary_closing (binary_opening Y (disk ro)) (disk rc))).
  { apply closing_mono; [rewrite shape_opening, HY, HO; reflexivity|].
    assert (HOin : inside rc O).
    { intros p Hp. rewrite HO. apply Hin. apply (opening_le _ _ _ Hp). }
    assert (H : grid_le (binary_opening O (disk ro)) (binary_opening Y (disk ro))).
    { apply opening_mono; [rewrite HY, HO; reflexivity|].
      apply closing_extensive_inside; assumption. }
    unfold O at 1 in H. rewrite opening_idempotent in H. exact H. }
  eapply grid_eq_tabulate with (sh := shape X).
  - unfold binary_closing at 1. unfold binary_erosion.
    rewrite shape_dilation, shape_opening, HY. reflexivity.
  - unfold Y, binary_closing, binary_erosion. rewrite shape_dilation, HO.
    reflexivity.
  - intros p. split; [apply Hle|apply Hge].
Qed.

(** C8 (as the code has it): cleaning a cleaned mask never adds a cell, and
    gives the cleaned mask back whenever at most one of the two steps runs
    (a radius of 0 or less skips its step) and, for every pair of radii,
    whenever the 1-valued cells of the mask are at least close_radius
    cells away from every edge of the array; the cleaner keeps the shape
    and with both radii 0 it is the identity. *)
Theorem binary_morphology_twice (mask : grid bool) (open_radius close_radius : Z) :
  grid_le (binary_morphology (binary_morphology mask open_radius close_radius)
                             open_radius close_radius)
          (binary_morphology mask open_radius close_radius) /\
  (open_radius <= 0 \/ close_radius <= 0 ->
   binary_morphology (binary_morphology mask open_radius close_radius)
                     open_radius close_radius =
   binary_morphology mask open_radius close_radius) /\
  (inside close_radius mask ->
   binary_morphology (binary_morphology mask open_radius close_radius)
                     open_radius close_radius =
   binary_morphology mask open_radius close_radius) /\
  shape (binary_morphology mask open_radius close_radius) = shape mask /\
  binary_morphology mask 0 0 = mask.
Proof.
  unfold binary_morphology.
  destruct (Z.ltb_spec 0 open_radius) as [Ho|Ho];
    destruct (Z.ltb_spec 0 close_radius) as [Hc|Hc]; simpl.
  - split; [|split; [lia|split; [|split; [|reflexivity]]]].
    + set (Y := binary_closing (binary_opening mask (disk open_radius))
                               (disk close_radius)).
      assert (H : grid_le (binary_closing (binary_opening Y (disk open_radius))
                                          (disk close_radius))
                          (binary_closing Y (disk close_radius))).
      { apply closing_mono; [apply shape_opening|apply opening_le]. }
      unfold Y at 2 in H. rewrite closing_idempotent in H. exact H.
    + intros Hin. apply opening_closing_idempotent_inside; assumption.
    + rewrite shape_closing. apply shape_opening.
  - rewrite opening_idempotent.
    split; [intros p Hp; exact Hp|].
    split; [reflexivity|]. split; [reflexivity|].
    split; [apply shape_opening|reflexivity].
  - rewrite closing_idempotent.
    split; [intros p Hp; exact Hp|].
    split; [reflexivity|]. split; [reflexivity|].
    split; [apply shape_closing|reflexivity].
  - split; [intros p Hp; exact Hp|]. repeat split; reflexivity.
Qed.

(** With only the closing step, a second pass changes nothing; nor does it
    with both steps of radius 1 on the 5 by 5 mask whose 1-valued cells
    are one cell away from the edges. *)
Lemma binary_morphology_twice_witness :
  binary_morphology (binary_morphology full3 0 1) 0 1 = binary_morphology full3 0 1 /\
  binary_morphology full3 0 1 = centre3 /\
  binary_morphology (binary_morphology block5 1 1) 1 1 = binary_morphology block5 1 1.
Proof.
  split; [|split].
  - apply (proj1 (proj2 (binary_morphology_twice full3 0 1))). left. lia.
  - reflexivity.
  - apply (proj1 (proj2 (proj2 (binary_morphology_twice block5 1 1)))).
    intros p Hp. pose proof (get_true_inb _ _ Hp) as Hin.
    apply inb_spec in Hin. cbn in Hin.
    destruct p as [r c]; cbn [fst snd] in *.
    assert (Hr : r = 0 \/ r = 1 \/ r = 2 \/ r = 3 \/ r = 4) by lia.
    assert (Hc : c = 0 \/ c = 1 \/ c = 2 \/ c = 3 \/ c = 4) by lia.
    destruct Hr as [-> | [-> | [-> | [-> | ->]]]],
             Hc as [-> | [-> | [-> | [-> | ->]]]];
      try discriminate Hp; cbn; lia.
Defined.

(** On the full 3 by 3 mask with both radii 1 the first pass leaves the
    centre cell and the second pass removes it. *)
Lemma binary_morphology_not_idempotent :
  binary_morphology full3 1 1 = centre3 /\
  binary_morphology (binary_morphology full3 1 1) 1 1 = zeros3 /\
  binary_morphology (binary_morphology full3 1 1) 1 1 <>
  binary_morphology full3 1 1.
Proof.
  split; [reflexivity|]. split; [reflexivity|]. discriminate.
Qed.

(** ** Region Labeler *)

Lemma filter_length_mono {A} (f g : A -> bool) (l : list A) :
  (forall x, In x l -> f x = true -> g x = true) ->
  (length (filter f l) <= length (filter g l))%nat.
Proof.
  induction l as [|x l IH]; intros H; simpl; [lia|].
  assert (IH' := IH (fun y Hy => H y (or_intror Hy))).
  destruct (f x) eqn:Ef.
  - rewrite (H x (or_introl eq_refl) Ef). simpl. lia.
  - destruct (g x); simpl; lia.
Qed.

Lemma filter_length_strict {A} (f g : A -> bool) (l : list A) (x : A) :
  (forall y, In y l -> f y = true -> g y = true) ->
  In x l -> f x = false -> g x = true ->
  (length (filter f l) < length (filter g l))%nat.
Proof.
  induction l as [|y l IH]; intros H Hin Hf Hg; simpl; [destruct Hin|].
  assert (Hle := filter_length_mono f g l (fun z Hz => H z (or_intror Hz))).
  destruct Hin as [->|Hin].
  - rewrite Hf, Hg. simpl. lia.
  - assert (IH' := IH (fun z Hz => H z (or_intror Hz)) Hin Hf Hg).
    destruct (f y) eqn:Ef.
    + rewrite (H y (or_introl eq_refl) Ef). simpl. lia.
    + destruct (g y); simpl; lia.
Qed.

Lemma incl_or_escapes (S S' : list cell) :
  incl S' S \/ exists x, In x S' /\ ~ In x S.
Proof.
  induction S' as [|y S' IH].
  - left. intros x [].
  - destruct IH as [IH|(x & Hx & Hn)].
    + destruct (mem y S) eqn:E.
      * left. intros x [<-|Hx]; [apply mem_In; exact E|apply IH; exact Hx].
      * right. exists y. split; [left; reflexivity|].
        intros H. apply mem_In in H. congruence.
    + right. exists x. split; [right; exact Hx|exact Hn].
Qed.

Section Labeling.
Variable structure : grid bool.
Variable input : grid bool.
Variable adj : cell -> cell -> Prop.
Hypothesis neighbours_adj :
  forall p q, cell_eqb p q || neighbours structure p q = true <-> p = q \/ adj p q.
Hypothesis adj_sym : forall p q, adj p q -> adj q p.

Lemma connected_left (p q : cell) :
  connected adj input p q -> get false input p = true.
Proof. induction 1; assumption. Qed.

Lemma connected_right (p q : cell) :
  connected adj input p q -> get false input q = true.
Proof. destruct 1; assumption. Qed.

Lemma connected_trans (p q r : cell) :
  connected adj input p q -> connected adj input q r -> connected adj input p r.
Proof.
  intros H1 H2. induction H2.
  - exact H1.
  - eapply connected_step; [apply IHconnected; exact H1|assumption|assumption].
Qed.

Lemma connected_sym (p q : cell) :
  connected adj input p q -> connected adj input q p.
Proof.
  induction 1 as [p Hp|p q q' H IH Hq' Hadj].
  - apply connected_refl; exact Hp.
  - apply connected_trans with q; [|exact IH].
    apply connected_step with q'.
    + apply connected_refl; exact Hq'.
    + eapply connected_right; exact H.
    + apply adj_sym; exact Hadj.
Qed.

Lemma grow_spec (S : list cell) (q : cell) :
  In q (grow structure input S) <->
  get false input q = true /\ exists p, In p S /\ (p = q \/ adj p q).
Proof.
  unfold grow. rewrite filter_In, in_ones, existsb_exists.
  split; intros [Hq (p & Hp & H)]; (split; [exact Hq|]); exists p;
    (split; [exact Hp|]); apply neighbours_adj; exact H.
Qed.

Lemma grow_incl (S S' : list cell) :
  incl S S' -> incl (grow structure input S) (grow structure input S').
Proof.
  intros H q. rewrite !grow_spec. intros [Hq (p & Hp & Hadj)].
  split; [exact Hq|]. exists p. split; [apply H; exact Hp|exact Hadj].
Qed.

Lemma flood_sound (seed : cell) (k : nat) (q : cell) :
  get false input seed = true ->
  In q (flood structure input seed k) -> connected adj input seed q.
Proof.
  intros Hs. revert q. induction k as [|k IH]; intros q; simpl.
  - intros [<-|[]]. apply connected_refl; exact Hs.
  - fold (flood structure input seed k). rewrite grow_spec. intros [Hq (p & Hp & [->|Hadj])].
    + apply IH; exact Hp.
    + apply connected_step with p; [apply IH; exact Hp|exact Hq|exact Hadj].
Qed.

Lemma flood_incl_succ (seed : cell) (k : nat) :
  get false input seed = true ->
  incl (flood structure input seed k) (flood structure input seed (S k)).
Proof.
  intros Hs. induction k as [|k IH].
  - intros q [<-|[]]. simpl. apply grow_spec. split; [exact Hs|].
    exists seed. split; [left; reflexivity|left; reflexivity].
  - simpl. apply grow_incl. exact IH.
Qed.

Lemma flood_seed (seed : cell) (k : nat) :
  get false input seed = true -> In seed (flood structure input seed k).
Proof.
  intros Hs. induction k as [|k IH].
  - left; reflexivity.
  - apply flood_incl_succ; assumption.
Qed.

Lemma held_le (S : list cell) : (held input S <= length (ones input))%nat.
Proof. unfold held. apply List.filter_length_le. Qed.

(** After [k] rounds the flood has stopped growing or holds more than [k]
    cells. *)
Lemma flood_progress (seed : cell) (k : nat) :
  get false input seed = true ->
  incl (flood structure input seed (S k)) (flood structure input seed k) \/ (k < held input (flood structure input seed k))%nat.
Proof.
  intros Hs. induction k as [|k IH].
  - right. unfold held.
    apply Nat.lt_le_trans with (length (filter (fun x => mem x []) (ones input)) + 1)%nat;
      [lia|].
    assert (H := filter_length_strict (fun x => mem x []) (fun x => mem x (flood structure input seed 0))
                   (ones input) seed).
    assert (H' : (length (filter (fun x => mem x []) (ones input)) <
                  length (filter (fun x => mem x (flood structure input seed 0)) (ones input)))%nat).
    { apply H.
      - intros y _ Hy. discriminate.
      - apply in_ones; exact Hs.
      - reflexivity.
      - apply mem_In. left; reflexivity. }
    lia.
  - destruct IH as [IH|IH].
    + left. apply (grow_incl (flood structure input seed (S k)) (flood structure input seed k)). exact IH.
    + destruct (incl_or_escapes (flood structure input seed k) (flood structure input seed (S k))) as [Hi|(x & Hx & Hn)].
      * left. apply (grow_incl (flood structure input seed (S k)) (flood structure input seed k)). exact Hi.
      * right. unfold held in *.
        assert (H : (length (filter (fun y => mem y (flood structure input seed k)) (ones input)) <
                     length (filter (fun y => mem y (flood structure input seed (S k))) (ones input)))%nat).
        { apply filter_length_strict with x.
          - intros y _ Hy. apply mem_In. apply flood_incl_succ; [exact Hs|].
            apply mem_In; exact Hy.
          - apply in_ones. simpl in Hx. apply grow_spec in Hx. tauto.
          - destruct (mem x (flood structure input seed k)) eqn:E; [|reflexivity].
            apply mem_In in E. contradiction.
          - apply mem_In; exact Hx. }
        lia.
Qed.

(** The flood of [component] has stopped growing. *)
Lemma component_closed (seed : cell) :
  get false input seed = true ->
  incl (grow structure input (component structure input seed))
       (component structure input seed).
Proof.
  intros Hs.
  destruct (flood_progress seed (length (ones input)) Hs) as [H|H].
  - exact H.
  - pose proof (held_le (flood structure input seed (length (ones input)))). lia.
Qed.

(** The region of a 1-valued seed is the set of cells connected to it. *)
Lemma component_spec (seed q : cell) :
  get false input seed = true ->
  In q (component structure input seed) <-> connected adj input seed q.
Proof.
  intros Hs. split.
  - apply flood_sound; exact Hs.
  - induction 1 as [p Hp|p q q' H IH Hq' Hadj].
    + apply (flood_seed p (length (ones input)) Hp).
    + apply component_closed; [eapply connected_left; exact H|].
      apply grow_spec. split; [exact Hq'|].
      exists q. split; [apply IH; eapply connected_left; exact H|right; exact Hadj].
Qed.

(** *** Labels *)

Lemma label_of_zero (comps : list (list cell)) (q : cell) :
  label_of comps q = 0%nat <-> existsb (mem q) comps = false.
Proof.
  induction comps as [|c rest IH]; simpl; [tauto|].
  destruct (mem q c); simpl.
  - split; discriminate.
  - rewrite <- IH. destruct (label_of rest q); split; congruence.
Qed.

Lemma label_of_bound (comps : list (list cell)) (q : cell) :
  (label_of comps q <= length comps)%nat.
Proof.
  induction comps as [|c rest IH]; simpl; [lia|].
  destruct (mem q c); [lia|]. destruct (label_of rest q); lia.
Qed.

Lemma label_of_succ (comps : list (list cell)) (q : cell) (i : nat) :
  label_of comps q = S i <->
  (i < length comps)%nat /\ In q (nth i comps []) /\
  (forall j, (j < i)%nat -> ~ In q (nth j comps [])).
Proof.
  revert i. induction comps as [|c rest IH]; intros i; simpl.
  - split; [discriminate|]. intros [H _]; lia.
  - destruct (mem q c) eqn:E.
    + apply mem_In in E. split.
      * intros [= <-]. split; [lia|]. split; [exact E|]. intros j Hj; lia.
      * intros (_ & _ & H). destruct i as [|i]; [reflexivity|].
        exfalso. apply (H 0%nat); [lia|exact E].
    + assert (Hn : ~ In q c) by (intros H; apply mem_In in H; congruence).
      destruct i as [|i].
      * split.
        -- destruct (label_of rest q); discriminate.
        -- intros (_ & H & _). contradiction.
      * split.
        -- intros H. assert (H' : label_of rest q = S i)
             by (destruct (label_of rest q); congruence).
           apply IH in H' as (H1 & H2 & H3). split; [lia|]. split; [exact H2|].
           intros [|j] Hj; [exact Hn|]. apply H3. lia.
        -- intros (H1 & H2 & H3).
           assert (H' : label_of rest q = S i).
           { apply IH. split; [lia|]. split; [exact H2|].
             intros j Hj. apply (H3 (S j)). lia. }
           rewrite H'. reflexivity.
Qed.

Lemma covered_nth (comps : list (list cell)) (q : cell) :
  existsb (mem q) comps = true <->
  exists i, (i < length comps)%nat /\ In q (nth i comps []).
Proof.
  rewrite existsb_exists. split.
  - intros (c & Hc & Hq). apply mem_In in Hq.
    apply (In_nth _ _ []) in Hc as (i & Hi & <-). exists i. tauto.
  - intros (i & Hi & Hq). exists (nth i comps []). split.
    + apply nth_In; exact Hi.
    + apply mem_In; exact Hq.
Qed.

(** *** The raster scan *)

Lemma good_regions_snoc (comps : list (list cell)) (p : cell) :
  good_regions adj input comps ->
  get false input p = true -> existsb (mem p) comps = false ->
  good_regions adj input (comps ++ [component structure input p]).
Proof.
  intros Hg Hp Hc i Hi. rewrite length_app in Hi. simpl in Hi.
  destruct (Nat.lt_ge_cases i (length comps)) as [Hlt|Hge].
  - destruct (Hg i Hlt) as (s & Hs & Hin & Hfirst).
    exists s. split; [exact Hs|]. split.
    + intros q. rewrite app_nth1 by exact Hlt. apply Hin.
    + intros j Hj. rewrite app_nth1 by lia. apply Hfirst; exact Hj.
  - assert (i = length comps) by lia. subst i.
    exists p. split; [exact Hp|]. split.
    + intros q. rewrite app_nth2, Nat.sub_diag by lia. simpl.
      apply component_spec; exact Hp.
    + intros j Hj. rewrite app_nth1 by exact Hj. intros Hin.
      assert (existsb (mem p) comps = true)
        by (apply covered_nth; exists j; tauto).
      congruence.
Qed.

Lemma scan_good (todo : list cell) (comps : list (list cell)) :
  good_regions adj input comps ->
  good_regions adj input (scan structure input todo comps).
Proof.
  revert comps. induction todo as [|p rest IH]; intros comps Hg; simpl; [exact Hg|].
  destruct (get false input p) eqn:Hp; simpl; [|apply IH; exact Hg].
  destruct (existsb (mem p) comps) eqn:Hc; simpl; [apply IH; exact Hg|].
  apply IH. apply good_regions_snoc; assumption.
Qed.

Lemma scan_keeps (todo : list cell) (comps : list (list cell)) (q : cell) :
  existsb (mem q) comps = true ->
  existsb (mem q) (scan structure input todo comps) = true.
Proof.
  revert comps. induction todo as [|p rest IH]; intros comps H; simpl; [exact H|].
  destruct (get false input p && negb (existsb (mem p) comps)); apply IH;
    [|exact H].
  rewrite existsb_app, H. reflexivity.
Qed.

Lemma scan_covers (todo : list cell) (comps : list (list cell)) (q : cell) :
  In q todo -> get false input q = true ->
  existsb (mem q) (scan structure input todo comps) = true.
Proof.
  revert comps. induction todo as [|p rest IH]; intros comps Hin Hq; [destruct Hin|].
  simpl. destruct Hin as [->|Hin].
  - rewrite Hq. simpl. destruct (existsb (mem q) comps) eqn:Hc; simpl.
    + apply scan_keeps; exact Hc.
    + apply scan_keeps. rewrite existsb_app. simpl.
      assert (H : mem q (component structure input q) = true).
      { apply mem_In. apply component_spec; [exact Hq|].
        apply connected_refl; exact Hq. }
      rewrite H. simpl. apply orb_true_r.
  - destruct (get false input p && negb (existsb (mem p) comps)); apply IH; assumption.
Qed.

Lemma regions_good : good_regions adj input (regions structure input).
Proof. apply scan_good. intros i Hi. simpl in Hi. lia. Qed.

Lemma regions_cover (q : cell) :
  existsb (mem q) (regions structure input) = true <-> get false input q = true.
Proof.
  split.
  - intros H. apply covered_nth in H as (i & Hi & Hq).
    destruct (regions_good i Hi) as (s & _ & Hin & _).
    apply Hin in Hq. eapply connected_right; exact Hq.
  - intros H. apply scan_covers; [|exact H].
    apply in_all_cells, get_true_inb; exact H.
Qed.

(** The label of a cell is 0 exactly on the 0-valued cells. *)
Lemma label_zero (q : cell) :
  label_of (regions structure input) q = 0%nat <-> get false input q = false.
Proof.
  rewrite label_of_zero. pose proof (regions_cover q) as H.
  destruct (existsb (mem q) (regions structure input)), (get false input q);
    intuition congruence.
Qed.

(** Two cells carry the same label exactly when they are connected. *)
Lemma label_connected (p q : cell) :
  get false input p = true ->
  label_of (regions structure input) p = label_of (regions structure input) q <->
  connected adj input p q.
Proof.
  intros Hp.
  destruct (label_of (regions structure input) p) as [|i] eqn:Ep.
  { apply label_zero in Ep. congruence. }
  pose proof Ep as Ep0.
  apply label_of_succ in Ep as (Hi & Hpi & Hfirst).
  destruct (regions_good i Hi) as (s & Hs & Hin & _).
  split.
  - intros E. symmetry in E. apply label_of_succ in E as (_ & Hqi & _).
    apply connected_trans with s.
    + apply connected_sym, Hin; exact Hpi.
    + apply Hin; exact Hqi.
  - intros Hc. symmetry. apply label_of_succ. split; [exact Hi|]. split.
    + apply Hin. apply connected_trans with p; [apply Hin; exact Hpi|exact Hc].
    + intros j Hj Hqj. apply (Hfirst j Hj).
      destruct (regions_good j) as (s' & _ & Hin' & _); [lia|].
      apply Hin'. apply connected_trans with q; [apply Hin'; exact Hqj|].
      apply connected_sym; exact Hc.
Qed.

(** Every label from 1 to the number of regions is carried by a cell. *)
Lemma label_used (i : nat) :
  (i < length (regions structure input))%nat ->
  exists p, label_of (regions structure input) p = S i.
Proof.
  intros Hi. destruct (regions_good i Hi) as (s & Hs & Hin & Hfirst).
  exists s. apply label_of_succ. split; [exact Hi|]. split; [|exact Hfirst].
  apply Hin. apply connected_refl; exact Hs.
Qed.

(** The labelled array holds the label of every cell. *)
Lemma get_labeled (q : cell) :
  get 0%nat (fst (label_with structure input)) q =
  label_of (regions structure input) q.
Proof.
  unfold label_with. simpl. rewrite get_tabulate.
  destruct (inb (shape input) q) eqn:E; [reflexivity|].
  symmetry. apply label_zero. unfold get. rewrite E. reflexivity.
Qed.

End Labeling.

(** *** The default structuring element: the cross *)

Lemma offsets_cross :
  offsets (generate_binary_structure 1) = [(-1, 0); (0, -1); (0, 0); (0, 1); (1, 0)].
Proof. reflexivity. Qed.

Lemma cross_neighbours (p q : cell) :
  cell_eqb p q || neighbours (generate_binary_structure 1) p q = true <->
  p = q \/ edge_adjacent p q.
Proof.
  unfold neighbours. rewrite offsets_cross.
  destruct p as [r c], q as [r' c']. unfold edge_adjacent, unshift, cell_eqb. simpl.
  rewrite !orb_true_iff, !andb_true_iff, !Z.eqb_eq. split.
  - intros [[H1 H2]|H]; [left; f_equal; lia|].
    destruct H as [H|[H|[H|[H|[H|H]]]]]; try discriminate;
      try (left; f_equal; lia); right; lia.
  - intros [[= -> ->]|H]; [left; lia|]. right. lia.
Qed.

Lemma edge_adjacent_sym (p q : cell) : edge_adjacent p q -> edge_adjacent q p.
Proof. unfold edge_adjacent. lia. Qed.

(** A mask whose only 1-valued cells are two pixels that touch at a corner
    has two regions. *)
Lemma diagonal_pair_two_regions (mask : grid bool) (p q : cell) :
  ones mask = [p; q] -> corner_adjacent p q -> ~ edge_adjacent p q ->
  snd (label mask) = 2%nat /\
  get 0%nat (fst (label mask)) p <> get 0%nat (fst (label mask)) q.
Proof.
  intros Hones Hc He.
  pose proof cross_neighbours as Hn. pose proof edge_adjacent_sym as Hs.
  assert (Hpq : p <> q).
  { intros ->. unfold corner_adjacent in Hc. lia. }
  assert (Hcells : forall x, get false mask x = true -> x = p \/ x = q).
  { intros x Hx. apply in_ones in Hx. rewrite Hones in Hx.
    destruct Hx as [<-|[<-|[]]]; [left|right]; reflexivity. }
  assert (Hp : get false mask p = true)
    by (apply in_ones; rewrite Hones; left; reflexivity).
  assert (Hq : get false mask q = true)
    by (apply in_ones; rewrite Hones; right; left; reflexivity).
  assert (Hiso : forall a x, connected edge_adjacent mask a x -> a = p -> x = p).
  { intros a x H. induction H as [a Ha|a y y' H IH Hy' Hadj]; intros Ea;
      [exact Ea|].
    specialize (IH Ea). subst y.
    destruct (Hcells y' Hy') as [-> | ->]; [reflexivity|].
    subst a. contradiction. }
  unfold label. rewrite !(get_labeled _ _ _ Hn).
  assert (Hne : label_of (regions (generate_binary_structure 1) mask) p <>
                label_of (regions (generate_binary_structure 1) mask) q).
  { intros E. apply (label_connected _ _ _ Hn Hs p q Hp) in E.
    apply Hiso in E; [congruence|reflexivity]. }
  split; [|exact Hne].
  unfold label_with. cbn [snd].
  set (comps := regions (generate_binary_structure 1) mask) in *.
  pose proof (label_of_bound comps p) as Bp.
  pose proof (label_of_bound comps q) as Bq.
  assert (Zp : label_of comps p <> 0%nat).
  { intros E. apply (label_zero _ _ _ Hn) in E. congruence. }
  assert (Zq : label_of comps q <> 0%nat).
  { intros E. apply (label_zero _ _ _ Hn) in E. congruence. }
  assert (Hused : forall i, (i < length comps)%nat ->
                  label_of comps p = S i \/ label_of comps q = S i).
  { intros i Hi. destruct (label_used _ mask _ Hn i Hi) as (x & Hx).
    fold comps in Hx.
    assert (Hx1 : get false mask x = true).
    { destruct (get false mask x) eqn:E; [reflexivity|].
      apply (label_zero _ _ _ Hn) in E. fold comps in E. congruence. }
    destruct (Hcells x Hx1) as [-> | ->]; [left|right]; exact Hx. }
  destruct (Nat.lt_ge_cases 2 (length comps)) as [H3|H3]; [|lia].
  exfalso.
  pose proof (Hused 0%nat ltac:(lia)). pose proof (Hused 1%nat ltac:(lia)).
  pose proof (Hused 2%nat ltac:(lia)). lia.
Qed.

(** C1 (as the code has it): [ndi.label(mask)] is called without a
    structuring element, so regions are the maximal sets of 1-valued cells
    connected through shared edges.  The labelled array has the mask's
    shape; a cell has label 0 exactly when its mask value is 0; labels run
    from 1 to the number of regions and each is used; two cells carry the
    same label exactly when a path of edge-adjacent 1-valued cells joins
    them.  In particular a mask of exactly two pixels that touch at a
    corner has two regions. *)
Theorem label_partitions_edge_connected (mask : grid bool) :
  shape (fst (label mask)) = shape mask /\
  (forall p, get 0%nat (fst (label mask)) p = 0%nat <-> get false mask p = false) /\
  (forall p, (get 0%nat (fst (label mask)) p <= snd (label mask))%nat) /\
  (forall p q, get false mask p = true ->
     (get 0%nat (fst (label mask)) p = get 0%nat (fst (label mask)) q <->
      connected edge_adjacent mask p q)) /\
  (forall i, (1 <= i <= snd (label mask))%nat ->
     exists p, get false mask p = true /\ get 0%nat (fst (label mask)) p = i) /\
  (forall p q, ones mask = [p; q] -> corner_adjacent p q -> ~ edge_adjacent p q ->
     snd (label mask) = 2%nat /\
     get 0%nat (fst (label mask)) p <> get 0%nat (fst (label mask)) q).
Proof.
  pose proof cross_neighbours as Hn. pose proof edge_adjacent_sym as Hs.
  split; [apply shape_tabulate_shape|].
  split; [|split; [|split; [|split]]].
  - intros p. unfold label. rewrite (get_labeled _ _ _ Hn).
    apply (label_zero _ _ _ Hn).
  - intros p. unfold label. rewrite (get_labeled _ _ _ Hn). apply label_of_bound.
  - intros p q Hp. unfold label. rewrite !(get_labeled _ _ _ Hn).
    apply (label_connected _ _ _ Hn Hs). exact Hp.
  - intros i Hi. unfold label in *. simpl in Hi. destruct i as [|i]; [lia|].
    destruct (label_used _ mask _ Hn i) as (p & Hp); [lia|].
    exists p. rewrite (get_labeled _ _ _ Hn). split; [|exact Hp].
    destruct (get false mask p) eqn:E; [reflexivity|].
    apply (label_zero _ _ _ Hn) in E. congruence.
  - apply diagonal_pair_two_regions.
Qed.

(** Two pixels that touch at a corner are connected under 8-connectivity,
    and the labeler puts them in two regions. *)
Lemma label_diagonal_two_regions :
  ones diagonal_mask = [(0, 0); (1, 1)] /\
  connected corner_adjacent diagonal_mask (0, 0) (1, 1) /\
  label diagonal_mask = ([[1%nat; 0%nat]; [0%nat; 2%nat]], 2%nat).
Proof.
  split; [reflexivity|]. split; [|reflexivity].
  apply connected_step with (0, 0).
  - apply connected_refl. reflexivity.
  - reflexivity.
  - reflexivity.
Qed.

(** ** Region Size Filter *)

Lemma get_np_eq (labeled : grid nat) (i : nat) (p : cell) :
  get false (np_eq labeled i) p =
  inb (shape labeled) p && Nat.eqb (get 0%nat labeled p) i.
Proof. apply get_false_tabulate. Qed.

Lemma get_assign_where (clean region : grid bool) (p : cell) :
  get false (assign_where clean region) p =
  inb (shape clean) p && (get false region p || get false clean p).
Proof.
  unfold assign_where. rewrite get_false_tabulate.
  destruct (get false region p); reflexivity.
Qed.

Lemma keep_region_fold (labeled : grid nat) (min_px : Z) (ls : list nat)
  (clean : grid bool) :
  shape clean = shape labeled ->
  shape (fold_left (keep_region labeled min_px) ls clean) = shape labeled /\
  forall p,
    get false (fold_left (keep_region labeled min_px) ls clean) p = true <->
    get false clean p = true \/
    (inb (shape labeled) p = true /\ In (get 0%nat labeled p) ls /\
     min_px <= np_sum (np_eq labeled (get 0%nat labeled p))).
Proof.
  revert clean. induction ls as [|i ls IH]; intros clean Hsh; simpl.
  - split; [exact Hsh|]. intros p. tauto.
  - assert (Hsh' : shape (keep_region labeled min_px clean i) = shape labeled).
    { unfold keep_region. destruct (min_px <=? np_sum (np_eq labeled i)); [|exact Hsh].
      unfold assign_where. rewrite shape_tabulate_shape. exact Hsh. }
    destruct (IH _ Hsh') as [IH1 IH2]. split; [exact IH1|].
    intros p. rewrite IH2. unfold keep_region.
    destruct (Z.leb_spec min_px (np_sum (np_eq labeled i))) as [Hle|Hlt].
    + rewrite get_assign_where, get_np_eq, Hsh.
      rewrite andb_true_iff, orb_true_iff, andb_true_iff, Nat.eqb_eq.
      split.
      * intros [[Hin [[_ E]|Hc]]|(Hin & Hl & Hm)].
        -- right. split; [exact Hin|]. split; [left; symmetry; exact E|].
           rewrite E. exact Hle.
        -- left; exact Hc.
        -- right. tauto.
      * intros [Hc|(Hin & [E|Hl] & Hm)].
        -- left. split; [|right; exact Hc].
           rewrite <- Hsh. apply get_true_inb; exact Hc.
        -- left. split; [exact Hin|]. left. split; [exact Hin|]. symmetry; exact E.
        -- right. tauto.
    + split.
      * intros [Hc|(Hin & Hl & Hm)]; [left; exact Hc|]. right. tauto.
      * intros [Hc|(Hin & [E|Hl] & Hm)]; [left; exact Hc| |right; tauto].
        rewrite <- E in Hm. lia.
Qed.

(** What the pixel-count filter keeps: the 1-valued cells whose region
    holds at least [min_px] cells. *)
Lemma size_filter_spec (mask : grid bool) (min_px : Z) :
  shape (size_filter mask min_px) = shape mask /\
  forall p,
    get false (size_filter mask min_px) p = true <->
    get false mask p = true /\
    min_px <= np_sum (np_eq (fst (label mask)) (get 0%nat (fst (label mask)) p)).
Proof.
  pose proof cross_neighbours as Hn.
  unfold size_filter, label, label_with. simpl.
  set (comps := regions (generate_binary_structure 1) mask).
  set (labeled := tabulate (shape mask) (label_of comps)).
  assert (Hl : shape labeled = shape mask) by apply shape_tabulate_shape.
  destruct (keep_region_fold labeled min_px (seq 1 (length comps)) (np_zeros_like mask))
    as [H1 H2].
  { unfold np_zeros_like. rewrite shape_tabulate_shape. symmetry; exact Hl. }
  split; [rewrite H1; exact Hl|].
  intros p. rewrite H2. unfold np_zeros_like. rewrite get_false_tabulate, andb_false_r.
  assert (Hg : get 0%nat labeled p = label_of comps p)
    by apply (get_labeled _ mask _ Hn).
  rewrite Hl, in_seq, Hg. split.
  - intros [H|(Hin & Hr & Hm)]; [discriminate|]. split; [|exact Hm].
    destruct (get false mask p) eqn:E; [reflexivity|].
    apply (label_zero _ _ _ Hn) in E. fold comps in E. lia.
  - intros [Hp Hm]. right. split; [apply get_true_inb; exact Hp|]. split; [|exact Hm].
    pose proof (label_of_bound comps p).
    destruct (label_of comps p) eqn:E; [|lia].
    apply (label_zero _ _ _ Hn) in E. congruence.
Qed.

(** The cells of the array [labeled == label of p] are the cells connected
    to [p]. *)
Lemma region_of_cell (mask : grid bool) (p q : cell) :
  get false mask p = true ->
  get false (np_eq (fst (label mask)) (get 0%nat (fst (label mask)) p)) q = true <->
  connected edge_adjacent mask p q.
Proof.
  intros Hp. pose proof cross_neighbours as Hn. pose proof edge_adjacent_sym as Hs.
  rewrite get_np_eq, andb_true_iff, Nat.eqb_eq.
  unfold label. rewrite !(get_labeled _ _ _ Hn).
  rewrite <- (label_connected _ _ _ Hn Hs p q Hp).
  unfold label_with. simpl. rewrite shape_tabulate_shape. split.
  - intros [_ E]. symmetry; exact E.
  - intros E. split; [|symmetry; exact E].
    apply get_true_inb.
    destruct (get false mask q) eqn:Hq; [reflexivity|].
    apply (label_zero _ _ _ Hn) in Hq. rewrite <- E in Hq.
    apply (label_zero _ _ _ Hn) in Hq. congruence.
Qed.

Lemma truncate_spec (x : Q) :
  (0 <= x)%Q ->
  (inject_Z (truncate x) <= x)%Q /\ (x < inject_Z (truncate x + 1))%Q.
Proof.
  destruct x as [n d]. unfold Qle, Qlt, truncate. simpl. intros H.
  assert (Hn : 0 <= n) by lia.
  rewrite Z.quot_div_nonneg by lia.
  pose proof (Z.mul_div_le n (Z.pos d) ltac:(lia)).
  pose proof (Z.mul_succ_div_gt n (Z.pos d) ltac:(lia)).
  split; lia.
Qed.

Lemma min_pixels_ok (min_area : Q) (t : Affine.t) (q : Q) :
  min_area_quotient min_area t = Ok (Fin q) ->
  min_pixels min_area t = Ok (truncate q).
Proof. intros E. unfold min_pixels. rewrite E. reflexivity. Qed.

(** The minimum count, when there is one, is the truncation of a finite
    quotient. *)
Lemma min_pixels_inv (min_area : Q) (t : Affine.t) (k : Z) :
  min_pixels min_area t = Ok k ->
  exists q, min_area_quotient min_area t = Ok (Fin q) /\ k = truncate q.
Proof.
  unfold min_pixels.
  destruct (min_area_quotient min_area t) as [[q| | |]|]; try discriminate.
  intros [= <-]. exists q. split; reflexivity.
Qed.

(** C2 (as the code has it): the cell area is |a| * |e|; the minimum pixel
    count is [int(min_area_ha * 10000 / pixel_area_m2)], the quotient that
    Python computes in double precision, truncated (for a non-negative
    quotient, the greatest integer not above it); the filter keeps at
    value 1 exactly the cells of the regions the labeler found
    (edge-connected) that hold at least that many cells, and zeroes every
    other cell. *)
Theorem region_size_filter_truncated_minimum {G : GeoLib}
  (mask : grid bool) (meta : Meta) (proc : Proc) (min_area quotient : Q) :
  min_area_ha proc = Some min_area ->
  min_area_quotient min_area (transform meta) = Ok (Fin quotient) ->
  exists min_px clean,
    pixel_area_m2 (transform meta) =
      py_mul (Fin (Qabs (Affine.a (transform meta))))
             (Fin (Qabs (Affine.e (transform meta)))) /\
    min_area_quotient min_area (transform meta) =
      py_div (py_mul (Fin min_area) (Fin 10000))
             (pixel_area_m2 (transform meta)) /\
    min_pixels min_area (transform meta) = Ok min_px /\
    min_px = truncate quotient /\
    ((0 <= quotient)%Q ->
     (inject_Z min_px <= quotient)%Q /\ (quotient < inject_Z (min_px + 1))%Q) /\
    region_size_filter mask meta proc = Ok clean /\
    shape clean = shape mask /\
    (forall p, get false clean p = true <->
       get false mask p = true /\
       min_px <= np_sum (np_eq (fst (label mask)) (get 0%nat (fst (label mask)) p))) /\
    (forall p q, get false mask p = true ->
       (get false (np_eq (fst (label mask)) (get 0%nat (fst (label mask)) p)) q = true <->
        connected edge_adjacent mask p q)).
Proof.
  intros Hmin Hq.
  exists (truncate quotient), (size_filter mask (truncate quotient)).
  split; [reflexivity|]. split; [reflexivity|].
  split; [apply min_pixels_ok; exact Hq|].
  split; [reflexivity|].
  split; [apply truncate_spec|].
  split.
  { unfold region_size_filter. rewrite Hmin. simpl.
    rewrite (min_pixels_ok _ _ _ Hq). reflexivity. }
  destruct (size_filter_spec mask (truncate quotient)) as [H1 H2].
  split; [exact H1|]. split; [exact H2|].
  intros p q Hp. apply region_of_cell; exact Hp.
Qed.

(** A five-pixel row of 100 m pixels with a minimum of 5 ha: the quotient
    is 5, the minimum count is 5 and the row is kept.  With 10 m pixels and
    a minimum of 0.57 ha the quotient in double precision is just below 57
    and the minimum count is 56. *)
Lemma region_size_filter_truncated_minimum_witness :
  exists min_px clean,
    min_pixels 5 transform100 = Ok min_px /\ min_px = 5 /\
    region_size_filter row5 meta100 (proc_of 5 10) = Ok clean /\
    clean = row5 /\
    min_pixels (double (57#100)) transform10 = Ok 56.
Proof.
  destruct (region_size_filter_truncated_minimum row5 meta100 (proc_of 5 10) 5 5)
    as (min_px & clean & _ & _ & H1 & H2 & _ & H3 & _).
  - reflexivity.
  - vm_compute. reflexivity.
  - exists min_px, clean. split; [exact H1|]. split; [rewrite H2; reflexivity|].
    split; [exact H3|]. split; [|vm_compute; reflexivity].
    vm_compute in H3. injection H3 as <-. reflexivity.
Defined.

(** With a minimum of 5.5 ha on pixels of one hectare the quotient is 5.5:
    the code's minimum is 5, not the ceiling 6, and a region of 5 pixels,
    fewer than 6, is kept. *)
Lemma region_size_filter_not_ceiling :
  min_area_quotient (11#2) (transform meta100) = Ok (Fin (11#2)) /\
  min_pixels (11#2) (transform meta100) = Ok 5 /\
  ceiling (11#2) = 6 /\
  np_sum row5 = 5 /\
  region_size_filter row5 meta100 (proc_of (11#2) 10) = Ok row5.
Proof. vm_compute. repeat split; reflexivity. Qed.

(** ** Vectorizer, Area Calculator and the final filter *)

Section Features.
Context {G : GeoLib}.

Lemma shapes_order_nil : shapes_order [] = [].
Proof.
  apply Permutation_nil, Permutation_sym, shapes_order_perm.
Qed.

Lemma regions_no_ones (structure mask : grid bool) :
  (forall p, get false mask p = false) -> regions structure mask = [].
Proof.
  intros H. unfold regions. generalize (all_cells (shape mask)).
  intros todo. induction todo as [|p rest IH]; simpl; [reflexivity|].
  rewrite H. simpl. exact IH.
Qed.

Lemma raster_to_polygons_empty (mask : grid bool) (meta : Meta) :
  (forall p, get false mask p = false) ->
  raster_to_polygons mask meta =
  {| geometry := []; area_ha := None; gdf_crs := crs meta |}.
Proof.
  intros H. unfold raster_to_polygons, shapes.
  rewrite regions_no_ones by exact H. rewrite shapes_order_nil. reflexivity.
Qed.



Lemma select_combine {A B} (c : B -> bool) (l1 : list A) (l2 : list B) :
  combine (select (map c l2) l1) (select (map c l2) l2) =
  filter (fun ab => c (snd ab)) (combine l1 l2).
Proof.
  revert l1. induction l2 as [|b l2 IH]; intros l1; simpl.
  - destruct l1; reflexivity.
  - destruct l1 as [|a l1]; simpl; [reflexivity|].
    destruct (c b); simpl; rewrite IH; reflexivity.
Qed.

(** The final filter keeps exactly the features whose area is in range. *)
Lemma area_filter_features (gdf : GeoDataFrame) (proc : Proc)
  (areas : list Q) (lo hi : Q) :
  area_ha gdf = Some areas ->
  min_area_ha proc = Some lo -> max_area_ha proc = Some hi ->
  exists out,
    area_filter gdf proc = Ok out /\
    gdf_crs out = gdf_crs gdf /\
    features out = filter (in_area_range lo hi) (features gdf).
Proof.
  intros Ha Hlo Hhi. unfold area_filter. rewrite Ha, Hlo, Hhi. simpl.
  eexists. split; [reflexivity|]. split; [reflexivity|].
  unfold features. simpl. rewrite Ha.
  apply (select_combine (fun x => Qle_bool lo x && Qle_bool x hi)).
Qed.

Lemma in_area_range_spec (lo hi : Q) (ga : Geom * Q) :
  in_area_range lo hi ga = true <-> (lo <= snd ga)%Q /\ (snd ga <= hi)%Q.
Proof.
  unfold in_area_range. rewrite andb_true_iff, !Qle_bool_iff. reflexivity.
Qed.

Lemma area_filter_ok (gdf out : GeoDataFrame) (proc : Proc) :
  area_filter gdf proc = Ok out ->
  exists areas lo hi,
    area_ha gdf = Some areas /\ min_area_ha proc = Some lo /\
    max_area_ha proc = Some hi.
Proof.
  unfold area_filter.
  destruct (area_ha gdf) as [areas|]; [|discriminate].
  destruct (min_area_ha proc) as [lo|]; [|discriminate].
  destruct (max_area_ha proc) as [hi|]; [|discriminate].
  intros _. exists areas, lo, hi. repeat split; reflexivity.
Qed.

(** What the Vectorizer, the Area Calculator and the final filter return
    is a final Feature Set. *)
Lemma vectorize_and_filter_final (clean : grid bool) (meta : Meta)
  (proc : Proc) (out : GeoDataFrame) :
  vectorize_and_filter clean meta proc = Ok out ->
  final_set_of clean meta proc out.
Proof.
  unfold vectorize_and_filter, final_set_of.
  destruct (compute_area_ha (raster_to_polygons clean meta)) as [gdf|e];
    [|discriminate].
  simpl. intros H.
  destruct (area_filter_ok _ _ _ H) as (areas & lo & hi & Ha & Hlo & Hhi).
  destruct (area_filter_features gdf proc areas lo hi Ha Hlo Hhi)
    as (out' & E & _ & Hf).
  rewrite E in H. injection H as <-.
  exists lo, hi, gdf. repeat split; assumption.
Qed.

Lemma final_set_in_range (clean : grid bool) (meta : Meta) (proc : Proc)
  (out : GeoDataFrame) :
  final_set_of clean meta proc out -> within_area_range proc out.
Proof.
  intros (lo & hi & gdf & Hlo & Hhi & _ & Hf).
  exists lo, hi. split; [exact Hlo|]. split; [exact Hhi|].
  intros ga Hin. rewrite Hf in Hin. apply filter_In in Hin as [_ Hin].
  apply in_area_range_spec; exact Hin.
Qed.

Lemma vectorize_and_filter_in_range (clean : grid bool) (meta : Meta)
  (proc : Proc) (out : GeoDataFrame) :
  vectorize_and_filter clean meta proc = Ok out ->
  exists lo hi,
    min_area_ha proc = Some lo /\ max_area_ha proc = Some hi /\
    forall ga, In ga (features out) -> (lo <= snd ga)%Q /\ (snd ga <= hi)%Q.
Proof.
  intros H. apply (final_set_in_range clean meta proc out).
  apply vectorize_and_filter_final; exact H.
Qed.

(** The Layer Processor writes its final Feature Set, when there is one. *)
Lemma process_index_to_vectors_spec (name : string) (arr : grid fval)
  (meta : Meta) (val_range : fval * fval) (proc : Proc)
  (out_dir fmt : string) (fs : FS) :
  process_index_to_vectors name arr meta val_range proc out_dir fmt fs =
  match layer_features arr meta val_range proc with
  | Ok gdf => write_result name gdf out_dir fmt fs
  | Raise e => (Raise e, fs)
  end.
Proof.
  unfold process_index_to_vectors, layer_features, write_result, bind, lift.
  destruct (mask_builder arr val_range) as [m|e]; simpl; [|reflexivity].
  destruct (clean_mask m proc) as [m'|e]; simpl; [|reflexivity].
  destruct (region_size_filter m' meta proc) as [c|e]; simpl; [|reflexivity].
  destruct (vectorize_and_filter c meta proc) as [gdf|e]; simpl; reflexivity.
Qed.

End Features.

(** ** What the engine writes *)

Section Writes.
Context {G : GeoLib}.
Variable P : GeoDataFrame -> Prop.

Lemma appends_ret {A} (x : A) : appends_only P (ret x).
Proof. intros fs. exists []. simpl. rewrite app_nil_r. split; [reflexivity|constructor]. Qed.

Lemma appends_makedirs (path : string) : appends_only P (makedirs path).
Proof. intros fs. exists []. simpl. rewrite app_nil_r. split; [reflexivity|constructor]. Qed.

Lemma appends_to_file (gdf : GeoDataFrame) (path driver : string) :
  P gdf -> appends_only P (to_file gdf path driver).
Proof.
  intros H fs. eexists. simpl. split; [reflexivity|].
  constructor; [exact H|constructor].
Qed.

Lemma appends_bind {A B} (m : M A) (k : A -> M B) :
  appends_only P m -> (forall x, appends_only P (k x)) ->
  appends_only P (bind m k).
Proof.
  intros Hm Hk fs. unfold bind.
  destruct (Hm fs) as (w1 & E1 & F1).
  destruct (m fs) as [[x|e] fs1]; simpl in *.
  - destruct (Hk x fs1) as (w2 & E2 & F2).
    exists (w1 ++ w2). rewrite E2, E1, app_assoc. split; [reflexivity|].
    apply Forall_app; split; assumption.
  - exists w1. split; assumption.
Qed.

Lemma appends_bind_lift {A B} (r : Result A) (k : A -> M B) :
  (forall x, r = Ok x -> appends_only P (k x)) ->
  appends_only P (bind (lift r) k).
Proof.
  intros Hk. destruct r as [x|e].
  - intros fs. unfold bind, lift. apply (Hk x eq_refl).
  - intros fs. unfold bind, lift. simpl. exists []. rewrite app_nil_r.
    split; [reflexivity|constructor].
Qed.


End Writes.

Section FinalSets.
Context {G : GeoLib}.





End FinalSets.

Section AreaRange.
Context {G : GeoLib}.







End AreaRange.



(** ** Area Calculator *)



(** ** Empty results *)

Lemma compute_area_ha_empty {G : GeoLib} (gdf : GeoDataFrame) :
  geometry gdf = [] ->
  compute_area_ha gdf =
  Ok {| geometry := []; area_ha := Some []; gdf_crs := gdf_crs gdf |}.
Proof. intros E. unfold compute_area_ha, gdf_empty. rewrite E. reflexivity. Qed.

Lemma vectorize_and_filter_empty {G : GeoLib} (mask : grid bool) (meta : Meta)
  (proc : Proc) (lo hi : Q) :
  (forall p, get false mask p = false) ->
  min_area_ha proc = Some lo -> max_area_ha proc = Some hi ->
  vectorize_and_filter mask meta proc =
  Ok {| geometry := []; area_ha := Some []; gdf_crs := crs meta |}.
Proof.
  intros H Hlo Hhi. unfold vectorize_and_filter.
  rewrite raster_to_polygons_empty by exact H.
  rewrite compute_area_ha_empty by reflexivity. simpl.
  unfold area_filter. simpl. rewrite Hlo, Hhi. reflexivity.
Qed.

Lemma process_index_to_vectors_none {G : GeoLib} (name : string)
  (arr : grid fval) (meta : Meta) (val_range : fval * fval) (proc : Proc)
  (out_dir fmt : string) (fs : FS) (gdf : GeoDataFrame) :
  layer_features arr meta val_range proc = Ok gdf -> gdf_empty gdf = true ->
  process_index_to_vectors name arr meta val_range proc out_dir fmt fs =
  (Ok None, fs).
Proof.
  intros E He. rewrite process_index_to_vectors_spec, E.
  unfold write_result. rewrite He. reflexivity.
Qed.

(** C7: on a mask without 1-valued cells the Vectorizer returns the empty
    Feature Set with the mask's CRS; the Area Calculator returns an empty
    Feature Set with the [area_ha] column set and empty, whatever the CRS;
    and the Layer Processor whose filtered mask is that mask, or whose final
    set is empty, returns the no-result value without an error and without
    writing. *)
Theorem empty_results_propagate {G : GeoLib} (mask : grid bool) (meta : Meta) :
  (forall p, get false mask p = false) ->
  raster_to_polygons mask meta =
    {| geometry := []; area_ha := None; gdf_crs := crs meta |} /\
  (forall gdf, geometry gdf = [] ->
     compute_area_ha gdf =
     Ok {| geometry := []; area_ha := Some []; gdf_crs := gdf_crs gdf |}) /\
  (forall name arr val_range proc out_dir fmt fs m0 m1 hi,
     mask_builder arr val_range = Ok m0 -> clean_mask m0 proc = Ok m1 ->
     region_size_filter m1 meta proc = Ok mask ->
     max_area_ha proc = Some hi ->
     process_index_to_vectors name arr meta val_range proc out_dir fmt fs =
     (Ok None, fs)) /\
  (forall name arr val_range proc out_dir fmt fs gdf,
     layer_features arr meta val_range proc = Ok gdf -> gdf_empty gdf = true ->
     process_index_to_vectors name arr meta val_range proc out_dir fmt fs =
     (Ok None, fs)).
Proof.
  intros H. split; [apply raster_to_polygons_empty; exact H|].
  split; [intros gdf; apply compute_area_ha_empty|].
  split.
  - intros name arr val_range proc out_dir fmt fs m0 m1 hi E0 E1 E2 Hhi.
    apply process_index_to_vectors_none
      with (gdf := {| geometry := []; area_ha := Some []; gdf_crs := crs meta |});
      [|reflexivity].
    unfold layer_features. rewrite E0. simpl. rewrite E1. simpl. rewrite E2. simpl.
    unfold region_size_filter in E2.
    destruct (min_area_ha proc) as [lo|] eqn:Hlo; [|discriminate].
    apply vectorize_and_filter_empty with (lo := lo) (hi := hi); assumption.
  - intros name arr val_range proc out_dir fmt fs gdf.
    apply process_index_to_vectors_none.
Qed.

(** The all-zero 3 by 3 mask gives the empty Feature Set in the raster's
    CRS. *)
Lemma empty_results_propagate_witness :
  raster_to_polygons (np_zeros_like full3) meta100 =
    {| geometry := []; area_ha := None; gdf_crs := Some false |} /\
  compute_area_ha (raster_to_polygons (np_zeros_like full3) meta100) =
    Ok {| geometry := []; area_ha := Some []; gdf_crs := Some false |}.
Proof.
  assert (H : forall p, get false (np_zeros_like full3) p = false).
  { intros p. unfold np_zeros_like. rewrite get_false_tabulate.
    apply andb_false_r. }
  destruct (empty_results_propagate (np_zeros_like full3) meta100 H)
    as (H1 & H2 & _).
  split; [exact H1|]. rewrite H1. apply H2. reflexivity.
Defined.

(** ** Masks without 1-valued cells through the pipeline *)

Lemma disk_centre (radius : Z) : 0 < radius -> In (0, 0) (offsets (disk radius)).
Proof.
  intros Hr. unfold offsets.
  assert (Hsh : shape (disk radius) =
                (Z.to_nat (2 * radius + 1), Z.to_nat (2 * radius + 1))).
  { unfold disk. rewrite shape_tabulate. cbn [fst snd].
    destruct (Nat.eqb_spec (Z.to_nat (2 * radius + 1)) 0); [lia|reflexivity]. }
  rewrite Hsh. cbn [fst snd].
  rewrite Z2Nat.id by lia.
  replace ((2 * radius + 1) / 2) with radius
    by (apply Z.div_unique with 1; lia).
  apply in_map_iff. exists (radius, radius). cbn [fst snd]. split.
  - f_equal; lia.
  - apply filter_In. split.
    + apply in_all_cells, inb_spec. cbn [fst snd]. lia.
    + unfold disk. rewrite get_false_tabulate. apply andb_true_iff. split.
      * apply inb_spec. cbn [fst snd]. lia.
      * cbn [fst snd]. apply Z.leb_le. rewrite !Z.sub_diag. nia.
Qed.

Lemma shift_zero (p : cell) : shift p (0, 0) = p.
Proof. destruct p; unfold shift; simpl; f_equal; lia. Qed.

Lemma binary_morphology_no_ones (mask : grid bool) (open_radius close_radius : Z) :
  (forall p, get false mask p = false) ->
  forall p, get false (binary_morphology mask open_radius close_radius) p = false.
Proof.
  intros H. unfold binary_morphology.
  assert (Ho : forall p,
            get false (if 0 <? open_radius
                       then binary_opening mask (disk open_radius)
                       else mask) p = false).
  { intros p. destruct (0 <? open_radius); [|apply H].
    destruct (get false (binary_opening mask (disk open_radius)) p) eqn:E;
      [|reflexivity].
    apply opening_le in E. rewrite H in E. discriminate. }
  set (Y := if 0 <? open_radius then binary_opening mask (disk open_radius)
            else mask) in *.
  intros p. destruct (Z.ltb_spec 0 close_radius) as [Hc|Hc]; [|apply Ho].
  destruct (get false (binary_closing Y (disk close_radius)) p) eqn:E;
    [|reflexivity].
  unfold binary_closing in E. apply erosion_spec in E as [_ E].
  specialize (E (0, 0) (disk_centre close_radius Hc)).
  rewrite shift_zero in E. apply dilation_spec in E as (_ & d & _ & E).
  rewrite Ho in E. discriminate.
Qed.

Lemma size_filter_no_ones (mask : grid bool) (min_px : Z) :
  (forall p, get false mask p = false) ->
  forall p, get false (size_filter mask min_px) p = false.
Proof.
  intros H p. destruct (get false (size_filter mask min_px) p) eqn:E;
    [|reflexivity].
  apply size_filter_spec in E as [E _]. rewrite H in E. discriminate.
Qed.

Lemma np_and_no_ones (a b m : grid bool) :
  (forall p, get false a p = false) -> np_and a b = Ok m ->
  forall p, get false m p = false.
Proof.
  intros H. unfold np_and.
  destruct (shape_eqb (shape a) (shape b)).
  - intros [= <-] p. rewrite get_false_tabulate, H. apply andb_false_r.
  - destruct (broadcast_dim (fst (shape a)) (fst (shape b))) as [h|]; [|discriminate].
    destruct (broadcast_dim (snd (shape a)) (snd (shape b))) as [w|]; [|discriminate].
    intros [= <-] p. rewrite get_false_tabulate. unfold bget at 1. rewrite H.
    apply andb_false_r.
Qed.

Lemma mask_builder_inverted (arr : grid fval) (lo hi : fval) :
  fgt (f32 lo) (f32 hi) = true ->
  exists mask,
    mask_builder arr (lo, hi) = Ok mask /\ shape mask = shape arr /\
    forall p, get false mask p = false.
Proof.
  intros H. eexists. split; [apply mask_builder_ok|].
  split; [apply shape_tabulate_shape|].
  intros p. rewrite get_false_tabulate. unfold in_range_at. cbn [fst snd].
  rewrite (inverted_range_cell _ _ _ H). apply andb_false_r.
Qed.

(** The samples an inverted range selects: those equal to both ends of the
    range, once the ends are converted to float32. *)
Lemma inverted_range_selects (lo hi v : fval) :
  fgt lo hi = true ->
  fge v (f32 lo) && fle v (f32 hi) = true ->
  feq (f32 lo) (f32 hi) = true /\ feq v (f32 lo) = true.
Proof.
  intros H Hv. apply fgt_fle, f32_mono in H.
  apply andb_true_iff in Hv as [V1 V2]. unfold fge in V1. unfold feq.
  rewrite (fle_trans _ _ _ V1 V2), H, V1, (fle_trans _ _ _ V2 H).
  split; reflexivity.
Qed.

Section EmptyLayer.
Context {G : GeoLib}.

(** A thresholded mask without 1-valued cells gives the empty Feature
    Set. *)
Lemma layer_features_no_ones (arr : grid fval) (meta : Meta)
  (val_range : fval * fval) (proc : Proc) (mask : grid bool)
  (ro rc : Z) (lo hi : Q) (min_px : Z) :
  mask_builder arr val_range = Ok mask ->
  (forall p, get false mask p = false) ->
  morph_open_radius proc = Some ro -> morph_close_radius proc = Some rc ->
  min_area_ha proc = Some lo -> max_area_ha proc = Some hi ->
  min_pixels lo (transform meta) = Ok min_px ->
  layer_features arr meta val_range proc =
  Ok {| geometry := []; area_ha := Some []; gdf_crs := crs meta |}.
Proof.
  intros Em H Hro Hrc Hlo Hhi Hpx. unfold layer_features. rewrite Em. simpl.
  unfold clean_mask. rewrite Hro, Hrc. simpl.
  unfold region_size_filter. rewrite Hlo. simpl.
  rewrite Hpx. simpl.
  apply vectorize_and_filter_empty with (lo := lo) (hi := hi); try assumption.
  apply size_filter_no_ones, binary_morphology_no_ones, H.
Qed.

End EmptyLayer.

(** C10 (as the code has it): an inverted range (lo > hi) is not rejected:
    for every raster the Mask Builder raises nothing and returns a mask of
    the raster's shape.  A cell of that mask is 1 only if the two ends of
    the range are one float32 value once converted and the sample equals
    it; when the converted ends differ (lo32 > hi32) the mask is all zero,
    the layer run, with the processing parameters present and the minimum
    pixel count computed, returns the no-result value without an error and
    without writing, and a combined mask whose first range it is has no
    1-valued cell either. *)
Theorem inverted_range_gives_empty_result {G : GeoLib} (name : string)
  (arr : grid fval) (meta : Meta) (lo hi : fval) (proc : Proc)
  (out_dir fmt : string) (fs : FS) (ro rc : Z) (min_area max_area : Q)
  (min_px : Z) :
  fgt lo hi = true ->
  morph_open_radius proc = Some ro -> morph_close_radius proc = Some rc ->
  min_area_ha proc = Some min_area -> max_area_ha proc = Some max_area ->
  min_pixels min_area (transform meta) = Ok min_px ->
  exists mask,
    mask_builder arr (lo, hi) = Ok mask /\ shape mask = shape arr /\
    (forall p, get false mask p = true ->
       feq (f32 lo) (f32 hi) = true /\ feq (get NaN arr p) (f32 lo) = true) /\
    (fgt (f32 lo) (f32 hi) = true ->
     (forall p, get false mask p = false) /\
     process_index_to_vectors name arr meta (lo, hi) proc out_dir fmt fs =
       (Ok None, fs) /\
     (forall gndvi evi2 combined,
        ndvi_range proc = Some (lo, hi) ->
        combined_mask arr gndvi evi2 proc = Ok combined ->
        forall p, get false combined p = false)).
Proof.
  intros Hinv Hro Hrc Hlo Hhi Hpx.
  eexists. split; [apply mask_builder_ok|].
  split; [apply shape_tabulate_shape|]. split.
  { intros p Hp. rewrite get_false_tabulate in Hp.
    apply andb_true_iff in Hp as [_ Hp].
    apply (inverted_range_selects lo hi _ Hinv). exact Hp. }
  intros Hinv32.
  destruct (mask_builder_inverted arr lo hi Hinv32) as (mask & Em & Hs & Hz).
  rewrite mask_builder_ok in Em. injection Em as <-.
  split; [exact Hz|]. split.
  - apply process_index_to_vectors_none
      with (gdf := {| geometry := []; area_ha := Some []; gdf_crs := crs meta |});
      [|reflexivity].
    eapply layer_features_no_ones; try eassumption. apply mask_builder_ok.
  - intros gndvi evi2 combined Hr. unfold combined_mask. rewrite Hr.
    cbn [lookup bindR fst snd].
    change (np_and (np_ge arr lo) (np_le arr hi)) with (mask_builder arr (lo, hi)).
    rewrite mask_builder_ok. cbn [bindR].
    destruct (gndvi_range proc) as [r2|]; [|discriminate]. cbn [lookup bindR].
    destruct (np_and _ (np_ge gndvi (fst r2))) as [m1|] eqn:E1; [|discriminate].
    cbn [bindR].
    destruct (np_and m1 (np_le gndvi (snd r2))) as [m2|] eqn:E2; [|discriminate].
    cbn [bindR].
    destruct (evi2_range proc) as [r3|]; [|discriminate]. cbn [lookup bindR].
    destruct (np_and m2 (np_ge evi2 (fst r3))) as [m3|] eqn:E3; [|discriminate].
    cbn [bindR]. intros E4.
    eapply np_and_no_ones; [|exact E4].
    eapply np_and_no_ones; [|exact E3].
    eapply np_and_no_ones; [|exact E2].
    eapply np_and_no_ones; [|exact E1]. exact Hz.
Qed.

(** The range from 1 down to 0.5 on the five-sample layer: the ends differ
    as float32 values, the mask is all zero, there is no result and nothing
    is written. *)
Lemma inverted_range_gives_empty_result_witness :
  fgt (Fin 1) (Fin (1#2)) = true /\
  mask_builder layer_row5 (Fin 1, Fin (1#2)) =
    Ok [[false; false; false; false; false]] /\
  process_index_to_vectors "NDVI" layer_row5 meta100 (Fin 1, Fin (1#2))
    (proc_of 5 10) "out" "GPKG" fs_empty = (Ok None, fs_empty).
Proof.
  split; [reflexivity|].
  destruct (inverted_range_gives_empty_result "NDVI" layer_row5 meta100 (Fin 1)
              (Fin (1#2)) (proc_of 5 10) "out" "GPKG" fs_empty 0 0 5 10 5)
    as (mask & Em & _ & _ & H); try reflexivity.
  split; [vm_compute; reflexivity|].
  apply H. reflexivity.
Defined.

(** The inverted range from the Python float 0.60000001 down to 0.6 on a
    raster of five samples holding the float32 nearest to 0.6: both ends
    become that float32, every sample is selected, and the layer run writes
    a result. *)
Lemma inverted_range_selects_samples :
  fgt just_above_06 (Fin (double (6#10))) = true /\
  mask_builder [[sample_06; sample_06; sample_06; sample_06; sample_06]]
    (just_above_06, Fin (double (6#10))) =
    Ok [[true; true; true; true; true]] /\
  exists gdf fs',
    process_index_to_vectors "NDVI"
      [[sample_06; sample_06; sample_06; sample_06; sample_06]] meta100
      (just_above_06, Fin (double (6#10))) (proc_of 5 10) "out" "GPKG" fs_empty =
      (Ok (Some ("out/NDVI_polygons.gpkg"%string, gdf)), fs') /\
    gdf_empty gdf = false /\
    map ds_path (datasets fs') = ["out/NDVI_polygons.gpkg"%string].
Proof.
  split; [vm_compute; reflexivity|]. split; [vm_compute; reflexivity|].
  eexists. eexists. split; [vm_compute; reflexivity|].
  split; reflexivity.
Qed.

(** Three 2 by 2 layers: only the top-left cell is within all ranges. *)
Lemma combined_mask_is_and_witness :
  exists A B C combined,
    mask_builder layer_a (Fin (1#2), Fin 1) = Ok A /\
    mask_builder layer_b (Fin (1#2), Fin 1) = Ok B /\
    mask_builder layer_c (Fin (1#2), Fin 1) = Ok C /\
    combined_mask layer_a layer_b layer_c (proc_of 5 10) = Ok combined /\
    bindR (np_and A B) (fun ab => np_and ab C) = Ok combined /\
    combined = [[true; false]; [false; false]].
Proof.
  destruct (combined_mask_is_and layer_a layer_b layer_c (proc_of 5 10)
              (Fin (1#2), Fin 1) (Fin (1#2), Fin 1) (Fin (1#2), Fin 1)
              eq_refl eq_refl eq_refl eq_refl eq_refl)
    as (A & B & C & combined & HA & HB & HC & Hc & Hand & _).
  exists A, B, C, combined. repeat (split; [assumption|]).
  vm_compute in Hc. injection Hc as <-. reflexivity.
Defined.

Lemma ceiling_spec (x : Q) :
  (x <= inject_Z (ceiling x))%Q /\ (inject_Z (ceiling x - 1) < x)%Q.
Proof.
  destruct x as [n d]. unfold Qle, Qlt, ceiling. simpl.
  pose proof (Z.mul_div_le (- n) (Z.pos d) ltac:(lia)).
  pose proof (Z.mul_succ_div_gt (- n) (Z.pos d) ltac:(lia)).
  split; nia.
Qed.

(** ** Configurations the run does not check *)

Lemma select_none {A B} (c : B -> bool) (l1 : list A) (l2 : list B) :
  (forall x, c x = false) -> select (map c l2) l1 = [].
Proof.
  intros H. revert l1. induction l2 as [|b l2 IH]; intros l1; simpl.
  - destruct l1; reflexivity.
  - destruct l1 as [|a l1]; [reflexivity|]. rewrite H. apply IH.
Qed.

Section Unchecked.
Context {G : GeoLib}.

Lemma compute_area_ha_some (gdf : GeoDataFrame) (c : CRS) :
  gdf_crs gdf = Some c ->
  exists out areas, compute_area_ha gdf = Ok out /\ area_ha out = Some areas.
Proof.
  intros Hc. unfold compute_area_ha.
  destruct (gdf_empty gdf); [eexists; eexists; split; reflexivity|].
  rewrite Hc. eexists; eexists; split; reflexivity.
Qed.

(** With max_area_ha below min_area_ha the final filter keeps nothing. *)
Lemma vectorize_and_filter_inverted_area (clean : grid bool) (meta : Meta)
  (proc : Proc) (lo hi : Q) (c : CRS) :
  min_area_ha proc = Some lo -> max_area_ha proc = Some hi -> (hi < lo)%Q ->
  crs meta = Some c ->
  exists gdf,
    vectorize_and_filter clean meta proc = Ok gdf /\ gdf_empty gdf = true.
Proof.
  intros Hlo Hhi Hlt Hc. unfold vectorize_and_filter.
  destruct (compute_area_ha_some (raster_to_polygons clean meta) c)
    as (out & areas & E & Ha).
  { unfold raster_to_polygons.
    destruct (map fst _); exact Hc. }
  rewrite E. simpl. unfold area_filter. rewrite Ha, Hlo, Hhi. simpl.
  eexists. split; [reflexivity|]. unfold gdf_empty. simpl.
  rewrite select_none; [reflexivity|].
  intros x. destruct (Qle_bool lo x) eqn:E1; [|reflexivity].
  destruct (Qle_bool x hi) eqn:E2; [|reflexivity].
  apply Qle_bool_iff in E1, E2. exfalso.
  apply (Qlt_not_le _ _ Hlt). eapply Qle_trans; eassumption.
Qed.

Lemma clean_mask_ok (mask : grid bool) (proc : Proc) (ro rc : Z) :
  morph_open_radius proc = Some ro -> morph_close_radius proc = Some rc ->
  clean_mask mask proc = Ok (binary_morphology mask ro rc).
Proof. intros H1 H2. unfold clean_mask. rewrite H1, H2. reflexivity. Qed.

Lemma region_size_filter_ok (mask : grid bool) (meta : Meta) (proc : Proc)
  (lo : Q) (min_px : Z) :
  min_area_ha proc = Some lo -> min_pixels lo (transform meta) = Ok min_px ->
  region_size_filter mask meta proc = Ok (size_filter mask min_px).
Proof.
  intros Hlo Hpx. unfold region_size_filter. rewrite Hlo. simpl.
  rewrite Hpx. reflexivity.
Qed.

Lemma layer_features_inverted_area (arr : grid fval) (meta : Meta)
  (val_range : fval * fval) (proc : Proc) (ro rc : Z) (lo hi : Q) (c : CRS)
  (min_px : Z) :
  morph_open_radius proc = Some ro -> morph_close_radius proc = Some rc ->
  min_area_ha proc = Some lo -> max_area_ha proc = Some hi -> (hi < lo)%Q ->
  min_pixels lo (transform meta) = Ok min_px -> crs meta = Some c ->
  exists gdf,
    layer_features arr meta val_range proc = Ok gdf /\ gdf_empty gdf = true.
Proof.
  intros Hro Hrc Hlo Hhi Hlt Hpx Hc. unfold layer_features.
  rewrite mask_builder_ok. cbn [bindR].
  rewrite (clean_mask_ok _ _ _ _ Hro Hrc). cbn [bindR].
  rewrite (region_size_filter_ok _ _ _ _ _ Hlo Hpx). cbn [bindR].
  eapply vectorize_and_filter_inverted_area; eassumption.
Qed.

Lemma combined_features_inverted_area (ndvi gndvi evi2 : grid fval)
  (meta : Meta) (proc : Proc) (r1 r2 r3 : fval * fval) (ro rc : Z)
  (lo hi : Q) (c : CRS) (min_px : Z) :
  shape gndvi = shape ndvi -> shape evi2 = shape ndvi ->
  ndvi_range proc = Some r1 -> gndvi_range proc = Some r2 ->
  evi2_range proc = Some r3 ->
  morph_open_radius proc = Some ro -> morph_close_radius proc = Some rc ->
  min_area_ha proc = Some lo -> max_area_ha proc = Some hi -> (hi < lo)%Q ->
  min_pixels lo (transform meta) = Ok min_px -> crs meta = Some c ->
  exists gdf,
    combined_features ndvi gndvi evi2 meta proc = Ok gdf /\ gdf_empty gdf = true.
Proof.
  intros E2 E3 H1 H2 H3 Hro Hrc Hlo Hhi Hlt Hpx Hc. unfold combined_features.
  rewrite (combined_mask_tabulate _ _ _ _ r1 r2 r3 E2 E3 H1 H2 H3). cbn [bindR].
  rewrite (clean_mask_ok _ _ _ _ Hro Hrc). cbn [bindR].
  rewrite (region_size_filter_ok _ _ _ _ _ Hlo Hpx). cbn [bindR].
  eapply vectorize_and_filter_inverted_area; eassumption.
Qed.

(** [run] ends with the combined Feature Set. *)
Lemma run_spec (cfg : Config) (ndvi gndvi evi2 : grid fval) (meta m2 m3 : Meta)
  (fs : FS) :
  run cfg (ndvi, meta) (gndvi, m2) (evi2, m3) fs =
  (let proc := processing cfg in
   let outdir := os_path_join (output_dir cfg) "polygons" in
   let fmt := vector_format cfg in
   r <- lift (lookup "ndvi_range" (ndvi_range proc)) ;;
   ndvi_res <- process_index_to_vectors "NDVI" ndvi meta r proc outdir fmt ;;
   r <- lift (lookup "gndvi_range" (gndvi_range proc)) ;;
   gndvi_res <- process_index_to_vectors "GNDVI" gndvi meta r proc outdir fmt ;;
   r <- lift (lookup "evi2_range" (evi2_range proc)) ;;
   evi2_res <- process_index_to_vectors "EVI2" evi2 meta r proc outdir fmt ;;
   let results :=
     record_result (record_result (record_result [] "NDVI" ndvi_res)
                                  "GNDVI" gndvi_res) "EVI2" evi2_res in
   palm_gdf <- lift (combined_features ndvi gndvi evi2 meta proc) ;;
   if gdf_empty palm_gdf then ret results
   else
     _ <- makedirs outdir ;;
     let palm_path := os_path_join outdir (out_file "Palm_Combined" fmt) in
     _ <- to_file palm_gdf palm_path (out_driver fmt) ;;
     ret (results ++ [("Palm_Combined"%string, palm_path)])) fs.
Proof.
  unfold run, combined_features. cbv zeta. unfold bind, lift.
  destruct (lookup "ndvi_range" (ndvi_range (processing cfg))) as [v1|]; [|reflexivity].
  destruct (process_index_to_vectors "NDVI" ndvi meta v1 _ _ _ fs) as [[res1|] fs1];
    [|reflexivity].
  destruct (lookup "gndvi_range" (gndvi_range (processing cfg))) as [v2|]; [|reflexivity].
  destruct (process_index_to_vectors "GNDVI" gndvi meta v2 _ _ _ fs1) as [[res2|] fs2];
    [|reflexivity].
  destruct (lookup "evi2_range" (evi2_range (processing cfg))) as [v3|]; [|reflexivity].
  destruct (process_index_to_vectors "EVI2" evi2 meta v3 _ _ _ fs2) as [[res3|] fs3];
    [|reflexivity].
  destruct (combined_mask ndvi gndvi evi2 (processing cfg)) as [m|]; [|reflexivity].
  cbn [bindR].
  destruct (clean_mask m (processing cfg)) as [m'|]; [|reflexivity].
  cbn [bindR].
  destruct (region_size_filter m' meta (processing cfg)) as [c|]; [|reflexivity].
  cbn [bindR].
  destruct (vectorize_and_filter c meta (processing cfg)) as [gdf|]; reflexivity.
Qed.

End Unchecked.

(** C3 (as the code has it): the run validates nothing and never raises a
    configuration error.  The metadata of the second and third rasters is
    not compared with the first: the run does not depend on it.  With
    max_area_ha below min_area_ha the run completes normally with an empty
    result mapping and writes nothing, provided nothing else fails: the
    three layers have one shape, the first raster carries a CRS, the
    minimum pixel count can be computed (a non-zero pixel area and a
    finite quotient) and the other parameters are present.  A missing
    threshold range raises a key error naming the missing key when that
    layer's turn comes, after the earlier layers have been processed and
    their results written. *)
Theorem run_performs_no_validation {G : GeoLib} (cfg : Config)
  (ndvi gndvi evi2 : grid fval) (meta m2 m3 : Meta) (fs : FS) :
  (forall m2' m3',
     run cfg (ndvi, meta) (gndvi, m2) (evi2, m3) fs =
     run cfg (ndvi, meta) (gndvi, m2') (evi2, m3') fs) /\
  (forall r1 r2 r3 ro rc lo hi c min_px,
     shape gndvi = shape ndvi -> shape evi2 = shape ndvi ->
     ndvi_range (processing cfg) = Some r1 ->
     gndvi_range (processing cfg) = Some r2 ->
     evi2_range (processing cfg) = Some r3 ->
     morph_open_radius (processing cfg) = Some ro ->
     morph_close_radius (processing cfg) = Some rc ->
     min_area_ha (processing cfg) = Some lo ->
     max_area_ha (processing cfg) = Some hi ->
     (hi < lo)%Q ->
     min_pixels lo (transform meta) = Ok min_px -> crs meta = Some c ->
     run cfg (ndvi, meta) (gndvi, m2) (evi2, m3) fs = (Ok [], fs)) /\
  (ndvi_range (processing cfg) = None ->
   run cfg (ndvi, meta) (gndvi, m2) (evi2, m3) fs =
   (Raise (KeyError "ndvi_range"), fs)) /\
  (forall r1 res fs1,
     ndvi_range (processing cfg) = Some r1 ->
     gndvi_range (processing cfg) = None ->
     process_index_to_vectors "NDVI" ndvi meta r1 (processing cfg)
       (os_path_join (output_dir cfg) "polygons") (vector_format cfg) fs =
       (Ok res, fs1) ->
     run cfg (ndvi, meta) (gndvi, m2) (evi2, m3) fs =
     (Raise (KeyError "gndvi_range"), fs1)) /\
  (forall r1 r2 res1 res2 fs1 fs2,
     ndvi_range (processing cfg) = Some r1 ->
     gndvi_range (processing cfg) = Some r2 ->
     evi2_range (processing cfg) = None ->
     process_index_to_vectors "NDVI" ndvi meta r1 (processing cfg)
       (os_path_join (output_dir cfg) "polygons") (vector_format cfg) fs =
       (Ok res1, fs1) ->
     process_index_to_vectors "GNDVI" gndvi meta r2 (processing cfg)
       (os_path_join (output_dir cfg) "polygons") (vector_format cfg) fs1 =
       (Ok res2, fs2) ->
     run cfg (ndvi, meta) (gndvi, m2) (evi2, m3) fs =
     (Raise (KeyError "evi2_range"), fs2)).
Proof.
  split; [intros m2' m3'; reflexivity|].
  split; [|split; [|split]].
  - intros r1 r2 r3 ro rc lo hi c min_px E2 E3 H1 H2 H3 Hro Hrc Hlo Hhi Hlt Hpx Hc.
    rewrite run_spec. cbv zeta. unfold bind at 1. rewrite H1. cbn [lift lookup].
    destruct (layer_features_inverted_area ndvi meta r1 (processing cfg)
                ro rc lo hi c min_px Hro Hrc Hlo Hhi Hlt Hpx Hc) as (g1 & L1 & N1).
    destruct (layer_features_inverted_area gndvi meta r2 (processing cfg)
                ro rc lo hi c min_px Hro Hrc Hlo Hhi Hlt Hpx Hc) as (g2 & L2 & N2).
    destruct (layer_features_inverted_area evi2 meta r3 (processing cfg)
                ro rc lo hi c min_px Hro Hrc Hlo Hhi Hlt Hpx Hc) as (g3 & L3 & N3).
    destruct (combined_features_inverted_area ndvi gndvi evi2 meta
                (processing cfg) r1 r2 r3 ro rc lo hi c min_px
                E2 E3 H1 H2 H3 Hro Hrc Hlo Hhi Hlt Hpx Hc) as (g4 & L4 & N4).
    unfold bind at 1.
    rewrite (process_index_to_vectors_none _ _ _ _ _ _ _ _ g1 L1 N1).
    unfold bind at 1. rewrite H2. cbn [lift lookup].
    unfold bind at 1.
    rewrite (process_index_to_vectors_none _ _ _ _ _ _ _ _ g2 L2 N2).
    unfold bind at 1. rewrite H3. cbn [lift lookup].
    unfold bind at 1.
    rewrite (process_index_to_vectors_none _ _ _ _ _ _ _ _ g3 L3 N3).
    unfold bind at 1. rewrite L4. cbn [lift]. rewrite N4. reflexivity.
  - intros H1. unfold run, bind, lift. rewrite H1. reflexivity.
  - intros r1 res fs1 H1 H2 Hp. unfold run. unfold bind at 1. rewrite H1.
    cbn [lift lookup]. unfold bind at 1. rewrite Hp.
    unfold bind at 1. rewrite H2. reflexivity.
  - intros r1 r2 res1 res2 fs1 fs2 H1 H2 H3 Hp1 Hp2. unfold run.
    unfold bind at 1. rewrite H1. cbn [lift lookup].
    unfold bind at 1. rewrite Hp1.
    unfold bind at 1. rewrite H2. cbn [lift lookup].
    unfold bind at 1. rewrite Hp2.
    unfold bind at 1. rewrite H3. reflexivity.
Qed.

(** min_area_ha = 10 and max_area_ha = 5: the run returns the empty
    mapping. *)
Lemma run_performs_no_validation_witness :
  run (cfg_of 10 5) (layer_row5, meta100) (layer_row5, meta100)
      (layer_row5, meta100) fs_empty = (Ok [], fs_empty).
Proof.
  destruct (run_performs_no_validation (cfg_of 10 5)
              layer_row5 layer_row5 layer_row5 meta100 meta100 meta100 fs_empty)
    as (_ & H & _).
  apply (H (Fin (1#2), Fin 1) (Fin (1#2), Fin 1) (Fin (1#2), Fin 1)
           0 0 10%Q 5%Q false 10); reflexivity.
Defined.

(** Three configurations the specification calls configuration errors:
    max_area_ha below min_area_ha ends normally with no result; a second
    raster in another CRS and at another place ends normally with all four
    results; a missing GNDVI range raises a key error after the NDVI result
    has been written. *)
Lemma run_raises_no_configuration_error :
  run (cfg_of 10 5) (layer_row5, meta100) (layer_row5, meta100)
      (layer_row5, meta100) fs_empty = (Ok [], fs_empty) /\
  fst (run (cfg_of 5 10) (layer_row5, meta100) (layer_row5, meta_deg)
           (layer_row5, meta100) fs_empty) =
    Ok [("NDVI", "out/polygons/NDVI_polygons.gpkg");
        ("GNDVI", "out/polygons/GNDVI_polygons.gpkg");
        ("EVI2", "out/polygons/EVI2_polygons.gpkg");
        ("Palm_Combined", "out/polygons/Palm_Combined.gpkg")]%string /\
  run cfg_without_gndvi (layer_row5, meta100) (layer_row5, meta100)
      (layer_row5, meta100) fs_empty =
    (Raise (KeyError "gndvi_range"),
     {| dirs := ["out/polygons"%string];
        datasets := [{| ds_path := "out/polygons/NDVI_polygons.gpkg";
                        ds_driver := "GPKG";
                        ds_frame := gdf_row5 |}] |}).
Proof. vm_compute. repeat split; reflexivity. Qed.

(** * Further properties of the engine *)

(** ** The disk and the cleaner *)

(** X1: [disk(radius)], for a radius of 0 or more, is the square array of
    side [2*radius + 1] whose 1-valued cells are exactly those at Euclidean
    distance at most [radius] from the centre; the element is therefore
    symmetric about its centre and holds it. *)
Theorem disk_is_euclidean_ball (radius : Z) (d : cell) :
  0 <= radius ->
  shape (disk radius) = (Z.to_nat (2 * radius + 1), Z.to_nat (2 * radius + 1)) /\
  (In d (offsets (disk radius)) <->
   fst d * fst d + snd d * snd d <= radius * radius) /\
  (In d (offsets (disk radius)) -> In (- fst d, - snd d) (offsets (disk radius))) /\
  In (0, 0) (offsets (disk radius)).
Proof.
  intros Hr. split; [apply shape_disk; exact Hr|].
  split; [apply disk_offsets_spec; exact Hr|]. split.
  - rewrite !disk_offsets_spec by exact Hr. cbn [fst snd]. lia.
  - apply disk_offsets_spec; [exact Hr|]. cbn [fst snd]. nia.
Qed.

(** The disk of radius 2 holds the offset (1, 1) and not (2, 1). *)
Lemma disk_is_euclidean_ball_witness :
  In (1, 1) (offsets (disk 2)) /\ ~ In (2, 1) (offsets (disk 2)).
Proof.
  destruct (disk_is_euclidean_ball 2 (1, 1) ltac:(lia)) as (_ & H1 & _).
  destruct (disk_is_euclidean_ball 2 (2, 1) ltac:(lia)) as (_ & H2 & _).
  split.
  - apply H1. cbn [fst snd]. lia.
  - intros H. apply H2 in H. cbn [fst snd] in H. lia.
Defined.

Lemma shape_binary_morphology (mask : grid bool) (ro rc : Z) :
  shape (binary_morphology mask ro rc) = shape mask.
Proof.
  unfold binary_morphology.
  destruct (0 <? ro), (0 <? rc);
    rewrite ?shape_closing, ?shape_opening; reflexivity.
Qed.

Lemma binary_morphology_mono (X Y : grid bool) (ro rc : Z) :
  shape X = shape Y -> grid_le X Y ->
  grid_le (binary_morphology X ro rc) (binary_morphology Y ro rc).
Proof.
  intros E H. unfold binary_morphology.
  destruct (0 <? ro), (0 <? rc).
  - apply closing_mono; [rewrite !shape_opening; exact E|].
    apply opening_mono; assumption.
  - apply opening_mono; assumption.
  - apply closing_mono; assumption.
  - exact H.
Qed.

(** X2: the Morphological Cleaner keeps the shape of the mask and is
    monotone: on two masks of one shape, one contained in the other, the
    cleaned masks are contained in the same way, for every pair of
    radii. *)
Theorem binary_morphology_monotone (mask mask' : grid bool)
  (open_radius close_radius : Z) :
  shape mask = shape mask' -> grid_le mask mask' ->
  shape (binary_morphology mask open_radius close_radius) =
    shape (binary_morphology mask' open_radius close_radius) /\
  grid_le (binary_morphology mask open_radius close_radius)
          (binary_morphology mask' open_radius close_radius) /\
  shape (binary_morphology mask open_radius close_radius) = shape mask.
Proof.
  intros E H. split; [|split].
  - rewrite !shape_binary_morphology. exact E.
  - apply binary_morphology_mono; assumption.
  - apply shape_binary_morphology.
Qed.

(** The centre cell is contained in the full 3 by 3 mask, and so are the
    cleaned masks. *)
Lemma binary_morphology_monotone_witness :
  grid_le (binary_morphology centre3 1 0) (binary_morphology full3 1 0).
Proof.
  apply (binary_morphology_monotone centre3 full3 1 0); [reflexivity|].
  intros p Hp. pose proof (get_true_inb _ _ Hp) as Hin.
  unfold get in *. rewrite Hin in *. change (shape full3) with (shape centre3).
  rewrite Hin. apply inb_spec in Hin. cbn in Hin.
  destruct p as [r c]; cbn [fst snd] in *.
  assert (Hr : r = 0 \/ r = 1 \/ r = 2) by lia.
  assert (Hc : c = 0 \/ c = 1 \/ c = 2) by lia.
  destruct Hr as [-> | [-> | ->]], Hc as [-> | [-> | ->]]; reflexivity.
Defined.

Lemma opening_ball_spec (X : grid bool) (radius : Z) (p : cell) :
  0 <= radius ->
  get false (binary_opening X (disk radius)) p = true <->
  exists c,
    (fst p - fst c) * (fst p - fst c) + (snd p - snd c) * (snd p - snd c)
      <= radius * radius /\
    forall q,
      (fst q - fst c) * (fst q - fst c) + (snd q - snd c) * (snd q - snd c)
        <= radius * radius ->
      get false X q = true.
Proof.
  intros Hr. unfold binary_opening. rewrite dilation_spec, shape_erosion. split.
  - intros (Hin & d & Hd & He). exists (unshift p d).
    apply disk_offsets_spec in Hd; [|exact Hr].
    apply erosion_spec in He as [_ He]. split.
    + unfold unshift. cbn [fst snd].
      replace (fst p - (fst p - fst d)) with (fst d) by lia.
      replace (snd p - (snd p - snd d)) with (snd d) by lia. exact Hd.
    + intros q Hq.
      specialize (He (unshift q (unshift p d))).
      replace (shift (unshift p d) (unshift q (unshift p d))) with q in He
        by (destruct p, q, d; unfold shift, unshift; cbn [fst snd]; f_equal; lia).
      apply He. apply disk_offsets_spec; [exact Hr|]. exact Hq.
  - intros (c & Hpc & Hall).
    assert (Hp : get false X p = true) by (apply Hall; exact Hpc).
    split; [apply get_true_inb; exact Hp|].
    exists (unshift p c). split.
    + apply disk_offsets_spec; [exact Hr|]. exact Hpc.
    + replace (unshift p (unshift p c)) with c
        by (destruct p, c; unfold unshift; cbn [fst snd]; f_equal; lia).
      apply erosion_spec. split.
      * apply get_true_inb. apply Hall. nia.
      * intros e He. apply Hall.
        apply disk_offsets_spec in He; [|exact Hr].
        unfold shift. cbn [fst snd].
        replace (fst c + fst e - fst c) with (fst e) by lia.
        replace (snd c + snd e - snd c) with (snd e) by lia. exact He.
Qed.

(** X3: when only the opening step runs (open_radius positive, close_radius
    0 or less), a cell of the cleaned mask is 1 exactly when it lies within
    distance open_radius of a cell whose whole disk of that radius is
    1-valued in the mask; so the cleaner only removes cells, and a 1-valued
    cell that is in no full disk disappears. *)
Theorem opening_keeps_full_disks (mask : grid bool) (open_radius close_radius : Z)
  (p : cell) :
  0 < open_radius -> close_radius <= 0 ->
  (get false (binary_morphology mask open_radius close_radius) p = true <->
   exists c,
     (fst p - fst c) * (fst p - fst c) + (snd p - snd c) * (snd p - snd c)
       <= open_radius * open_radius /\
     forall q,
       (fst q - fst c) * (fst q - fst c) + (snd q - snd c) * (snd q - snd c)
         <= open_radius * open_radius ->
       get false mask q = true) /\
  (get false (binary_morphology mask open_radius close_radius) p = true ->
   get false mask p = true).
Proof.
  intros Ho Hc. unfold binary_morphology.
  destruct (Z.ltb_spec 0 open_radius); [|lia].
  destruct (Z.ltb_spec 0 close_radius); [lia|].
  split; [apply opening_ball_spec; lia|apply opening_le].
Qed.

(** The centre of the full 3 by 3 mask survives the opening of radius 1,
    its cross being 1-valued; an isolated pixel does not. *)
Lemma opening_keeps_full_disks_witness :
  get false (binary_morphology full3 1 0) (1, 1) = true /\
  get false (binary_morphology centre3 1 0) (1, 1) = false.
Proof.
  split; [|reflexivity].
  apply (proj1 (opening_keeps_full_disks full3 1 0 (1, 1) ltac:(lia) ltac:(lia))).
  exists (1, 1). cbn [fst snd]. split; [lia|].
  intros [r c] H. cbn [fst snd] in H.
  assert (H1 : 0 <= (r - 1) * (r - 1)) by nia.
  assert (H2 : 0 <= (c - 1) * (c - 1)) by nia.
  assert (Hr : -1 <= r - 1 <= 1) by nia.
  assert (Hc : -1 <= c - 1 <= 1) by nia.
  assert (Hr' : r = 0 \/ r = 1 \/ r = 2) by lia.
  assert (Hc' : c = 0 \/ c = 1 \/ c = 2) by lia.
  destruct Hr' as [-> | [-> | ->]], Hc' as [-> | [-> | ->]]; reflexivity.
Defined.

Lemma closing_margin (X : grid bool) (radius : Z) (p : cell) :
  0 < radius ->
  get false (binary_closing X (disk radius)) p = true ->
  radius <= fst p < Z.of_nat (fst (shape X)) - radius /\
  radius <= snd p < Z.of_nat (snd (shape X)) - radius.
Proof.
  intros Hr H. unfold binary_closing in H. apply erosion_spec in H as [_ H].
  assert (Hd : forall d, fst d * fst d + snd d * snd d <= radius * radius ->
                         inb (shape X) (shift p d) = true).
  { intros d Hd. rewrite <- (shape_dilation (disk radius) X).
    apply get_true_inb, H. apply disk_offsets_spec; [lia|exact Hd]. }
  pose proof (Hd (radius, 0) ltac:(cbn [fst snd]; lia)) as H1.
  pose proof (Hd (- radius, 0) ltac:(cbn [fst snd]; lia)) as H2.
  pose proof (Hd (0, radius) ltac:(cbn [fst snd]; lia)) as H3.
  pose proof (Hd (0, - radius) ltac:(cbn [fst snd]; lia)) as H4.
  apply inb_spec in H1, H2, H3, H4. unfold shift in *. cbn [fst snd] in *. lia.
Qed.

(** X4: whenever the closing step runs (close_radius positive), every
    1-valued cell of the cleaned mask is at least close_radius cells away
    from each edge of the array: the cleaner blanks a border of that
    width, whatever the mask and the opening radius. *)
Theorem closing_blanks_border (mask : grid bool) (open_radius close_radius : Z)
  (p : cell) :
  0 < close_radius ->
  get false (binary_morphology mask open_radius close_radius) p = true ->
  close_radius <= fst p < Z.of_nat (fst (shape mask)) - close_radius /\
  close_radius <= snd p < Z.of_nat (snd (shape mask)) - close_radius.
Proof.
  intros Hc. unfold binary_morphology.
  destruct (Z.ltb_spec 0 close_radius); [|lia].
  intros Hp. apply closing_margin in Hp; [|exact Hc].
  destruct (0 <? open_radius); rewrite ?shape_opening in Hp; exact Hp.
Qed.

(** On the full 3 by 3 mask the closing of radius 1 keeps the centre, the
    only cell one step away from every edge. *)
Lemma closing_blanks_border_witness :
  get false (binary_morphology full3 0 1) (1, 1) = true /\
  1 <= 1 < Z.of_nat (fst (shape full3)) - 1 /\
  1 <= 1 < Z.of_nat (snd (shape full3)) - 1.
Proof.
  split; [reflexivity|].
  apply (closing_blanks_border full3 0 1 (1, 1)); [lia|reflexivity].
Defined.

(** ** More on the pixel-count filter *)

Lemma connected_mono (adj : cell -> cell -> Prop) (X Y : grid bool) (p q : cell) :
  grid_le X Y -> connected adj X p q -> connected adj Y p q.
Proof.
  intros H Hc. induction Hc as [p Hp|p q q' Hc IH Hq' Hadj].
  - apply connected_refl. apply H; exact Hp.
  - apply connected_step with q; [exact IH|apply H; exact Hq'|exact Hadj].
Qed.

Lemma shape_region (mask : grid bool) (i : nat) :
  shape (np_eq (fst (label mask)) i) = shape mask.
Proof.
  unfold np_eq. rewrite shape_tabulate_shape.
  unfold label, label_with. cbn [fst]. apply shape_tabulate_shape.
Qed.

Lemma region_size_filter_length (mask : grid bool) (p : cell) :
  region_size mask p =
  Z.of_nat (length (filter
     (get false (np_eq (fst (label mask)) (get 0%nat (fst (label mask)) p)))
     (all_cells (shape mask)))).
Proof. unfold region_size, np_sum, ones. rewrite shape_region. reflexivity. Qed.

Lemma size_filter_region_size (mask : grid bool) (min_px : Z) (p : cell) :
  get false (size_filter mask min_px) p = true <->
  get false mask p = true /\ min_px <= region_size mask p.
Proof. apply size_filter_spec. Qed.

Lemma region_size_mono (X Y : grid bool) (p : cell) :
  shape X = shape Y -> grid_le X Y -> get false X p = true ->
  region_size X p <= region_size Y p.
Proof.
  intros E H Hp. rewrite !region_size_filter_length, E.
  apply inj_le. apply filter_length_mono. intros q _ Hq.
  apply region_of_cell; [apply H; exact Hp|].
  apply connected_mono with X; [exact H|].
  apply region_of_cell; assumption.
Qed.

Lemma region_size_positive (X : grid bool) (p : cell) :
  get false X p = true -> 1 <= region_size X p.
Proof.
  intros Hp. rewrite region_size_filter_length.
  assert (Hin : In p (filter
            (get false (np_eq (fst (label X)) (get 0%nat (fst (label X)) p)))
            (all_cells (shape X)))).
  { apply filter_In. split.
    - apply in_all_cells, get_true_inb; exact Hp.
    - apply region_of_cell; [exact Hp|]. apply connected_refl; exact Hp. }
  destruct (filter _ _) as [|x l]; [destruct Hin|]. cbn [length]. lia.
Qed.

Lemma size_filter_mono (X Y : grid bool) (k k' : Z) :
  shape X = shape Y -> grid_le X Y -> k' <= k ->
  grid_le (size_filter X k) (size_filter Y k').
Proof.
  intros E H Hk p Hp. apply size_filter_region_size in Hp as [Hp Hs].
  apply size_filter_region_size. split; [apply H; exact Hp|].
  pose proof (region_size_mono X Y p E H Hp). lia.
Qed.

(** X5: the pixel-count filter is monotone: a mask contained in another of
    the same shape, filtered with a minimum at least as large, gives a
    result contained in the other's; in particular the filter only removes
    cells and a larger minimum removes more. *)
Theorem size_filter_monotone (mask mask' : grid bool) (min_px min_px' : Z) :
  shape mask = shape mask' -> grid_le mask mask' -> min_px' <= min_px ->
  grid_le (size_filter mask min_px) (size_filter mask' min_px') /\
  grid_le (size_filter mask min_px) mask.
Proof.
  intros E H Hk. split; [apply size_filter_mono; assumption|].
  intros p Hp. apply size_filter_region_size in Hp. tauto.
Qed.

(** The five-pixel row filtered at 5 is inside itself filtered at 3. *)
Lemma size_filter_monotone_witness :
  grid_le (size_filter row5 5) (size_filter row5 3) /\
  size_filter row5 5 = row5 /\ size_filter row5 6 = [[false; false; false; false; false]].
Proof.
  split; [|split; reflexivity].
  apply (size_filter_monotone row5 row5 5 3); [reflexivity| |lia].
  intros p Hp; exact Hp.
Defined.

(** X6: with a minimum pixel count of 1 or less the filter keeps every
    1-valued cell: each region holds at least the cell itself. *)
Theorem size_filter_keeps_all (mask : grid bool) (min_px : Z) (p : cell) :
  min_px <= 1 ->
  get false (size_filter mask min_px) p = get false mask p.
Proof.
  intros Hk. apply eq_true_iff_eq. rewrite size_filter_region_size. split.
  - tauto.
  - intros Hp. split; [exact Hp|].
    pose proof (region_size_positive mask p Hp). lia.
Qed.

(** The two corner-touching pixels, each a region of one cell, stay with
    a minimum of 1 and go with a minimum of 2. *)
Lemma size_filter_keeps_all_witness :
  get false (size_filter diagonal_mask 1) (1, 1) = get false diagonal_mask (1, 1) /\
  size_filter diagonal_mask 1 = diagonal_mask /\
  size_filter diagonal_mask 2 = [[false; false]; [false; false]].
Proof.
  split; [|split; reflexivity].
  apply (size_filter_keeps_all diagonal_mask 1 (1, 1)). lia.
Defined.

Lemma tabulate_tabulated (sh : nat * nat) (f : cell -> bool) :
  tabulate sh f = tabulate (shape (tabulate sh f)) (get false (tabulate sh f)).
Proof.
  rewrite tabulate_reshape. apply tabulate_ext; intros p Hp.
  rewrite get_false_tabulate, Hp. reflexivity.
Qed.

Lemma keep_region_fold_tabulated (labeled : grid nat) (min_px : Z)
  (ls : list nat) (clean : grid bool) :
  clean = tabulate (shape clean) (get false clean) ->
  fold_left (keep_region labeled min_px) ls clean =
  tabulate (shape (fold_left (keep_region labeled min_px) ls clean))
           (get false (fold_left (keep_region labeled min_px) ls clean)).
Proof.
  revert clean. induction ls as [|i ls IH]; intros clean H; simpl; [exact H|].
  apply IH. unfold keep_region.
  destruct (min_px <=? np_sum (np_eq labeled i)); [|exact H].
  unfold assign_where. apply tabulate_tabulated.
Qed.

Lemma size_filter_tabulated (mask : grid bool) (min_px : Z) :
  size_filter mask min_px =
  tabulate (shape mask) (get false (size_filter mask min_px)).
Proof.
  pose proof (proj1 (size_filter_spec mask min_px)) as Hsh.
  rewrite <- Hsh. unfold size_filter, label, label_with. cbn [fst snd].
  apply keep_region_fold_tabulated. unfold np_zeros_like. apply tabulate_tabulated.
Qed.

Lemma region_size_connected (mask : grid bool) (p q : cell) :
  connected edge_adjacent mask p q -> region_size mask q = region_size mask p.
Proof.
  intros H. unfold region_size.
  pose proof cross_neighbours as Hn. pose proof edge_adjacent_sym as Hs.
  assert (E : get 0%nat (fst (label mask)) p = get 0%nat (fst (label mask)) q).
  { unfold label. rewrite !(get_labeled _ _ _ Hn).
    apply (label_connected _ _ _ Hn Hs).
    - eapply connected_left; exact H.
    - exact H. }
  rewrite E. reflexivity.
Qed.

(** A kept cell keeps its whole region. *)
Lemma size_filter_keeps_region (mask : grid bool) (min_px : Z) (p q : cell) :
  get false (size_filter mask min_px) p = true ->
  connected edge_adjacent mask p q ->
  connected edge_adjacent (size_filter mask min_px) p q.
Proof.
  intros Hp Hc. induction Hc as [p Hm|p q q' Hc IH Hq' Hadj].
  - apply connected_refl; exact Hp.
  - apply connected_step with q; [apply IH; exact Hp| |exact Hadj].
    apply size_filter_region_size. split; [exact Hq'|].
    apply size_filter_region_size in Hp as [_ Hs].
    rewrite (region_size_connected mask p q').
    + exact Hs.
    + apply connected_step with q; assumption.
Qed.

Lemma size_filter_idem (mask : grid bool) (min_px : Z) :
  size_filter (size_filter mask min_px) min_px = size_filter mask min_px.
Proof.
  pose proof (proj1 (size_filter_spec mask min_px)) as Hsh.
  assert (Hle : grid_le (size_filter mask min_px) mask).
  { intros p Hp. apply size_filter_region_size in Hp. tauto. }
  eapply grid_eq_tabulate with (sh := shape mask).
  - rewrite <- Hsh. apply size_filter_tabulated.
  - apply size_filter_tabulated.
  - intros p. split.
    + intros Hp. apply size_filter_region_size in Hp. tauto.
    + intros Hp. apply size_filter_region_size. split; [exact Hp|].
      pose proof Hp as Hp0. apply size_filter_region_size in Hp0 as [Hm Hs].
      assert (E : region_size (size_filter mask min_px) p = region_size mask p).
      { rewrite !region_size_filter_length, Hsh. f_equal. f_equal.
        apply filter_ext. intros q. apply eq_true_iff_eq.
        rewrite (region_of_cell _ p q Hp), (region_of_cell _ p q Hm). split.
        - apply connected_mono; exact Hle.
        - apply size_filter_keeps_region; exact Hp. }
      rewrite E. exact Hs.
Qed.

(** X7: the pixel-count filter is idempotent: the regions it keeps are kept
    whole, so filtering the filtered mask again with the same minimum
    changes nothing. *)
Theorem size_filter_idempotent (mask : grid bool) (min_px : Z) :
  size_filter (size_filter mask min_px) min_px = size_filter mask min_px /\
  (forall p q,
     get false (size_filter mask min_px) p = true ->
     connected edge_adjacent mask p q ->
     get false (size_filter mask min_px) q = true).
Proof.
  split; [apply size_filter_idem|].
  intros p q Hp Hc. eapply connected_right.
  apply size_filter_keeps_region; eassumption.
Qed.

(** ** The combined mask and the layers' masks *)

Section CombinedWithinLayers.
Context {G : GeoLib}.

Lemma layer_features_of_mask (arr : grid fval) (meta : Meta)
  (val_range : fval * fval) (proc : Proc) :
  layer_features arr meta val_range proc =
  bindR (layer_mask arr meta val_range proc)
        (fun clean => vectorize_and_filter clean meta proc).
Proof.
  unfold layer_features, layer_mask.
  destruct (mask_builder arr val_range) as [m|]; [|reflexivity]. cbn [bindR].
  destruct (clean_mask m proc) as [m'|]; reflexivity.
Qed.

Lemma combined_features_of_mask (ndvi gndvi evi2 : grid fval) (meta : Meta)
  (proc : Proc) :
  combined_features ndvi gndvi evi2 meta proc =
  bindR (combined_final_mask ndvi gndvi evi2 meta proc)
        (fun clean => vectorize_and_filter clean meta proc).
Proof.
  unfold combined_features, combined_final_mask.
  destruct (combined_mask ndvi gndvi evi2 proc) as [m|]; [|reflexivity].
  cbn [bindR]. destruct (clean_mask m proc) as [m'|]; reflexivity.
Qed.

(** Cleaning and filtering two masks of one shape, one inside the other. *)
Lemma clean_and_filter_mono (X Y F : grid bool) (meta : Meta) (proc : Proc) :
  shape X = shape Y -> grid_le X Y ->
  bindR (clean_mask X proc) (fun m => region_size_filter m meta proc) = Ok F ->
  exists L,
    bindR (clean_mask Y proc) (fun m => region_size_filter m meta proc) = Ok L /\
    grid_le F L.
Proof.
  intros E H. unfold clean_mask, region_size_filter.
  destruct (morph_open_radius proc) as [ro|]; [|discriminate].
  destruct (morph_close_radius proc) as [rc|]; [|discriminate].
  destruct (min_area_ha proc) as [lo|]; [|discriminate].
  cbn [lookup bindR].
  destruct (min_pixels lo (transform meta)) as [k|]; [|discriminate].
  cbn [bindR]. intros [= <-]. eexists. split; [reflexivity|].
  apply size_filter_mono; [| |lia].
  - rewrite !shape_binary_morphology. exact E.
  - apply binary_morphology_mono; assumption.
Qed.

End CombinedWithinLayers.

(** X9: for layers of one shape, the mask from which the combined result is
    vectorized is contained in the mask from which each layer's own result
    is vectorized: a cell that survives thresholding, cleaning and the
    pixel-count filter in the intersection survives them in every
    layer. *)
Theorem combined_mask_within_layers {G : GeoLib} (ndvi gndvi evi2 : grid fval)
  (meta : Meta) (proc : Proc) (r1 r2 r3 : fval * fval) (F : grid bool) :
  shape gndvi = shape ndvi -> shape evi2 = shape ndvi ->
  ndvi_range proc = Some r1 -> gndvi_range proc = Some r2 ->
  evi2_range proc = Some r3 ->
  combined_final_mask ndvi gndvi evi2 meta proc = Ok F ->
  combined_features ndvi gndvi evi2 meta proc = vectorize_and_filter F meta proc /\
  exists L1 L2 L3,
    layer_mask ndvi meta r1 proc = Ok L1 /\
    layer_mask gndvi meta r2 proc = Ok L2 /\
    layer_mask evi2 meta r3 proc = Ok L3 /\
    layer_features ndvi meta r1 proc = vectorize_and_filter L1 meta proc /\
    layer_features gndvi meta r2 proc = vectorize_and_filter L2 meta proc /\
    layer_features evi2 meta r3 proc = vectorize_and_filter L3 meta proc /\
    grid_le F L1 /\ grid_le F L2 /\ grid_le F L3.
Proof.
  intros E2 E3 H1 H2 H3 HF.
  split; [rewrite combined_features_of_mask, HF; reflexivity|].
  unfold combined_final_mask in HF.
  rewrite (combined_mask_tabulate _ _ _ _ r1 r2 r3 E2 E3 H1 H2 H3) in HF.
  cbn [bindR] in HF.
  set (C := tabulate (shape ndvi)
              (fun p => in_range_at ndvi r1 p && in_range_at gndvi r2 p &&
                        in_range_at evi2 r3 p)) in *.
  assert (HC : shape C = shape ndvi) by apply shape_tabulate_shape.
  assert (Hlayer : forall arr r,
            shape arr = shape ndvi ->
            (forall p, get false C p = true -> in_range_at arr r p = true) ->
            exists L, layer_mask arr meta r proc = Ok L /\
                      layer_features arr meta r proc = vectorize_and_filter L meta proc /\
                      grid_le F L).
  { intros arr r Ea Hin.
    destruct (clean_and_filter_mono C
                (tabulate (shape arr) (in_range_at arr r)) F meta proc)
      as (L & EL & HL).
    - rewrite HC, shape_tabulate_shape. symmetry; exact Ea.
    - intros p Hp. rewrite get_false_tabulate. apply andb_true_iff. split.
      + rewrite Ea, <- HC. apply get_true_inb; exact Hp.
      + apply Hin; exact Hp.
    - exact HF.
    - assert (EM : layer_mask arr meta r proc = Ok L).
      { unfold layer_mask. rewrite mask_builder_ok. cbn [bindR]. exact EL. }
      exists L. split; [exact EM|]. split; [|exact HL].
      rewrite layer_features_of_mask, EM. reflexivity. }
  assert (Hcell : forall p, get false C p = true ->
            in_range_at ndvi r1 p = true /\ in_range_at gndvi r2 p = true /\
            in_range_at evi2 r3 p = true).
  { intros p Hp. unfold C in Hp. rewrite get_false_tabulate in Hp.
    apply andb_true_iff in Hp as [_ Hp].
    apply andb_true_iff in Hp as [Hp Hp3].
    apply andb_true_iff in Hp as [Hp1 Hp2]. tauto. }
  destruct (Hlayer ndvi r1 eq_refl) as (L1 & M1 & V1 & G1);
    [intros p Hp; apply Hcell; exact Hp|].
  destruct (Hlayer gndvi r2 E2) as (L2 & M2 & V2 & G2);
    [intros p Hp; apply Hcell; exact Hp|].
  destruct (Hlayer evi2 r3 E3) as (L3 & M3 & V3 & G3);
    [intros p Hp; apply Hcell; exact Hp|].
  exists L1, L2, L3. repeat split; assumption.
Qed.

(** The three 2 by 2 layers with no minimum area: the combined mask holds
    the top-left cell, which every layer's mask holds too. *)
Lemma combined_mask_within_layers_witness :
  exists L1 L2 L3,
    layer_mask layer_a meta100 (Fin (1#2), Fin 1) (proc_of 0 1) = Ok L1 /\
    layer_mask layer_b meta100 (Fin (1#2), Fin 1) (proc_of 0 1) = Ok L2 /\
    layer_mask layer_c meta100 (Fin (1#2), Fin 1) (proc_of 0 1) = Ok L3 /\
    grid_le [[true; false]; [false; false]] L1 /\
    grid_le [[true; false]; [false; false]] L2 /\
    grid_le [[true; false]; [false; false]] L3.
Proof.
  destruct (combined_mask_within_layers layer_a layer_b layer_c meta100
              (proc_of 0 1) (Fin (1#2), Fin 1) (Fin (1#2), Fin 1)
              (Fin (1#2), Fin 1) [[true; false]; [false; false]]
              eq_refl eq_refl eq_refl eq_refl eq_refl eq_refl)
    as (_ & L1 & L2 & L3 & M1 & M2 & M3 & _ & _ & _ & G1 & G2 & G3).
  exists L1, L2, L3. repeat split; assumption.
Defined.

(** ** The result mapping and the datasets written *)

Section ResultsAndFiles.
Context {G : GeoLib}.

Lemma appends_write_result_nonempty (name : string) (gdf : GeoDataFrame)
  (out_dir fmt : string) :
  appends_only (fun g => gdf_empty g = false) (write_result name gdf out_dir fmt).
Proof.
  unfold write_result. destruct (gdf_empty gdf) eqn:E; [apply appends_ret|].
  apply appends_bind; [apply appends_makedirs|]. intros _.
  apply appends_bind; [apply appends_to_file; exact E|]. intros _.
  apply appends_ret.
Qed.

Lemma process_appends_nonempty (name : string) (arr : grid fval) (meta : Meta)
  (val_range : fval * fval) (proc : Proc) (out_dir fmt : string) :
  appends_only (fun g => gdf_empty g = false)
    (process_index_to_vectors name arr meta val_range proc out_dir fmt).
Proof.
  unfold process_index_to_vectors.
  apply appends_bind_lift; intros mask _.
  apply appends_bind_lift; intros mask' _.
  apply appends_bind_lift; intros clean _.
  apply appends_bind_lift; intros gdf _.
  apply (appends_write_result_nonempty name gdf out_dir fmt).
Qed.

Lemma run_appends_nonempty (cfg : Config) (r1 r2 r3 : grid fval * Meta) :
  appends_only (fun g => gdf_empty g = false) (run cfg r1 r2 r3).
Proof.
  unfold run. destruct r1 as [ndvi meta], r2 as [gndvi m2], r3 as [evi2 m3].
  apply appends_bind_lift; intros v1 _.
  apply appends_bind; [apply process_appends_nonempty|]. intros res1.
  apply appends_bind_lift; intros v2 _.
  apply appends_bind; [apply process_appends_nonempty|]. intros res2.
  apply appends_bind_lift; intros v3 _.
  apply appends_bind; [apply process_appends_nonempty|]. intros res3.
  apply appends_bind_lift; intros combined _.
  apply appends_bind_lift; intros combined' _.
  apply appends_bind_lift; intros final_mask _.
  apply appends_bind_lift; intros palm _.
  destruct (gdf_empty palm) eqn:E; [apply appends_ret|].
  apply appends_bind; [apply appends_makedirs|]. intros _.
  apply appends_bind; [apply appends_to_file; exact E|].
  intros _. apply appends_ret.
Qed.

(** What a layer run returns and what it wrote. *)
Lemma process_outcome (name : string) (arr : grid fval) (meta : Meta)
  (val_range : fval * fval) (proc : Proc) (out_dir fmt : string)
  (fs fs' : FS) (res : option (string * GeoDataFrame)) :
  process_index_to_vectors name arr meta val_range proc out_dir fmt fs =
    (Ok res, fs') ->
  (res = None /\ datasets fs' = datasets fs ++ []) \/
  (exists gdf,
     res = Some (os_path_join out_dir (out_file (name ++ "_polygons") fmt), gdf) /\
     datasets fs' = datasets fs ++
       [{| ds_path := os_path_join out_dir (out_file (name ++ "_polygons") fmt);
           ds_driver := out_driver fmt;
           ds_frame := gdf |}]).
Proof.
  rewrite process_index_to_vectors_spec.
  destruct (layer_features arr meta val_range proc) as [gdf|]; [|discriminate].
  unfold write_result. destruct (gdf_empty gdf).
  - intros [= <- <-]. left. split; [reflexivity|]. symmetry. apply app_nil_r.
  - unfold bind, makedirs, to_file, ret. cbn [fst snd dirs datasets].
    intros [= <- <-]. right. exists gdf. split; reflexivity.
Qed.

Lemma run_outcome (cfg : Config) (r1 r2 r3 : grid fval * Meta) (fs fs' : FS)
  (results : list (string * string)) :
  run cfg r1 r2 r3 fs = (Ok results, fs') ->
  exists keep written,
    length keep = 4%nat /\
    results = select keep (expected_results cfg) /\
    datasets fs' = datasets fs ++ written /\
    map snd results = map ds_path written.
Proof.
  destruct r1 as [ndvi meta], r2 as [gndvi m2], r3 as [evi2 m3].
  rewrite run_spec. cbv zeta. unfold bind at 1.
  destruct (lookup "ndvi_range" (ndvi_range (processing cfg))) as [v1|];
    cbn [lift]; [|discriminate].
  unfold bind at 1.
  destruct (process_index_to_vectors "NDVI" ndvi meta v1 _ _ _ fs)
    as [[res1|] fs1] eqn:P1; [|discriminate].
  unfold bind at 1.
  destruct (lookup "gndvi_range" (gndvi_range (processing cfg))) as [v2|];
    cbn [lift]; [|discriminate].
  unfold bind at 1.
  destruct (process_index_to_vectors "GNDVI" gndvi meta v2 _ _ _ fs1)
    as [[res2|] fs2] eqn:P2; [|discriminate].
  unfold bind at 1.
  destruct (lookup "evi2_range" (evi2_range (processing cfg))) as [v3|];
    cbn [lift]; [|discriminate].
  unfold bind at 1.
  destruct (process_index_to_vectors "EVI2" evi2 meta v3 _ _ _ fs2)
    as [[res3|] fs3] eqn:P3; [|discriminate].
  unfold bind at 1.
  destruct (combined_features ndvi gndvi evi2 meta (processing cfg)) as [palm|];
    cbn [lift]; [|discriminate].
  apply process_outcome in P1, P2, P3.
  unfold expected_results. cbv zeta.
  set (outdir := os_path_join (output_dir cfg) "polygons") in *.
  set (fmt := vector_format cfg) in *.
  destruct (gdf_empty palm) eqn:Ep.
  - unfold ret. intros [= <- <-].
    destruct P1 as [[-> F1]|(g1 & -> & F1)];
    destruct P2 as [[-> F2]|(g2 & -> & F2)];
    destruct P3 as [[-> F3]|(g3 & -> & F3)];
    rewrite F3, F2, F1, <- !app_assoc;
    [ exists [false; false; false; false]
    | exists [false; false; true; false]
    | exists [false; true; false; false]
    | exists [false; true; true; false]
    | exists [true; false; false; false]
    | exists [true; false; true; false]
    | exists [true; true; false; false]
    | exists [true; true; true; false] ];
    eexists; (split; [reflexivity|]); (split; [reflexivity|]);
    (split; [reflexivity|reflexivity]).
  - unfold bind, makedirs, to_file, ret. cbn [fst snd dirs datasets].
    intros [= <- <-].
    destruct P1 as [[-> F1]|(g1 & -> & F1)];
    destruct P2 as [[-> F2]|(g2 & -> & F2)];
    destruct P3 as [[-> F3]|(g3 & -> & F3)];
    rewrite F3, F2, F1, <- !app_assoc;
    [ exists [false; false; false; true]
    | exists [false; false; true; true]
    | exists [false; true; false; true]
    | exists [false; true; true; true]
    | exists [true; false; false; true]
    | exists [true; false; true; true]
    | exists [true; true; false; true]
    | exists [true; true; true; true] ];
    eexists; (split; [reflexivity|]); (split; [reflexivity|]);
    (split; [reflexivity|reflexivity]).
Qed.

End ResultsAndFiles.

(** X10: a run that returns has written one dataset for each entry of its
    result mapping, at the path the entry names and in the same order; the
    mapping holds some of the four entries NDVI, GNDVI, EVI2 and
    Palm_Combined, in that order, each with the path that [os.path.join]
    gives it under the [polygons] directory of the output directory; and no
    run, returning or raising, writes an empty Feature Set. *)
Theorem run_results_match_files {G : GeoLib} (cfg : Config)
  (r1 r2 r3 : grid fval * Meta) (fs : FS) :
  (exists written,
     datasets (snd (run cfg r1 r2 r3 fs)) = datasets fs ++ written /\
     Forall (fun d => gdf_empty (ds_frame d) = false) written) /\
  (forall results fs',
     run cfg r1 r2 r3 fs = (Ok results, fs') ->
     exists keep written,
       length keep = 4%nat /\
       results = select keep (expected_results cfg) /\
       datasets fs' = datasets fs ++ written /\
       map snd results = map ds_path written).
Proof.
  split; [apply run_appends_nonempty|].
  intros results fs'. apply run_outcome.
Qed.

(** The five-sample layer with a minimum of 5 ha: all four results are
    written. *)
Lemma run_results_match_files_witness :
  exists keep (written : list (@Dataset CellGeo)),
    length keep = 4%nat /\
    [("NDVI", "out/polygons/NDVI_polygons.gpkg");
     ("GNDVI", "out/polygons/GNDVI_polygons.gpkg");
     ("EVI2", "out/polygons/EVI2_polygons.gpkg");
     ("Palm_Combined", "out/polygons/Palm_Combined.gpkg")]%string =
      select keep (expected_results (cfg_of 5 10)) /\
    length written = 4%nat.
Proof.
  destruct (run_results_match_files (cfg_of 5 10) (layer_row5, meta100)
              (layer_row5, meta100) (layer_row5, meta100) fs_empty) as [_ H].
  assert (E : exists fs',
            run (cfg_of 5 10) (layer_row5, meta100) (layer_row5, meta100)
                (layer_row5, meta100) fs_empty =
            (Ok [("NDVI", "out/polygons/NDVI_polygons.gpkg");
                 ("GNDVI", "out/polygons/GNDVI_polygons.gpkg");
                 ("EVI2", "out/polygons/EVI2_polygons.gpkg");
                 ("Palm_Combined", "out/polygons/Palm_Combined.gpkg")]%string, fs'))
    by (eexists; vm_compute; reflexivity).
  destruct E as (fs' & E).
  destruct (H _ _ E) as (keep & written & Hk & Hr & Hf & Hm).
  exists keep, written. split; [exact Hk|]. split; [exact Hr|].
  apply (f_equal (@length _)) in Hm. rewrite !length_map in Hm.
  symmetry. exact Hm.
Defined.

(** ** Vegetation indices *)

Lemma shape_np_zip (f : fval -> fval -> fval) (a b : grid fval) :
  shape (np_zip f a b) = shape a.
Proof. apply shape_tabulate_shape. Qed.

Lemma shape_np_map (f : fval -> fval) (a : grid fval) :
  shape (np_map f a) = shape a.
Proof. apply shape_tabulate_shape. Qed.

Lemma get_np_zip (f : fval -> fval -> fval) (a b : grid fval) (p : cell) :
  inb (shape a) p = true ->
  get NaN (np_zip f a b) p = f (get NaN a p) (get NaN b p).
Proof. intros H. unfold np_zip. rewrite get_tabulate, H. reflexivity. Qed.

Lemma get_np_map (f : fval -> fval) (a : grid fval) (p : cell) :
  inb (shape a) p = true ->
  get NaN (np_map f a) p = f (get NaN a p).
Proof. intros H. unfold np_map. rewrite get_tabulate, H. reflexivity. Qed.

Lemma get_outside {A} (d : A) (g : grid A) (p : cell) :
  inb (shape g) p = false -> get d g p = d.
Proof. intros H. unfold get. rewrite H. reflexivity. Qed.

Lemma fclip_index_sample (x : fval) : index_sample (fclip (-1) 1 x).
Proof.
  destruct x as [q| | |]; simpl.
  - destruct (Qle_bool q (-1)) eqn:E1.
    + right. exists (-1)%Q. repeat split; lra.
    + destruct (Qle_bool 1 q) eqn:E2.
      * right. exists 1%Q. repeat split; lra.
      * right. exists q. split; [reflexivity|].
        assert (N1 : ~ (q <= -1)%Q)
          by (intros H; apply Qle_bool_iff in H; congruence).
        assert (N2 : ~ (1 <= q)%Q)
          by (intros H; apply Qle_bool_iff in H; congruence).
        split; lra.
  - right. exists 1%Q. repeat split; lra.
  - right. exists (-1)%Q. repeat split; lra.
  - left. reflexivity.
Qed.

Lemma np_clip_index_sample (a : grid fval) (p : cell) :
  index_sample (get NaN (np_clip a (-1) 1) p).
Proof.
  unfold np_clip, np_map. rewrite get_tabulate.
  destruct (inb (shape a) p); [apply fclip_index_sample|left; reflexivity].
Qed.

Lemma mask_builder_cell (arr : grid fval) (val_range : fval * fval)
  (mask : grid bool) (p : cell) :
  mask_builder arr val_range = Ok mask ->
  get false mask p = inb (shape arr) p && in_range_at arr val_range p.
Proof.
  rewrite mask_builder_ok. intros E. injection E as <-.
  apply get_false_tabulate.
Qed.

Lemma index_sample_above (x lo hi : fval) :
  index_sample x -> fgt lo (Fin 1) = true -> fge x lo && fle x hi = false.
Proof.
  intros [->|(q & -> & H1 & H2)] Hl; [destruct lo; reflexivity|].
  destruct (fge (Fin q) lo) eqn:E; [|reflexivity]. exfalso.
  unfold fge in E. destruct lo as [l| | |]; simpl in *; try discriminate.
  apply negb_true_iff in Hl. apply Qle_bool_iff in E.
  assert (N : ~ (l <= 1)%Q) by (intros L; apply Qle_bool_iff in L; congruence).
  lra.
Qed.

(** X11: every sample of the three index arrays is NaN or lies in [-1, 1],
    and the arrays have the shape of the NIR band; hence a threshold range
    whose lower end, converted to float32, is above 1 gives an NDVI mask
    without 1-valued cells, and so does every lower end from the float32
    next above 1 on. *)
Theorem indices_within_unit_range (blue green red nir : grid fval) (p : cell) :
  shape (ndvi_of red nir) = shape nir /\
  shape (gndvi_of green nir) = shape nir /\
  shape (evi2_of red nir) = shape nir /\
  index_sample (get NaN (fst (fst (calculate_indices blue green red nir))) p) /\
  index_sample (get NaN (snd (fst (calculate_indices blue green red nir))) p) /\
  index_sample (get NaN (snd (calculate_indices blue green red nir)) p) /\
  (forall lo hi mask,
     fgt (f32 lo) (Fin 1) = true ->
     mask_builder (ndvi_of red nir) (lo, hi) = Ok mask ->
     get false mask p = false) /\
  (forall lo hi mask,
     fle (Fin (8388609#8388608)) lo = true ->
     mask_builder (ndvi_of red nir) (lo, hi) = Ok mask ->
     get false mask p = false).
Proof.
  unfold calculate_indices. cbn [fst snd].
  split; [unfold ndvi_of, np_clip; rewrite shape_np_map, shape_np_zip, shape_np_zip; reflexivity|].
  split; [unfold gndvi_of, np_clip; rewrite shape_np_map, shape_np_zip, shape_np_zip; reflexivity|].
  split; [unfold evi2_of, np_clip;
          rewrite shape_np_map, shape_np_zip, shape_np_map, shape_np_zip; reflexivity|].
  split; [apply np_clip_index_sample|].
  split; [apply np_clip_index_sample|].
  split; [apply np_clip_index_sample|].
  assert (H : forall lo hi mask,
            fgt (f32 lo) (Fin 1) = true ->
            mask_builder (ndvi_of red nir) (lo, hi) = Ok mask ->
            get false mask p = false).
  { intros lo hi mask Hlo E. rewrite (mask_builder_cell _ _ _ p E).
    unfold in_range_at. cbn [fst snd].
    rewrite (index_sample_above _ (f32 lo) (f32 hi));
      [apply andb_false_r| |exact Hlo].
    apply np_clip_index_sample. }
  split; [exact H|].
  intros lo hi mask Hlo. apply H.
  apply f32_mono in Hlo.
  change (f32 (Fin (8388609#8388608))) with (Fin (8388609#8388608)) in Hlo.
  destruct (f32 lo) as [l| | |]; simpl in *; try discriminate; try reflexivity.
  apply negb_true_iff. apply Qle_bool_iff in Hlo.
  destruct (Qle_bool l 1) eqn:E; [|reflexivity].
  apply Qle_bool_iff in E. lra.
Qed.

(** *** The sign of an index *)

Lemma round_to_sign (fmt : format) (q : Q) :
  ((q <= 0)%Q -> nonpositive (round_to fmt q)) /\
  ((0 <= q)%Q -> nonnegative (round_to fmt q)).
Proof.
  destruct (nearest_sign fmt q) as [S1 S2].
  unfold round_to. destruct (Qeq_bool q 0) eqn:E.
  - split; intros _; simpl; lra.
  - apply Qeq_bool_neq in E.
    destruct (Qle_bool (2 ^ emax fmt) (Qabs (nearest fmt q))).
    + destruct (Qle_bool 0 q) eqn:P.
      * apply Qle_bool_iff in P. split; intros H; simpl; [|exact I].
        apply E. lra.
      * assert (N : ~ (0 <= q)%Q) by (intros H; apply Qle_bool_iff in H; congruence).
        split; intros H; simpl; [exact I|contradiction].
    + split; intros H; simpl; [apply S2|apply S1]; exact H.
Qed.

Lemma f32_sign (x : fval) :
  (nonpositive x -> nonpositive (f32 x)) /\
  (nonnegative x -> nonnegative (f32 x)).
Proof.
  destruct x as [q| | |]; simpl; try tauto.
  apply round_to_sign.
Qed.

Lemma fdiv_sign (x y : fval) :
  nonnegative y ->
  (nonpositive x -> fdiv x y = NaN \/ nonpositive (fdiv x y)) /\
  (nonnegative x -> fdiv x y = NaN \/ nonnegative (fdiv x y)).
Proof.
  destruct x as [a| | |], y as [b| | |]; simpl; try tauto; intros Hb.
  - destruct (Qeq_bool b 0) eqn:E.
    + unfold inf_of_sign. destruct (a ?= 0)%Q eqn:C; simpl.
      * tauto.
      * apply Qlt_alt in C. split; intros H; [tauto|lra].
      * apply Qgt_alt in C. split; intros H; [lra|tauto].
    + apply Qeq_bool_neq in E. assert (Hp : (0 < b)%Q) by lra. simpl.
      split; intros H; right.
      * apply Qle_shift_div_r; [exact Hp|]. lra.
      * apply Qle_shift_div_l; [exact Hp|]. lra.
  - split; intros _; right; lra.
  - apply Qle_bool_iff in Hb. rewrite Hb. simpl. tauto.
  - apply Qle_bool_iff in Hb. rewrite Hb. simpl. tauto.
Qed.

Lemma fclip_sign (x : fval) :
  (nonpositive x -> nonpositive (fclip (-1) 1 x)) /\
  (nonnegative x -> nonnegative (fclip (-1) 1 x)).
Proof.
  destruct x as [q| | |]; simpl.
  - destruct (Qle_bool q (-1)) eqn:E1.
    + apply Qle_bool_iff in E1. split; intros H; simpl; lra.
    + destruct (Qle_bool 1 q) eqn:E2.
      * apply Qle_bool_iff in E2. split; intros H; simpl; lra.
      * split; intros H; exact H.
  - split; [intros []|intros _; lra].
  - split; [intros _; lra|intros []].
  - tauto.
Qed.

(** An index that is a quotient of float32 values with a non-negative
    denominator has the sign of its numerator, or none. *)
Lemma index_sign (x y : fval) :
  nonnegative y ->
  (nonpositive x ->
   forall q, fclip (-1) 1 (f32_div x y) = Fin q -> (q <= 0)%Q) /\
  (nonnegative x ->
   forall q, fclip (-1) 1 (f32_div x y) = Fin q -> (0 <= q)%Q).
Proof.
  intros Hy. destruct (fdiv_sign x y Hy) as [D1 D2]. unfold f32_div.
  split; intros Hx q E.
  - destruct (D1 Hx) as [N|N].
    + rewrite N in E. discriminate.
    + apply (proj1 (f32_sign _)), (proj1 (fclip_sign _)) in N.
      rewrite E in N. exact N.
  - destruct (D2 Hx) as [N|N].
    + rewrite N in E. discriminate.
    + apply (proj2 (f32_sign _)), (proj2 (fclip_sign _)) in N.
      rewrite E in N. exact N.
Qed.

Lemma fmul_sign (c : Q) (x : fval) :
  (0 < c)%Q ->
  (nonpositive x -> nonpositive (fmul (Fin c) x)) /\
  (nonnegative x -> nonnegative (fmul (Fin c) x)).
Proof.
  intros Hc. destruct x as [q| | |]; simpl; try tauto.
  - split; intros H.
    + setoid_replace 0%Q with (c * 0)%Q by ring.
      apply Qmult_le_l; assumption.
    + apply Qmult_le_0_compat; lra.
  - unfold inf_of_sign. apply Qgt_alt in Hc. rewrite Hc. simpl. tauto.
  - unfold inf_of_sign.
    assert (C : (- c ?= 0)%Q = Lt) by (apply (proj1 (Qlt_alt _ _)); lra).
    rewrite C. simpl. tauto.
Qed.

Lemma fadd_nonnegative (x y : fval) :
  nonnegative x -> nonnegative y -> nonnegative (fadd x y).
Proof.
  destruct x as [a| | |], y as [b| | |]; simpl; try tauto. intros; lra.
Qed.

(** X12: at a pixel whose red and near-infrared samples are finite and not
    negative, a positive NDVI or EVI2 occurs only where NIR exceeds red,
    and a negative one only where red exceeds NIR: rounding, overflow and
    underflow never turn the sign.  Where both samples are 0, NDVI is NaN
    and the pixel is in no NDVI mask, whatever the range. *)
Theorem indices_on_reflectances (red nir : grid fval) (p : cell) (r n : Q) :
  shape red = shape nir -> inb (shape nir) p = true ->
  get NaN red p = Fin r -> get NaN nir p = Fin n ->
  (0 <= r)%Q -> (0 <= n)%Q ->
  (forall q, get NaN (ndvi_of red nir) p = Fin q ->
     ((0 < q)%Q -> (r < n)%Q) /\ ((q < 0)%Q -> (n < r)%Q)) /\
  (forall q, get NaN (evi2_of red nir) p = Fin q ->
     ((0 < q)%Q -> (r < n)%Q) /\ ((q < 0)%Q -> (n < r)%Q)) /\
  ((n == 0)%Q -> (r == 0)%Q ->
   get NaN (ndvi_of red nir) p = NaN /\
   forall val_range mask,
     mask_builder (ndvi_of red nir) val_range = Ok mask ->
     get false mask p = false).
Proof.
  intros Es Hin Er En Hr Hn.
  assert (Ndvi : get NaN (ndvi_of red nir) p =
                 fclip (-1) 1 (f32_div (f32_sub (Fin n) (Fin r))
                                       (f32_add (Fin n) (Fin r)))).
  { unfold ndvi_of, np_clip.
    rewrite get_np_map by (rewrite shape_np_zip, shape_np_zip; exact Hin).
    rewrite get_np_zip by (rewrite shape_np_zip; exact Hin).
    rewrite !get_np_zip by exact Hin. rewrite Er, En. reflexivity. }
  assert (Evi : get NaN (evi2_of red nir) p =
                fclip (-1) 1
                  (f32_div (f32_mul (scalar32 (25#10)) (f32_sub (Fin n) (Fin r)))
                           (f32_add (f32_add (Fin n)
                                       (f32_mul (scalar32 (24#10)) (Fin r)))
                                    (scalar32 1)))).
  { unfold evi2_of, np_clip.
    rewrite get_np_map by (rewrite shape_np_zip, shape_np_map, shape_np_zip; exact Hin).
    rewrite get_np_zip by (rewrite shape_np_map, shape_np_zip; exact Hin).
    rewrite get_np_map by (rewrite shape_np_zip; exact Hin).
    rewrite get_np_map by (rewrite shape_np_zip; exact Hin).
    rewrite !get_np_zip by exact Hin.
    rewrite get_np_map by (rewrite Es; exact Hin).
    rewrite Er, En. reflexivity. }
  assert (Sub : ((n <= r)%Q -> nonpositive (f32_sub (Fin n) (Fin r))) /\
                ((r <= n)%Q -> nonnegative (f32_sub (Fin n) (Fin r)))).
  { unfold f32_sub, fsub, fneg, fadd. split; intros H.
    - apply (proj1 (f32_sign _)). simpl. lra.
    - apply (proj2 (f32_sign _)). simpl. lra. }
  assert (Den1 : nonnegative (f32_add (Fin n) (Fin r))).
  { unfold f32_add. apply (proj2 (f32_sign _)). simpl. lra. }
  assert (C25 : exists c, scalar32 (25#10) = Fin c /\ (0 < c)%Q)
    by (eexists; split; [vm_compute; reflexivity|reflexivity]).
  assert (C24 : exists c, scalar32 (24#10) = Fin c /\ (0 < c)%Q)
    by (eexists; split; [vm_compute; reflexivity|reflexivity]).
  assert (C1 : scalar32 1 = Fin 1) by (vm_compute; reflexivity).
  destruct C25 as (c25 & E25 & P25). destruct C24 as (c24 & E24 & P24).
  assert (Num2 : ((n <= r)%Q ->
                  nonpositive (f32_mul (scalar32 (25#10)) (f32_sub (Fin n) (Fin r)))) /\
                 ((r <= n)%Q ->
                  nonnegative (f32_mul (scalar32 (25#10)) (f32_sub (Fin n) (Fin r))))).
  { rewrite E25. unfold f32_mul. split; intros H.
    - apply (proj1 (f32_sign _)), (proj1 (fmul_sign c25 _ P25)), Sub, H.
    - apply (proj2 (f32_sign _)), (proj2 (fmul_sign c25 _ P25)), Sub, H. }
  assert (Den2 : nonnegative (f32_add (f32_add (Fin n)
                                         (f32_mul (scalar32 (24#10)) (Fin r)))
                                      (scalar32 1))).
  { rewrite E24, C1. unfold f32_add at 1. apply (proj2 (f32_sign _)).
    apply fadd_nonnegative; [|simpl; lra].
    unfold f32_add. apply (proj2 (f32_sign _)).
    apply fadd_nonnegative; [simpl; exact Hn|].
    unfold f32_mul. apply (proj2 (f32_sign _)), (proj2 (fmul_sign c24 _ P24)).
    simpl. exact Hr. }
  split; [|split].
  - intros q E. rewrite Ndvi in E.
    destruct (index_sign (f32_sub (Fin n) (Fin r)) _ Den1) as [I1 I2].
    split; intros Hq.
    + destruct (Qlt_le_dec r n) as [L|L]; [exact L|].
      pose proof (I1 (proj1 Sub L) q E). lra.
    + destruct (Qlt_le_dec n r) as [L|L]; [exact L|].
      pose proof (I2 (proj2 Sub L) q E). lra.
  - intros q E. rewrite Evi in E.
    destruct (index_sign (f32_mul (scalar32 (25#10)) (f32_sub (Fin n) (Fin r)))
                _ Den2) as [I1 I2].
    split; intros Hq.
    + destruct (Qlt_le_dec r n) as [L|L]; [exact L|].
      pose proof (I1 (proj1 Num2 L) q E). lra.
    + destruct (Qlt_le_dec n r) as [L|L]; [exact L|].
      pose proof (I2 (proj2 Num2 L) q E). lra.
  - intros Zn Zr.
    assert (E : get NaN (ndvi_of red nir) p = NaN).
    { rewrite Ndvi. unfold f32_sub, f32_add, f32_div, fsub, fneg, fadd, f32, round_to.
      assert (Z1 : Qeq_bool (n + - r) 0 = true) by (apply Qeq_bool_iff; lra).
      assert (Z2 : Qeq_bool (n + r) 0 = true) by (apply Qeq_bool_iff; lra).
      rewrite Z1, Z2. reflexivity. }
    split; [exact E|].
    intros val_range mask Em. rewrite (mask_builder_cell _ _ _ p Em).
    unfold in_range_at. rewrite E. unfold fge.
    destruct (f32 (fst val_range)), (f32 (snd val_range)); simpl;
      rewrite ?andb_false_r; reflexivity.
Qed.

(** The no-data pixel of the example bands has NDVI NaN; the vegetation
    pixel has NDVI 0.75. *)
Lemma indices_on_reflectances_witness :
  get NaN (ndvi_of band_red band_nir) (0, 1) = NaN /\
  get NaN (ndvi_of band_red band_nir) (0, 2) = Fin (3#4) /\
  (500 < 3500)%Q.
Proof.
  destruct (indices_on_reflectances band_red band_nir (0, 1) 0 0
              eq_refl eq_refl eq_refl eq_refl ltac:(lra) ltac:(lra))
    as (_ & _ & H1).
  destruct (indices_on_reflectances band_red band_nir (0, 2) 500 3500
              eq_refl eq_refl eq_refl eq_refl ltac:(lra) ltac:(lra))
    as (H2 & _).
  split; [apply H1; reflexivity|].
  assert (E : get NaN (ndvi_of band_red band_nir) (0, 2) = Fin (3#4))
    by (vm_compute; reflexivity).
  split; [exact E|]. apply (H2 _ E). reflexivity.
Defined.

(** ** Band files *)

Lemma dict_get_set_same (d : band_dict) (k : string) (v : option string) :
  dict_get (dict_set d k v) k = v.
Proof.
  induction d as [|[k' v'] d IH]; simpl.
  - rewrite String.eqb_refl. reflexivity.
  - destruct (String.eqb_spec k' k) as [->|N]; simpl.
    + rewrite String.eqb_refl. reflexivity.
    + destruct (String.eqb_spec k' k); [contradiction|]. exact IH.
Qed.

Lemma dict_get_set_other (d : band_dict) (k k' : string) (v : option string) :
  k <> k' -> dict_get (dict_set d k v) k' = dict_get d k'.
Proof.
  intros N. induction d as [|[k0 v0] d IH]; simpl.
  - destruct (String.eqb_spec k k'); [contradiction|reflexivity].
  - destruct (String.eqb_spec k0 k) as [->|N0]; simpl.
    + destruct (String.eqb_spec k k'); [contradiction|reflexivity].
    + destruct (String.eqb_spec k0 k'); [reflexivity|exact IH].
Qed.

Lemma dict_set_keys_in (d : band_dict) (k : string) (v : option string) :
  In k (map fst d) -> map fst (dict_set d k v) = map fst d.
Proof.
  induction d as [|[k' v'] d IH]; simpl; [intros []|].
  intros H. destruct (String.eqb_spec k' k) as [->|N]; simpl; [reflexivity|].
  f_equal. apply IH. destruct H; [contradiction|assumption].
Qed.

Lemma dict_set_keys_new (d : band_dict) (k : string) (v : option string) :
  ~ In k (map fst d) -> map fst (dict_set d k v) = map fst d ++ [k].
Proof.
  induction d as [|[k' v'] d IH]; simpl; [reflexivity|].
  intros H. destruct (String.eqb_spec k' k) as [->|N]; simpl.
  - exfalso. apply H. left; reflexivity.
  - f_equal. apply IH. intros Hin. apply H. right; exact Hin.
Qed.

Lemma dict_init_from (bands : list string) (d : band_dict) :
  NoDup (map fst d) -> (forall k, dict_get d k = None) ->
  let d' := fold_left (fun d b => dict_set d b None) bands d in
  NoDup (map fst d') /\
  (forall k, In k (map fst d') <-> In k (map fst d) \/ In k bands) /\
  (forall k, dict_get d' k = None).
Proof.
  revert d. induction bands as [|b bands IH]; intros d Hnd Hg; simpl.
  - split; [exact Hnd|]. split; [intros k; tauto|exact Hg].
  - assert (Hg' : forall k, dict_get (dict_set d b None) k = None).
    { intros k. destruct (String.eqb_spec b k) as [->|N].
      - apply dict_get_set_same.
      - rewrite dict_get_set_other by exact N. apply Hg. }
    destruct (in_dec string_dec b (map fst d)) as [Hin|Hout].
    + assert (Hk := dict_set_keys_in d b None Hin).
      destruct (IH (dict_set d b None)) as (H1 & H2 & H3);
        [rewrite Hk; exact Hnd|exact Hg'|].
      split; [exact H1|]. split; [|exact H3].
      intros k. rewrite H2, Hk. split; [tauto|].
      intros [H|[<-|H]]; tauto.
    + assert (Hk := dict_set_keys_new d b None Hout).
      destruct (IH (dict_set d b None)) as (H1 & H2 & H3); [|exact Hg'|].
      * rewrite Hk. apply NoDup_app; [exact Hnd| |].
        -- constructor; [intros []|constructor].
        -- intros x Hx [<-|[]]. contradiction.
      * split; [exact H1|]. split; [|exact H3].
        intros k. rewrite H2, Hk, in_app_iff. simpl. tauto.
Qed.

Lemma dict_init_spec (bands : list string) :
  NoDup (map fst (dict_init bands)) /\
  (forall k, In k (map fst (dict_init bands)) <-> In k bands) /\
  (forall k, dict_get (dict_init bands) k = None).
Proof.
  destruct (dict_init_from bands []) as (H1 & H2 & H3);
    [constructor|reflexivity|].
  split; [exact H1|]. split; [|exact H3].
  intros k. rewrite (H2 k). simpl. tauto.
Qed.

(** One pass of [for b in bands] for a file. *)
Lemma visit_band_fold (root f : string) (bs : list string) (found : band_dict) :
  (forall b, In b bs -> In b (map fst found)) ->
  let found' := fold_left (visit_band root f) bs found in
  map fst found' = map fst found /\
  forall k,
    dict_get found' k =
    match dict_get found k with
    | Some path => Some path
    | None =>
        if existsb (String.eqb k) bs &&
           (contains (str_upper f) k &&
            (contains (str_upper root) "R10M" || contains (str_upper f) "10M"))
        then Some (os_path_join root f) else None
    end.
Proof.
  revert found. induction bs as [|b bs IH]; intros found Hk; simpl.
  - split; [reflexivity|]. intros k. destruct (dict_get found k); reflexivity.
  - assert (Hstep : map fst (visit_band root f found b) = map fst found).
    { unfold visit_band.
      destruct (contains (str_upper f) b && _); [|reflexivity].
      destruct (dict_get found b); [reflexivity|].
      apply dict_set_keys_in. apply Hk. left; reflexivity. }
    destruct (IH (visit_band root f found b)) as [H1 H2].
    { intros b' Hb'. rewrite Hstep. apply Hk. right; exact Hb'. }
    split; [rewrite H1; exact Hstep|].
    intros k. rewrite H2. unfold visit_band.
    destruct (String.eqb_spec k b) as [->|N]; simpl.
    + destruct (contains (str_upper f) b &&
                (contains (str_upper root) "R10M" || contains (str_upper f) "10M"))
        eqn:Ec.
      * destruct (dict_get found b) eqn:Eg; [rewrite Eg; reflexivity|].
        rewrite dict_get_set_same. reflexivity.
      * destruct (dict_get found b); [reflexivity|].
        rewrite andb_false_r. reflexivity.
    + assert (Eo : dict_get
                (if contains (str_upper f) b &&
                    (contains (str_upper root) "R10M" ||
                     contains (str_upper f) "10M")
                 then match dict_get found b with
                      | Some _ => found
                      | None => dict_set found b (Some (os_path_join root f))
                      end
                 else found) k = dict_get found k).
      { destruct (contains (str_upper f) b && _); [|reflexivity].
        destruct (dict_get found b); [reflexivity|].
        apply dict_get_set_other. congruence. }
      rewrite Eo. reflexivity.
Qed.

Lemma existsb_eqb_In (k : string) (bs : list string) :
  existsb (String.eqb k) bs = true <-> In k bs.
Proof.
  rewrite existsb_exists. split.
  - intros (x & Hx & E). apply String.eqb_eq in E. subst; exact Hx.
  - intros H. exists k. split; [exact H|apply String.eqb_refl].
Qed.

(** One file of the walk. *)
Lemma visit_file_spec (bands : list string) (root f : string) (found : band_dict) :
  (forall b, In b bands -> In b (map fst found)) ->
  map fst (visit_file bands root found f) = map fst found /\
  forall k, In k bands ->
    dict_get (visit_file bands root found f) k =
    match dict_get found k with
    | Some path => Some path
    | None => if band_file k root f then Some (os_path_join root f) else None
    end.
Proof.
  intros Hk. unfold visit_file, band_file.
  destruct (endswith (str_lower f) ".jp2"); simpl.
  - destruct (visit_band_fold root f bands found Hk) as [H1 H2].
    split; [exact H1|]. intros k Hin. rewrite H2.
    apply existsb_eqb_In in Hin. rewrite Hin. reflexivity.
  - split; [reflexivity|]. intros k _. destruct (dict_get found k); reflexivity.
Qed.

(** All files of the walk, in order. *)
Lemma visit_files_spec (bands : list string) (cs : list (string * string))
  (found : band_dict) :
  (forall b, In b bands -> In b (map fst found)) ->
  let found' := fold_left (fun d rf => visit_file bands (fst rf) d (snd rf)) cs found in
  map fst found' = map fst found /\
  forall k, In k bands ->
    dict_get found' k =
    match dict_get found k with
    | Some path => Some path
    | None => option_map (fun rf => os_path_join (fst rf) (snd rf))
                (find (fun rf => band_file k (fst rf) (snd rf)) cs)
    end.
Proof.
  revert found. induction cs as [|[root f] cs IH]; intros found Hk; simpl.
  - split; [reflexivity|]. intros k _. destruct (dict_get found k); reflexivity.
  - destruct (visit_file_spec bands root f found Hk) as [S1 S2].
    destruct (IH (visit_file bands root found f)) as [H1 H2].
    { intros b Hb. rewrite S1. apply Hk; exact Hb. }
    split; [rewrite H1; exact S1|].
    intros k Hin. rewrite (H2 k Hin), (S2 k Hin).
    destruct (dict_get found k); [reflexivity|].
    destruct (band_file k root f); reflexivity.
Qed.

Lemma visit_dirs_flatten (bands : list string) (walk : list (string * list string))
  (found : band_dict) :
  fold_left (visit_dir bands) walk found =
  fold_left (fun d rf => visit_file bands (fst rf) d (snd rf)) (walk_files walk) found.
Proof.
  revert found. induction walk as [|[root files] walk IH]; intros found; simpl;
    [reflexivity|].
  unfold walk_files in *. simpl. rewrite fold_left_app, <- IH. f_equal.
  unfold visit_dir. simpl. clear IH. revert found.
  induction files as [|f files IHf]; intros found; simpl; [reflexivity|].
  apply IHf.
Qed.

Lemma dict_get_of_entry (d : band_dict) (k : string) (v : option string) :
  NoDup (map fst d) -> In (k, v) d -> dict_get d k = v.
Proof.
  induction d as [|[k' v'] d IH]; simpl; [intros _ []|].
  intros Hnd [E|Hin].
  - injection E as -> ->. rewrite String.eqb_refl. reflexivity.
  - inversion Hnd as [|? ? Hout Hnd']; subst.
    destruct (String.eqb_spec k' k) as [->|N].
    + exfalso. apply Hout. apply in_map_iff. exists (k, v). split; [reflexivity|exact Hin].
    + apply IH; assumption.
Qed.

Lemma map_fst_filter_keys (d : band_dict) (g : string -> bool) :
  map fst (filter (fun kv => g (fst kv)) d) = filter g (map fst d).
Proof.
  induction d as [|[k v] d IH]; simpl; [reflexivity|].
  destruct (g k); simpl; rewrite IH; reflexivity.
Qed.

(** The dictionary at the end of the walk. *)
Lemma find_bands_found (walk : list (string * list string)) (bands : list string) :
  let found := fold_left (visit_dir bands) walk (dict_init bands) in
  map fst found = map fst (dict_init bands) /\
  (forall k, In k bands -> dict_get found k = first_band_file walk k).
Proof.
  destruct (dict_init_spec bands) as (Hnd & Hkeys & Hnone).
  rewrite visit_dirs_flatten.
  destruct (visit_files_spec bands (walk_files walk) (dict_init bands)) as [H1 H2].
  { intros b Hb. apply Hkeys; exact Hb. }
  split; [exact H1|]. intros k Hin. rewrite (H2 k Hin), Hnone. reflexivity.
Qed.

Lemma find_bands_spec (folder : string) (walk : list (string * list string))
  (bands : list string) :
  find_bands folder walk bands =
  match filter (band_missing walk) (map fst (dict_init bands)) with
  | [] => Found (map (first_band_file walk) bands)
  | missing => FileNotFoundError folder missing
  end.
Proof.
  destruct (dict_init_spec bands) as (Hnd & Hkeys & _).
  destruct (find_bands_found walk bands) as [Hk Hg]. cbv zeta in Hk, Hg.
  unfold find_bands.
  set (found := fold_left (visit_dir bands) walk (dict_init bands)) in *.
  assert (Em : map fst (filter (fun kv => match snd kv with
                                          | None => true
                                          | Some _ => false
                                          end) found) =
               filter (band_missing walk) (map fst (dict_init bands))).
  { rewrite <- Hk, <- map_fst_filter_keys. f_equal.
    apply filter_ext_in. intros [k v] Hin. cbn [fst snd].
    unfold band_missing. rewrite <- Hg.
    - rewrite (dict_get_of_entry found k v); [reflexivity| |exact Hin].
      rewrite Hk. exact Hnd.
    - apply Hkeys. rewrite <- Hk. apply in_map_iff.
      exists (k, v). split; [reflexivity|exact Hin]. }
  rewrite Em.
  destruct (filter (band_missing walk) (map fst (dict_init bands)));
    [|reflexivity].
  f_equal. apply map_ext_in. intros b Hb. apply Hg; exact Hb.
Qed.

Lemma band_missing_spec (walk : list (string * list string)) (b : string) :
  band_missing walk b = true <->
  forall root f, In (root, f) (walk_files walk) -> band_file b root f = false.
Proof.
  unfold band_missing, first_band_file.
  destruct (find (fun rf => band_file b (fst rf) (snd rf)) (walk_files walk))
    as [[root f]|] eqn:E; simpl.
  - split; [discriminate|]. intros H. apply find_some in E as [Hin Hb].
    cbn [fst snd] in Hb. rewrite (H root f Hin) in Hb. discriminate.
  - split; [|reflexivity]. intros _ root f Hin.
    apply (find_none _ _ E (root, f) Hin).
Qed.

Lemma first_band_file_some (walk : list (string * list string)) (b path : string) :
  first_band_file walk b = Some path ->
  exists root f,
    path = os_path_join root f /\ In (root, f) (walk_files walk) /\
    band_file b root f = true.
Proof.
  unfold first_band_file.
  destruct (find (fun rf => band_file b (fst rf) (snd rf)) (walk_files walk))
    as [[root f]|] eqn:E; simpl; [|discriminate].
  intros [= <-]. apply find_some in E as [Hin Hb].
  exists root, f. repeat split; assumption.
Qed.

(** X13: in a folder whose directories and files have ASCII names, when
    every requested band has a file that serves it (a name ending in .jp2
    in any letter case, holding the band id once upper-cased, in a 10 m
    folder or with 10M in its name), [find_bands] returns one path per
    requested band, in the order requested: for each band the first such
    file in walk order, joined to its directory. *)
Theorem find_bands_returns_first_files (folder : string)
  (walk : list (string * list string)) (bands : list string) :
  ascii_walk walk = true ->
  (forall b, In b bands ->
     exists root f, In (root, f) (walk_files walk) /\ band_file b root f = true) ->
  find_bands folder walk bands = Found (map (first_band_file walk) bands) /\
  length (map (first_band_file walk) bands) = length bands /\
  (forall b, In b bands ->
     exists root f,
       first_band_file walk b = Some (os_path_join root f) /\
       In (root, f) (walk_files walk) /\
       endswith (str_lower f) ".jp2" = true /\
       contains (str_upper f) b = true /\
       (contains (str_upper root) "R10M" || contains (str_upper f) "10M") = true).
Proof.
  intros _ H.
  assert (Hm : forall b, In b bands -> band_missing walk b = false).
  { intros b Hb. destruct (band_missing walk b) eqn:E; [|reflexivity].
    destruct (H b Hb) as (root & f & Hin & Hbf).
    rewrite (proj1 (band_missing_spec walk b) E root f Hin) in Hbf. discriminate. }
  split; [|split; [apply length_map|]].
  - rewrite find_bands_spec.
    destruct (dict_init_spec bands) as (_ & Hkeys & _).
    assert (E : filter (band_missing walk) (map fst (dict_init bands)) = []).
    { destruct (filter (band_missing walk) (map fst (dict_init bands)))
        as [|x l] eqn:Ef; [reflexivity|].
      assert (Hx : In x (filter (band_missing walk) (map fst (dict_init bands))))
        by (rewrite Ef; left; reflexivity).
      apply filter_In in Hx as [Hx1 Hx2]. apply Hkeys in Hx1.
      rewrite (Hm x Hx1) in Hx2. discriminate. }
    rewrite E. reflexivity.
  - intros b Hb. specialize (Hm b Hb). unfold band_missing in Hm.
    destruct (first_band_file walk b) as [path|] eqn:E; [|discriminate].
    destruct (first_band_file_some walk b path E) as (root & f & -> & Hin & Hbf).
    exists root, f. split; [reflexivity|]. split; [exact Hin|].
    unfold band_file in Hbf.
    apply andb_true_iff in Hbf as [H1 Hbf].
    apply andb_true_iff in Hbf as [H2 H3]. tauto.
Qed.

(** The example product: the four 10 m files are returned, not the 20 m
    copy of B02 that the walk meets first. *)
Lemma find_bands_returns_first_files_witness :
  find_bands "tmp" product_walk ["B02"; "B03"; "B04"; "B08"]%string =
  Found [Some "tmp/S2A.SAFE/IMG_DATA/R10m/T43_B02_10m.jp2";
         Some "tmp/S2A.SAFE/IMG_DATA/R10m/T43_B03_10m.jp2";
         Some "tmp/S2A.SAFE/IMG_DATA/R10m/T43_B04_10m.jp2";
         Some "tmp/S2A.SAFE/IMG_DATA/R10m/T43_B08_10m.jp2"]%string.
Proof.
  assert (H : forall b, In b ["B02"; "B03"; "B04"; "B08"]%string ->
              exists root f, In (root, f) (walk_files product_walk) /\
                             band_file b root f = true).
  { intros b [<-|[<-|[<-|[<-|[]]]]].
    - exists "tmp/S2A.SAFE/IMG_DATA/R10m"%string, "T43_B02_10m.jp2"%string.
      split; [vm_compute; tauto|reflexivity].
    - exists "tmp/S2A.SAFE/IMG_DATA/R10m"%string, "T43_B03_10m.jp2"%string.
      split; [vm_compute; tauto|reflexivity].
    - exists "tmp/S2A.SAFE/IMG_DATA/R10m"%string, "T43_B04_10m.jp2"%string.
      split; [vm_compute; tauto|reflexivity].
    - exists "tmp/S2A.SAFE/IMG_DATA/R10m"%string, "T43_B08_10m.jp2"%string.
      split; [vm_compute; tauto|reflexivity]. }
  destruct (find_bands_returns_first_files "tmp" product_walk
              ["B02"; "B03"; "B04"; "B08"]%string eq_refl H) as [E _].
  rewrite E. vm_compute. reflexivity.
Defined.

(** X14: in a folder whose directories and files have ASCII names, when
    some requested band has no serving file, [find_bands] raises
    FileNotFoundError for the folder, and the bands it reports are exactly
    the requested bands without a serving file, each reported once. *)
Theorem find_bands_reports_missing (folder : string)
  (walk : list (string * list string)) (bands : list string) (b0 : string) :
  ascii_walk walk = true ->
  In b0 bands ->
  (forall root f, In (root, f) (walk_files walk) -> band_file b0 root f = false) ->
  exists missing,
    find_bands folder walk bands = FileNotFoundError folder missing /\
    NoDup missing /\
    (forall b, In b missing <->
               In b bands /\
               forall root f, In (root, f) (walk_files walk) ->
                              band_file b root f = false).
Proof.
  intros _ Hb0 Hnone.
  destruct (dict_init_spec bands) as (Hnd & Hkeys & _).
  exists (filter (band_missing walk) (map fst (dict_init bands))).
  assert (Hspec : forall b,
            In b (filter (band_missing walk) (map fst (dict_init bands))) <->
            In b bands /\
            forall root f, In (root, f) (walk_files walk) ->
                           band_file b root f = false).
  { intros b. rewrite filter_In, Hkeys, band_missing_spec. reflexivity. }
  split; [|split; [apply NoDup_filter; exact Hnd|exact Hspec]].
  rewrite find_bands_spec.
  destruct (filter (band_missing walk) (map fst (dict_init bands))) as [|x l] eqn:E;
    [|reflexivity].
  exfalso. apply (proj2 (Hspec b0)). split; assumption.
Qed.

(** The example product has no B05 at 10 m: it is the band reported. *)
Lemma find_bands_reports_missing_witness :
  exists missing,
    find_bands "tmp" product_walk ["B02"; "B05"]%string =
      FileNotFoundError "tmp" missing /\
    In "B05"%string missing /\ ~ In "B02"%string missing.
Proof.
  destruct (find_bands_reports_missing "tmp" product_walk
              ["B02"; "B05"]%string "B05"%string) as (missing & E & _ & H).
  - reflexivity.
  - right; left; reflexivity.
  - intros root f Hin. vm_compute in Hin.
    repeat (destruct Hin as [Hin|Hin]; [injection Hin as <- <-; reflexivity|]).
    destruct Hin.
  - exists missing. split; [exact E|].
    vm_compute in E. injection E as <-.
    split; [left; reflexivity|]. intros [H1|[]]. discriminate H1.
Defined.

(** *** Band ids are matched against upper-cased names *)

Lemma upper_char_not_lower (c : Ascii.ascii) : is_lower (upper_char c) = false.
Proof. destruct c as [[] [] [] [] [] [] [] []]; reflexivity. Qed.

Lemma prefix_upper_no_lower (b s : string) :
  String.prefix b (str_upper s) = true -> has_lower b = false.
Proof.
  revert s. induction b as [|c b IH]; intros s; simpl; [reflexivity|].
  destruct s as [|d s]; simpl; [discriminate|].
  destruct (Ascii.ascii_dec c (upper_char d)) as [->|]; [|discriminate].
  intros H. rewrite upper_char_not_lower. simpl. apply (IH s H).
Qed.

Lemma contains_upper_no_lower (s b : string) :
  contains (str_upper s) b = true -> has_lower b = false.
Proof.
  induction s as [|d s IH]; simpl.
  - rewrite orb_false_r. apply (prefix_upper_no_lower b EmptyString).
  - intros H. apply orb_true_iff in H as [H|H].
    + apply (prefix_upper_no_lower b (String d s)). exact H.
    + apply IH; exact H.
Qed.

(** X15: band ids are compared with upper-cased file names, so a requested
    band id holding a lower-case letter is served by no file: whatever the
    folder holds, [find_bands] raises and reports that band. *)
Theorem find_bands_lower_case_band (folder : string)
  (walk : list (string * list string)) (bands : list string) (b : string) :
  In b bands -> has_lower b = true ->
  (forall root f, band_file b root f = false) /\
  exists missing,
    find_bands folder walk bands = FileNotFoundError folder missing /\
    In b missing.
Proof.
  intros Hb Hl.
  assert (Hnone : forall root f, band_file b root f = false).
  { intros root f. unfold band_file.
    destruct (contains (str_upper f) b) eqn:E.
    - apply contains_upper_no_lower in E. congruence.
    - simpl. apply andb_false_r. }
  split; [exact Hnone|].
  destruct (dict_init_spec bands) as (_ & Hkeys & _).
  exists (filter (band_missing walk) (map fst (dict_init bands))).
  assert (Hin : In b (filter (band_missing walk) (map fst (dict_init bands)))).
  { apply filter_In. split; [apply Hkeys; exact Hb|].
    apply band_missing_spec. intros root f _. apply Hnone. }
  split; [|exact Hin].
  rewrite find_bands_spec.
  destruct (filter (band_missing walk) (map fst (dict_init bands)));
    [destruct Hin|reflexivity].
Qed.

(** Asked for "b02" the example product, which holds B02, reports it
    missing. *)
Lemma find_bands_lower_case_band_witness :
  exists missing,
    find_bands "tmp" product_walk ["B03"; "b02"]%string =
      FileNotFoundError "tmp" missing /\
    In "b02"%string missing.
Proof.
  apply (find_bands_lower_case_band "tmp" product_walk ["B03"; "b02"]%string
           "b02"%string).
  - right; left; reflexivity.
  - reflexivity.
Defined.

(** ** The number of regions *)

Lemma labelled_cells (structure input : grid bool) (adj : cell -> cell -> Prop)
  (Hn : forall p q, cell_eqb p q || neighbours structure p q = true <->
                    p = q \/ adj p q) (n : nat) :
  (n <= length (regions structure input))%nat ->
  exists ps,
    map (label_of (regions structure input)) ps = seq 1 n.
Proof.
  induction n as [|n IH]; intros Hle.
  - exists []. reflexivity.
  - destruct IH as (ps & Hps); [lia|].
    destruct (label_used structure input adj Hn n) as (p & Hp); [lia|].
    exists (ps ++ [p]). rewrite map_app, Hps. cbn [map]. rewrite Hp.
    symmetry. apply (seq_S n 1).
Qed.

(** X16: the labeler finds no region exactly when the mask has no 1-valued
    cell, and never more regions than there are 1-valued cells. *)
Theorem label_count_bounds (mask : grid bool) :
  (snd (label mask) = 0%nat <-> forall p, get false mask p = false) /\
  Z.of_nat (snd (label mask)) <= np_sum mask.
Proof.
  pose proof cross_neighbours as Hn.
  unfold label, label_with. cbn [snd].
  set (comps := regions (generate_binary_structure 1) mask).
  split.
  - split.
    + intros E p. apply (label_zero _ _ _ Hn). fold comps.
      pose proof (label_of_bound comps p). lia.
    + intros H. unfold comps. rewrite regions_no_ones by exact H. reflexivity.
  - destruct (labelled_cells _ mask _ Hn (length comps) (Nat.le_refl _))
      as (ps & Hps). fold comps in Hps.
    assert (Hlen : length ps = length comps).
    { apply (f_equal (@length _)) in Hps.
      rewrite length_map, length_seq in Hps. exact Hps. }
    assert (Hnd : NoDup ps).
    { apply (NoDup_map_inv (label_of comps)). rewrite Hps. apply seq_NoDup. }
    assert (Hincl : incl ps (ones mask)).
    { intros p Hp. apply in_ones.
      destruct (get false mask p) eqn:E; [reflexivity|].
      apply (label_zero _ _ _ Hn) in E. fold comps in E.
      assert (Hin : In (label_of comps p) (seq 1 (length comps)))
        by (rewrite <- Hps; apply in_map; exact Hp).
      apply in_seq in Hin. lia. }
    unfold np_sum. rewrite <- Hlen. apply inj_le.
    apply NoDup_incl_length; assumption.
Qed.

(** ** The features of a projected raster *)



Section ProjectedFeatures.
Context {G : GeoLib}.


End ProjectedFeatures.


